(** * Timeline layout engine: a shallow embedding and its verified properties

  The development follows the repository file by file:
  - [Py]: the Python / JavaScript built-ins the code relies on
    (stable [sorted], tuple and string comparison, [str.strip],
    [str.split], [str.lower], binary64 arithmetic);
  - [Core]: [timeline_core.py] (event model, normalisation, overlap test,
    sort keys, width estimate, entity colours, Excel ingestion);
  - [Horizontal]: the layout part of [generate_horizontal_timeline] in
    [timeline_horizontal.py];
  - [Vertical]: the client-side [layout(events)] function that
    [timeline_vertical.py] emits.

  Instants ([datetime]) are integers: microseconds since
  0001-01-01T00:00:00, the resolution of Python's [datetime]. *)

From Stdlib Require Import ZArith Lia Floats String Ascii List Permutation Sorted.
From stdpp Require Import base list strings pretty gmap sorting.

Local Open Scope Z_scope.

(* ===================================================================== *)
(** ** Built-ins of the host languages *)
(* ===================================================================== *)

Module Py.

(** Python compares tuples (and strings, code point by code point)
    lexicographically; a proper prefix is smaller.  Keys are modelled as
    lists of integers: booleans as 0/1, characters as their code point. *)
Fixpoint lex_ltb (a b : list Z) : bool :=
  match a, b with
  | [], [] => false
  | [], _ :: _ => true
  | _ :: _, [] => false
  | x :: a', y :: b' =>
      if x <? y then true else if y <? x then false else lex_ltb a' b'
  end.

Definition of_bool (b : bool) : Z := if b then 1 else 0.

(** Both host languages sort stably, so the result is determined by the
    input and insertion sort is a faithful functional model.  [lt y x]
    tells that a later element [y] must overtake an earlier [x]: the head
    [x] of the input precedes every element of the tail, hence it is
    placed in front of the first element that does not overtake it. *)
Fixpoint stable_insert {A} (lt : A -> A -> bool) (x : A) (l : list A) : list A :=
  match l with
  | [] => [x]
  | y :: l' => if lt y x then y :: stable_insert lt x l' else x :: l
  end.

Definition stable_sort {A} (lt : A -> A -> bool) (l : list A) : list A :=
  foldr (stable_insert lt) [] l.

(** [sorted(l, key=...)] / [list.sort(key=...)]: only [<] on keys is used. *)
Definition sorted {A} (key : A -> list Z) (l : list A) : list A :=
  stable_sort (fun y x => lex_ltb (key y) (key x)) l.

(** [Array.prototype.sort(cmp)] of JavaScript (stable since ES2019):
    [y] overtakes an earlier [x] only when [cmp(y, x) < 0]. *)
Definition js_sort {A} (cmp : A -> A -> Z) (l : list A) : list A :=
  stable_sort (fun y x => cmp y x <? 0) l.

(** Strings.  A Python [str] is modelled by a Rocq [string], that is, the
    code points below 256; the case mappings below are those of Python on
    these code points. *)
Definition code (c : ascii) : Z := Z.of_nat (nat_of_ascii c).

Fixpoint codes (s : string) : list Z :=
  match s with
  | EmptyString => []
  | String c s' => code c :: codes s'
  end.

Definition is_space (c : ascii) : bool :=
  let n := code c in
  (n =? 32) || ((9 <=? n) && (n <=? 13)) || ((28 <=? n) && (n <=? 31))
  || (n =? 133) || (n =? 160).

Fixpoint lstrip (s : string) : string :=
  match s with
  | EmptyString => EmptyString
  | String c s' => if is_space c then lstrip s' else s
  end.

Definition strip (s : string) : string :=
  String.rev (lstrip (String.rev (lstrip s))).

(** The capital letters below 256: A to Z, and the Latin-1 capitals from
    192 to 222 without the multiplication sign 215; each lies 32 below its
    small letter. *)
Definition is_upper (n : nat) : bool :=
  (((65 <=? n) && (n <=? 90))
   || ((192 <=? n) && (n <=? 222) && negb (n =? 215)))%nat.

(** [str.lower], character by character. *)
Definition lower_char (c : ascii) : ascii :=
  let n := nat_of_ascii c in
  if is_upper n then ascii_of_nat (n + 32) else c.

Fixpoint lower (s : string) : string :=
  match s with
  | EmptyString => EmptyString
  | String c s' => String (lower_char c) (lower s')
  end.

(** [str.casefold], as the code points of the folded text: the capitals
    fold to their small letters, the micro sign 181 to the Greek mu 956,
    and the sharp s 223 to the two letters ss; every other code point
    below 256 folds to itself. *)
Definition casefold_char (c : ascii) : list Z :=
  let n := nat_of_ascii c in
  if is_upper n then [Z.of_nat (n + 32)]
  else if (n =? 181)%nat then [956]
  else if (n =? 223)%nat then [115; 115]
  else [Z.of_nat n].

Fixpoint casefold (s : string) : list Z :=
  match s with
  | EmptyString => []
  | String c s' => casefold_char c ++ casefold s'
  end.

(** [s.split(sep)] for a one-character separator. *)
Fixpoint split (sep : ascii) (s : string) : list string :=
  match s with
  | EmptyString => [EmptyString]
  | String c s' =>
      if Ascii.eqb c sep then EmptyString :: split sep s'
      else match split sep s' with
           | [] => [String c EmptyString]
           | w :: ws => String c w :: ws
           end
  end.

Definition startswith (p s : string) : bool := String.prefix p s.

Definition endswith (p s : string) : bool :=
  String.prefix (String.rev p) (String.rev s).

(** binary64 arithmetic.  [x % n] on floats is C's [fmod], which is exact;
    it is computed here on the exact mantissa/exponent decomposition of a
    non-negative finite [x] for a positive integral [n] (the only use in
    the code).  [int(x)] truncates towards zero. *)
Definition float_of_int (n : Z) : float :=
  PrimFloat.of_uint63 (Uint63.of_Z n).

Definition float_mod (x : float) (n : positive) : float :=
  match Prim2SF x with
  | S754_zero _ => x
  | S754_finite false m e =>
      let num :=
        if 0 <=? e then (Z.pos m * 2 ^ e) mod Z.pos n
        else Z.pos m mod (Z.pos n * 2 ^ (- e)) in
      match num with
      | Z.pos p => SF2Prim (S754_finite false p (Z.min e 0))
      | _ => PrimFloat.zero
      end
  | _ => PrimFloat.nan
  end.

Definition int_of_float (x : float) : Z :=
  match Prim2SF x with
  | S754_finite s m e =>
      let a := if 0 <=? e then Z.pos m * 2 ^ e else Z.pos m / 2 ^ (- e) in
      if s then - a else a
  | _ => 0
  end.

(** The loop that keeps a value only when it is not in the set [seen] of
    values met so far: the distinct values, in order of first occurrence. *)
Fixpoint dedup `{Countable A} (seen : gset A) (l : list A) : list A :=
  match l with
  | [] => []
  | x :: l' =>
      if bool_decide (x ∈ seen) then dedup seen l'
      else x :: dedup ({[ x ]} ∪ seen) l'
  end.

(** [str(n)] for an integer. *)
Definition str_of_int (n : Z) : string := pretty n.

(** The slice [s[:k]]: a negative [k] counts from the end, and the bound
    is clamped to the length. *)
Definition slice_to (k : Z) (s : string) : string :=
  let len := Z.of_nat (String.length s) in
  let stop := if k <? 0 then Z.max 0 (len + k) else Z.min k len in
  String.substring 0 (Z.to_nat stop) s.

End Py.

(* ===================================================================== *)
(** ** timeline_core.py *)
(* ===================================================================== *)

Module Core.

(** One day, in microseconds ([timedelta(days=1)]). *)
Definition DAY : Z := 86400000000.

(** [datetime.max] = 9999-12-31T23:59:59.999999. *)
Definition DATETIME_MAX : Z := 3652059 * DAY - 1.

Definition REQUIRED_COLUMNS : list string :=
  [ "Datum"; "Starttijd"; "Eindtijd"; "Zekerheid (ja/nee)";
    "Entiteit(en) (splits op met |)"; "Gebeurtenis"; "Geverifieerd" ]%string.

Record TimelineEvent := mkEvent {
  event_id : Z;
  description : string;
  entities : list string;
  date_label : string;
  time_label : string;
  start_dt : option Z;
  end_dt : option Z;
  certain : bool;
  verified : bool;
  sources : list string
}.

(** A spreadsheet cell holding text; [None] is pandas' NaN / missing. *)
Definition text_cell := option string.

(** The "Datum" cell after [pd.to_datetime(..., errors="coerce")] and
    [normalize()]: the day number counted from 0001-01-01, or [None]
    when the cell is missing or not a date (NaT). *)
Definition date_cell := option Z.

(** A time-of-day cell as [parse_date_time] sees it: missing (NaN), a
    value from which a clock time is obtained (microseconds after
    midnight), or a value pandas cannot read as a time. *)
Inductive time_cell :=
| TimeNaN
| TimeOfDay (us : Z)
| TimeUnreadable.

Record Row := mkRow {
  Datum : date_cell;
  Starttijd : time_cell;
  Eindtijd : time_cell;
  Zekerheid : text_cell;
  Entiteiten : text_cell;
  Gebeurtenis : text_cell;
  Geverifieerd : text_cell;
  Bron : text_cell
}.

Record DataFrame := mkDataFrame {
  columns : list string;
  rows : list Row
}.

Definition normalize_bool (value : text_cell) : bool :=
  match value with
  | None => false
  | Some v => String.eqb (Py.lower (Py.strip v)) "ja"
  end.

Definition parse_date_time (date_value : date_cell) (time_value : time_cell)
  : option Z :=
  match date_value with
  | None => None
  | Some d =>
      let date_ts := d * DAY in
      match time_value with
      | TimeNaN => Some date_ts
      | TimeOfDay t => Some (date_ts + t)
      | TimeUnreadable => Some date_ts
      end
  end.

Definition normalize_end_dt (start_dt end_dt : option Z) : option Z :=
  match start_dt, end_dt with
  | Some s, Some e => if e <? s then Some (e + DAY) else Some e
  | _, _ => end_dt
  end.

Definition split_entities (value : text_cell) : list string :=
  match value with
  | None => ["Onbekend"%string]
  | Some v =>
      let entities :=
        List.filter (fun item => negb (String.eqb item ""))
          (map Py.strip (Py.split "|"%char v)) in
      match entities with
      | [] => ["Onbekend"%string]
      | _ => entities
      end
  end.

Definition is_range (event : TimelineEvent) : bool :=
  match start_dt event, end_dt event with
  | Some s, Some e => negb (e =? s)
  | _, _ => false
  end.

Definition overlaps (a_start a_end b_start b_end : Z) : bool :=
  (a_start <=? b_end) && (b_start <=? a_end).

Definition effective_end_dt (event : TimelineEvent) : Z :=
  match start_dt event with
  | None => DATETIME_MAX
  | Some s =>
      match end_dt event with
      | None => s
      | Some e => e
      end
  end.

(** [sort_key] of [sorted_events]:
    [(start is None, start or datetime.max, is_instant, event_id)]. *)
Definition sort_key (event : TimelineEvent) : list Z :=
  let is_instant := negb (is_range event) in
  [ Py.of_bool (bool_decide (start_dt event = None));
    default DATETIME_MAX (start_dt event);
    Py.of_bool is_instant;
    event_id event ].

Definition sorted_events (events : list TimelineEvent) : list TimelineEvent :=
  Py.sorted sort_key events.

Definition estimate_card_width (text : string) (is_range_event : bool) : Z :=
  let base_width := 140 + Z.of_nat (String.length text) * 5 in
  let min_width := 180 in
  let max_width := 320 in
  let width := Z.max min_width (Z.min base_width max_width) in
  if negb is_range_event then width else Z.max width min_width.

(** The names in case-insensitive order, each kept at its first
    occurrence (the [seen] loop of [build_entity_colors]). *)
Definition ordered (entities : list string) : list string :=
  Py.dedup ∅ (Py.sorted (fun s => Py.casefold s) entities).

(** 24.0 and 137.508 as binary64 values (137.508 is read as the nearest
    double, 0x1.1304189374bc7p+7). *)
Definition base_hue : float := 24%float.
Definition golden_angle : float := 0x1.1304189374bc7p+7%float.

Definition hue_of_index (index : nat) : Z :=
  Py.int_of_float
    (Py.float_mod
       (PrimFloat.add base_hue
          (PrimFloat.mul (Py.float_of_int (Z.of_nat index)) golden_angle))
       360).

Definition color_of_index (index : nat) : string :=
  ("hsl(" +:+ Py.str_of_int (hue_of_index index) +:+ ", 60%, 68%)")%string.

Definition build_entity_colors (entities : list string) : gmap string string :=
  foldl (fun colors '(index, entity) => <[ entity := color_of_index index ]> colors)
    ∅ (imap (fun index entity => (index, entity)) (ordered entities)).

(** [dict[str, list[TimelineEvent]]] in insertion order. *)
Definition entity_dict := list (string * list TimelineEvent).

Fixpoint dict_get {V} (k : string) (d : list (string * V)) : option V :=
  match d with
  | [] => None
  | (k', v) :: d' => if String.eqb k k' then Some v else dict_get k d'
  end.

(** [d.setdefault(entity, []).append(event)]. *)
Fixpoint setdefault_append (entity : string) (event : TimelineEvent)
    (d : entity_dict) : entity_dict :=
  match d with
  | [] => [(entity, [event])]
  | (k, l) :: d' =>
      if String.eqb entity k then (k, l ++ [event]) :: d'
      else (k, l) :: setdefault_append entity event d'
  end.

Definition group_events_by_entity (events : list TimelineEvent) : entity_dict :=
  foldl (fun d event =>
           foldl (fun d entity => setdefault_append entity event d)
             d (entities event))
    [] events.

Section Ingestion.
(** Library functions taken as parameters: [datetime.strftime] and the
    one-line [csv.reader] call with the pipe as delimiter ([None] when
    it raises). *)
Variable strftime : string -> Z -> string.
Variable csv_reader : string -> option (list string).

Definition format_date_label (date_value : date_cell) : string :=
  match date_value with
  | None => "Onbekende datum"
  | Some d => strftime "%Y-%m-%d" (d * DAY)
  end.

Definition format_time_label (start_dt end_dt : option Z) : string :=
  match start_dt with
  | None => "Onbekende tijd"
  | Some s =>
      let start_time := strftime "%H:%M" s in
      match end_dt with
      | None => start_time
      | Some e =>
          if e =? s then start_time
          else (start_time +:+ " - " +:+ strftime "%H:%M" e)%string
      end
  end.

Definition unquote (item : string) : string :=
  if (2 <=? String.length item)%nat
     && Py.startswith (String DoubleQuote EmptyString) item
     && Py.endswith (String DoubleQuote EmptyString) item
  then Py.strip (String.substring 1 (String.length item - 2) item)
  else item.

Definition split_sources (value : text_cell) : list string :=
  match value with
  | None => []
  | Some v =>
      let raw := Py.strip v in
      if String.eqb raw "" then []
      else
        let parts :=
          match csv_reader raw with
          | Some parts => parts
          | None => Py.split "|"%char raw
          end in
        List.filter (fun item => negb (String.eqb item ""))
          (map (fun part => unquote (Py.strip part)) parts)
  end.

Definition missing_columns (df : DataFrame) : list string :=
  List.filter (fun c => negb (bool_decide (c ∈ columns df))) REQUIRED_COLUMNS.

(** The body of the ingestion loop for the row of index [idx]. *)
Definition event_of_row (has_bron : bool) (idx : nat) (row : Row)
  : TimelineEvent :=
  let start_dt := parse_date_time (Datum row) (Starttijd row) in
  let end_dt :=
    match Eindtijd row with
    | TimeNaN => None
    | cell => parse_date_time (Datum row) cell
    end in
  let end_dt := normalize_end_dt start_dt end_dt in
  let description := default EmptyString (Gebeurtenis row) in
  {| event_id := Z.of_nat idx;
     description := description;
     entities := split_entities (Entiteiten row);
     date_label := format_date_label (Datum row);
     time_label := format_time_label start_dt end_dt;
     start_dt := start_dt;
     end_dt := match start_dt, end_dt with
               | Some _, Some _ => end_dt
               | _, _ => None
               end;
     certain := normalize_bool (Zekerheid row);
     verified := normalize_bool (Geverifieerd row);
     sources := if has_bron then split_sources (Bron row) else [] |}.

(** [read_events_from_excel], from the data frame on; [inl] carries the
    columns named by the [ValueError]. *)
Definition read_events_from_excel (df : DataFrame)
  : list string + list TimelineEvent :=
  match missing_columns df with
  | [] =>
      inr (imap (event_of_row (bool_decide ("Bron"%string ∈ columns df)))
             (rows df))
  | missing => inl missing
  end.
End Ingestion.

Definition truncate (text : string) (n : Z) : string :=
  let text := Py.strip text in
  if Z.of_nat (String.length text) <=? n then text
  else (Py.slice_to (n - 1) text +:+ "...")%string.

Definition is_web_link (source : string) : bool :=
  let lower := Py.lower (Py.strip source) in
  Py.startswith "http://" lower || Py.startswith "https://" lower
  || Py.startswith "www." lower.

Definition normalize_href (source : string) : string :=
  let s := Py.strip source in
  if Py.startswith "www." (Py.lower s) then ("https://" +:+ s)%string else s.

End Core.

(* ===================================================================== *)
(** ** timeline_horizontal.py: the layout of [generate_horizontal_timeline] *)
(* ===================================================================== *)

Module Horizontal.
Import Core.

Definition gap : Z := 24.

(** The two [ValueError]s of the run. *)
Inductive ValueError :=
| Missing_columns (missing : list string)
| No_timed_events.

(** The dictionaries placed in the subrows. *)
Record Card := mkCard {
  card_event : TimelineEvent;
  card_x : Z;
  card_width : Z;
  card_is_range : bool;
  card_end_dt : option Z
}.

Definition has_start (e : TimelineEvent) : bool :=
  match start_dt e with Some _ => true | None => false end.

(** Key of the global sort, [(e.start_dt, e.end_dt is None, e.event_id)];
    it is only applied to events that passed the [start_dt is not None]
    filter. *)
Definition slot_key (e : TimelineEvent) : list Z :=
  [ default 0 (start_dt e);
    Py.of_bool (bool_decide (end_dt e = None));
    event_id e ].

Definition timed_events (events : list TimelineEvent) : list TimelineEvent :=
  Py.sorted slot_key (List.filter has_start events).

Definition assign_slots (event_at_slot : list TimelineEvent) : gmap Z nat :=
  foldl (fun slot_of '(s, e) => <[ event_id e := s ]> slot_of)
    ∅ (imap (fun s e => (s, e)) event_at_slot).

Definition card_text (e : TimelineEvent) : string :=
  (date_label e +:+ " " +:+ time_label e +:+ " " +:+ description e)%string.

Definition slot_widths (event_at_slot : list TimelineEvent) : list Z :=
  map (fun e => estimate_card_width (card_text e) (is_range e)) event_at_slot.

(** The packing loop: [x_start[i] = x; x += slot_width[i] + gap]. *)
Fixpoint pack (x : Z) (slot_width : list Z) : list Z :=
  match slot_width with
  | [] => []
  | w :: ws => x :: pack (x + w + gap) ws
  end.

(** The inner scan for one range [r]: the furthest slot whose event starts
    within [[r.start_dt, r.end_dt]].  [span_step] is the body of the scan. *)
Definition span_step (slot_of : gmap Z nat) (r : TimelineEvent)
    (max_slot : nat) (e : TimelineEvent) : nat :=
  match start_dt r, end_dt r, start_dt e with
  | Some r_start, Some r_end, Some e_start =>
      if (r_start <=? e_start) && (e_start <=? r_end)
      then Nat.max max_slot (slot_of !!! event_id e)
      else max_slot
  | _, _, _ => max_slot
  end.

Definition span_slot (slot_of : gmap Z nat)
    (event_at_slot : list TimelineEvent) (r : TimelineEvent) : nat :=
  foldl (span_step slot_of r) (slot_of !!! event_id r) event_at_slot.

Definition range_max_slots (slot_of : gmap Z nat)
    (event_at_slot : list TimelineEvent) : gmap Z nat :=
  foldl (fun m r => <[ event_id r := span_slot slot_of event_at_slot r ]> m)
    ∅ (List.filter is_range event_at_slot).

(** Final width of the event [e]. *)
Definition final_width (slot_of range_max_slot : gmap Z nat)
    (x_start slot_width : list Z) (e : TimelineEvent) : Z :=
  let s := slot_of !!! event_id e in
  let w := slot_width !!! s in
  if is_range e then
    let last_slot := range_max_slot !!! event_id e in
    let right_edge := x_start !!! last_slot + slot_width !!! last_slot in
    Z.max w (right_edge - x_start !!! s)
  else w.

Definition final_x (slot_of : gmap Z nat) (x_start : list Z)
    (event_at_slot : list TimelineEvent) : gmap Z Z :=
  foldl (fun event_x e =>
           <[ event_id e := x_start !!! (slot_of !!! event_id e) ]> event_x)
    ∅ event_at_slot.

Definition final_w (slot_of range_max_slot : gmap Z nat)
    (x_start slot_width : list Z)
    (event_at_slot : list TimelineEvent) : gmap Z Z :=
  foldl (fun event_w e =>
           <[ event_id e :=
                final_width slot_of range_max_slot x_start slot_width e ]>
             event_w)
    ∅ event_at_slot.

(** [a or b] on optional instants (a [datetime] is always truthy). *)
Definition or_else (a b : option Z) : option Z :=
  match a with Some _ => a | None => b end.

Definition make_card (event_x event_w : gmap Z Z) (event : TimelineEvent)
  : Card :=
  let is_range_event := is_range event in
  {| card_event := event;
     card_x := default 0 (event_x !! event_id event);
     card_width :=
       default (estimate_card_width (card_text event) is_range_event)
         (event_w !! event_id event);
     card_is_range := is_range_event;
     card_end_dt := or_else (end_dt event) (start_dt event) |}.

(** The guard of the placement loop: [true] when the loop [continue]s
    past [subrow], i.e. the event overlaps its last card. *)
Definition blocked (event : TimelineEvent) (subrow : list Card) : bool :=
  match last subrow with
  | Some last_card =>
      match start_dt event, start_dt (card_event last_card) with
      | Some this_start, Some last_start =>
          let last_end := default last_start (card_end_dt last_card) in
          let this_end := default this_start (end_dt event) in
          overlaps this_start this_end last_start last_end
      | _, _ => false
      end
  | None => false
  end.

(** First fit: append to the first subrow that is not blocked, else open
    a new subrow at the end. *)
Fixpoint place (card : Card) (subrows : list (list Card)) : list (list Card) :=
  match subrows with
  | [] => [[card]]
  | subrow :: rest =>
      if blocked (card_event card) subrow then subrow :: place card rest
      else (subrow ++ [card]) :: rest
  end.

(** The body of the per-entity loop: events without a start are skipped. *)
Definition stack_step (event_x event_w : gmap Z Z)
    (subrows : list (list Card)) (event : TimelineEvent) : list (list Card) :=
  match start_dt event with
  | None => subrows
  | Some _ => place (make_card event_x event_w event) subrows
  end.

Definition stack (event_x event_w : gmap Z Z)
    (entity_list : list TimelineEvent) : list (list Card) :=
  foldl (stack_step event_x event_w) [] (sorted_events entity_list).

(** One entity lane: stacking, then each subrow ordered by x. *)
Definition lane (event_x event_w : gmap Z Z)
    (entity_list : list TimelineEvent) : list (list Card) :=
  map (Py.sorted (fun item => [card_x item])) (stack event_x event_w entity_list).

Record Layout := mkLayout {
  slot_of : gmap Z nat;
  event_at_slot : list TimelineEvent;
  slot_width : list Z;
  x_start : list Z;
  range_max_slot : gmap Z nat;
  event_x : gmap Z Z;
  event_w : gmap Z Z;
  max_width : Z;
  layout : list (string * list (list Card))
}.

(** The layout computed from the normalised events (steps 2 and 3 of
    [generate_horizontal_timeline]). *)
Definition horizontal_layout (events : list TimelineEvent)
  : ValueError + Layout :=
  let entity_events := group_events_by_entity events in
  let timed := timed_events events in
  match timed with
  | [] => inl No_timed_events
  | _ =>
      let slot_of := assign_slots timed in
      let event_at_slot := timed in
      let slot_width := slot_widths event_at_slot in
      let x_start := pack 0 slot_width in
      let range_max_slot := range_max_slots slot_of event_at_slot in
      let event_x := final_x slot_of x_start event_at_slot in
      let event_w :=
        final_w slot_of range_max_slot x_start slot_width event_at_slot in
      inr {| slot_of := slot_of;
             event_at_slot := event_at_slot;
             slot_width := slot_width;
             x_start := x_start;
             range_max_slot := range_max_slot;
             event_x := event_x;
             event_w := event_w;
             max_width := default 0 (last x_start) + default 0 (last slot_width);
             layout := map (fun '(entity, entity_list) =>
                              (entity, lane event_x event_w entity_list))
                         entity_events |}
  end.

(** [all_entities] and [entity_colors] of the run. *)
Definition entity_colors (events : list TimelineEvent) : gmap string string :=
  build_entity_colors
    (Py.sorted (fun s => Py.codes (Py.lower s))
       (map fst (group_events_by_entity events))).

Section Run.
Variable strftime : string -> Z -> string.
Variable csv_reader : string -> option (list string).

Definition generate_horizontal_timeline (df : DataFrame)
  : ValueError + Layout :=
  match read_events_from_excel strftime csv_reader df with
  | inl missing => inl (Missing_columns missing)
  | inr events => horizontal_layout events
  end.
End Run.

End Horizontal.

(* ===================================================================== *)
(** ** timeline_vertical.py: payload construction and the emitted [layout] *)
(* ===================================================================== *)

Module Vertical.

(** The fields of a payload event that [layout] reads.  The millisecond
    stamps are integers far below 2^53, so the JavaScript numbers that
    hold them, and the sums of pixel sizes, are exact. *)
Record Ev := mkEv {
  id : string;
  start_ms : Z;
  end_ms : Z;
  is_range : bool
}.

(** 1970-01-01T00:00:00 in microseconds since 0001-01-01. *)
Definition EPOCH : Z := 719162 * Core.DAY.

(** [int(pd.Timestamp(dt).value // 1_000_000)]. *)
Definition to_ms (dt : Z) : Z := (dt - EPOCH) / 1000.

Section Payload.
Variable strftime : string -> Z -> string.

(** The ingestion loop of [generate_vertical_timeline]; unlike
    [Core.event_of_row] it stores the parsed end as it is. *)
Definition base_event (idx : nat) (row : Core.Row) : Core.TimelineEvent :=
  let start_dt := Core.parse_date_time (Core.Datum row) (Core.Starttijd row) in
  let end_dt :=
    match Core.Eindtijd row with
    | Core.TimeNaN => None
    | cell => Core.parse_date_time (Core.Datum row) cell
    end in
  {| Core.event_id := Z.of_nat idx;
     Core.description := default EmptyString (Core.Gebeurtenis row);
     Core.entities := Core.split_entities (Core.Entiteiten row);
     Core.date_label := Core.format_date_label strftime (Core.Datum row);
     Core.time_label := Core.format_time_label strftime start_dt end_dt;
     Core.start_dt := start_dt;
     Core.end_dt := match start_dt, end_dt with
                    | Some _, Some _ => end_dt
                    | _, _ => None
                    end;
     Core.certain := Core.normalize_bool (Core.Zekerheid row);
     Core.verified := Core.normalize_bool (Core.Geverifieerd row);
     Core.sources := [] |}.

Definition payload_event (e : Core.TimelineEvent) : option Ev :=
  match Core.start_dt e with
  | None => None
  | Some s =>
      Some {| id := Py.str_of_int (Core.event_id e);
              start_ms := to_ms s;
              end_ms := match Core.end_dt e with
                        | Some en => to_ms en
                        | None => to_ms s
                        end;
              is_range := Core.is_range e |}
  end.

Definition events_payload (rows : list Core.Row) : list Ev :=
  omap payload_event (imap base_event rows).
End Payload.

(** [cfg], read from the style sheet's custom properties. *)
Record Cfg := mkCfg {
  rowH : Z;
  rowGap : Z;
  gapX : Z;
  wrapColW : Z;
  subcolW : Z;
  maxSubcols : Z
}.

(** The values the generated style sheet declares. *)
Definition default_cfg : Cfg :=
  {| rowH := 98; rowGap := 12; gapX := 20; wrapColW := 240;
     subcolW := 340; maxSubcols := 4 |}.

Definition headerH : Z := 34.
Definition itemH : Z := 76.
Definition itemGap : Z := 10.
Definition padH : Z := 20.

Inductive Positioned :=
| PRange (ev : Ev) (x y w h : Z)
| PStack (start : Z) (items : list Ev) (x y w h : Z).

(** Comparator of [rangesSorted]. *)
Definition cmp_range (a b : Ev) : Z :=
  if negb (start_ms a =? start_ms b) then start_ms a - start_ms b
  else end_ms a - end_ms b.

Definition ranges_sorted (ranges : list Ev) : list Ev :=
  Py.js_sort cmp_range ranges.

(** The scan [for (i ...) if (r.start_ms > colEnd[i]) { col = i; break; }]. *)
Fixpoint first_free (r_start : Z) (colEnd : list Z) : option nat :=
  match colEnd with
  | [] => None
  | c :: cs => if c <? r_start then Some 0%nat else S <$> first_free r_start cs
  end.

(** One iteration of the colouring loop; the state is [colEnd] together
    with the [_wrapCol] values given so far. *)
Definition assign_step (st : list Z * list (Ev * nat)) (r : Ev)
  : list Z * list (Ev * nat) :=
  let '(colEnd, wrapCol) := st in
  match first_free (start_ms r) colEnd with
  | None => (colEnd ++ [end_ms r], wrapCol ++ [(r, length colEnd)])
  | Some col =>
      (<[ col := Z.max (colEnd !!! col) (end_ms r) ]> colEnd,
       wrapCol ++ [(r, col)])
  end.

Definition assign_columns (ranges : list Ev) : list Z * list (Ev * nat) :=
  foldl assign_step ([], []) (ranges_sorted ranges).

(** [colEnd.length] after the loop: the number of wrapper columns. *)
Definition column_count (ranges : list Ev) : nat :=
  length (fst (assign_columns ranges)).

Definition slot_index (uniqueStarts : list Z) : gmap Z nat :=
  foldl (fun m '(idx, s) => <[ s := idx ]> m)
    ∅ (imap (fun idx s => (idx, s)) uniqueStarts).

(** The cumulative loop building [yStart] and [yEnd]. *)
Fixpoint y_extents (rowGap yCursor : Z) (slotH : list Z) : list (Z * Z) :=
  match slotH with
  | [] => []
  | h :: hs => (yCursor, yCursor + h) :: y_extents rowGap (yCursor + h + rowGap) hs
  end.

Section Layout.
Variable localeCompare : string -> string -> Z.
Variable cfg : Cfg.

Definition cmp_event (a b : Ev) : Z :=
  if negb (start_ms a =? start_ms b) then start_ms a - start_ms b
  else if negb (Bool.eqb (is_range a) (is_range b))
       then (if is_range a then -1 else 1)
       else localeCompare (id a) (id b).

Definition sort_events (events : list Ev) : list Ev :=
  Py.js_sort cmp_event events.

Definition unique_starts (evs : list Ev) : list Z :=
  Py.js_sort (fun a b => a - b) (Py.dedup ∅ (map start_ms evs)).

Definition max_slot (slotOfId : gmap Z nat) (evs : list Ev) (r : Ev) : nat :=
  foldl (fun maxSlot e =>
           if (r.(start_ms) <=? e.(start_ms)) && (e.(start_ms) <=? r.(end_ms))
           then (if (maxSlot <? slotOfId !!! start_ms e)%nat
                 then slotOfId !!! start_ms e else maxSlot)
           else maxSlot)
    (slotOfId !!! start_ms r) evs.

(** [normalByStart.get(start) || []], already in its final order. *)
Definition normal_by_start (evs : list Ev) (start : Z) : list Ev :=
  Py.js_sort (fun a b => localeCompare (id a) (id b))
    (List.filter (fun e => negb (is_range e) && (start_ms e =? start)) evs).

Definition stack_height (n : nat) : Z :=
  headerH + padH + Z.of_nat n * itemH + (Z.of_nat n - 1) * itemGap.

Definition slot_heights (evs : list Ev) (slotStarts : list Z) : list Z :=
  map (fun start =>
         let n := length (normal_by_start evs start) in
         if (0 <? n)%nat then Z.max (rowH cfg) (stack_height n)
         else rowH cfg)
    slotStarts.

(** [r._wrapCol || 0]: the column recorded for the range [r]; the payload
    ids are the distinct row numbers, so the id identifies the object. *)
Definition wrap_col (wrapCol : list (Ev * nat)) (r : Ev) : nat :=
  default 0%nat
    (snd <$> List.find (fun p => String.eqb (id (fst p)) (id r)) wrapCol).

Record Result := mkResult {
  positioned : list Positioned;
  totalH : Z;
  wrapArea : Z;
  slotStarts_of : list Z;
  slotH_of : list Z;
  colEnd_of : list Z
}.

(** The wrapper card of the range [r]. *)
Definition range_card (evs : list Ev) (slotOfId : gmap Z nat)
    (yStart yEnd : list Z) (wrapCol : list (Ev * nat)) (r : Ev) : Positioned :=
  let y0 := yStart !!! (slotOfId !!! start_ms r) in
  let y1 := yEnd !!! max_slot slotOfId evs r in
  PRange r
    (Z.of_nat (wrap_col wrapCol r) * (wrapColW cfg + gapX cfg))
    y0 (wrapColW cfg) (Z.max (rowH cfg) (y1 - y0)).

(** The stacked card of the instant [start], if point events occupy it. *)
Definition stack_card (evs : list Ev) (slotOfId : gmap Z nat)
    (yStart slotH : list Z) (wrapArea : Z) (start : Z) : option Positioned :=
  match normal_by_start evs start with
  | [] => None
  | arr =>
      let slot := slotOfId !!! start in
      Some (PStack start arr
              (wrapArea + gapX cfg)
              (yStart !!! slot)
              (subcolW cfg * maxSubcols cfg + gapX cfg * (maxSubcols cfg - 1))
              (slotH !!! slot))
  end.

Definition wrap_area (colEnd : list Z) : Z :=
  let wrapCols := Z.max 1 (Z.of_nat (length colEnd)) in
  wrapCols * wrapColW cfg + (wrapCols - 1) * gapX cfg.

Definition layout (events : list Ev) : Result :=
  let evs := sort_events events in
  let uniqueStarts := unique_starts evs in
  let slotOfId := slot_index uniqueStarts in
  let ranges := List.filter is_range evs in
  let colEnd := fst (assign_columns ranges) in
  let wrapCol := snd (assign_columns ranges) in
  let wrapArea := wrap_area colEnd in
  let slotStarts := uniqueStarts in
  let slotH := slot_heights evs slotStarts in
  let ys := y_extents (rowGap cfg) 0 slotH in
  let yStart := map fst ys in
  let yEnd := map snd ys in
  {| positioned :=
       map (range_card evs slotOfId yStart yEnd wrapCol) ranges
       ++ omap (stack_card evs slotOfId yStart slotH wrapArea) slotStarts;
     totalH := match last yEnd with Some y => y + 40 | None => 400 end;
     wrapArea := wrapArea;
     slotStarts_of := slotStarts;
     slotH_of := slotH;
     colEnd_of := colEnd |}.
End Layout.

(** [_entity_color]: the hue is a rolling hash of the code points of the
    name. *)
Definition entity_hue (entity : string) : Z :=
  foldl (fun h ch => (h * 31 + ch) mod 360) 0 (Py.codes entity).

Definition entity_color (entity : string) : string :=
  ("hsl(" +:+ Py.str_of_int (entity_hue entity) +:+ ", 55%, 72%)")%string.

End Vertical.

(* ===================================================================== *)
(** ** Vocabulary of the specification *)
(* ===================================================================== *)

Module Spec.
Import Core.

(** The two instants the ingestion loop parses for a row, before
    [normalize_end_dt] is applied. *)
Definition parsed_start (row : Row) : option Z :=
  parse_date_time (Datum row) (Starttijd row).

Definition parsed_end (row : Row) : option Z :=
  match Eindtijd row with
  | TimeNaN => None
  | cell => parse_date_time (Datum row) cell
  end.

(** A clock time lies within its day; pandas timestamps (and so the dates
    that survive [errors="coerce"]) lie between 1677-09-21 and
    2262-04-11. *)
Definition clock_ok (c : time_cell) : Prop :=
  match c with
  | TimeOfDay t => 0 <= t < DAY
  | _ => True
  end.

Definition date_ok (d : date_cell) : Prop :=
  match d with
  | Some n => 612410 <= n <= 825913
  | None => True
  end.

Definition row_ok (row : Row) : Prop :=
  date_ok (Datum row) /\ clock_ok (Starttijd row) /\ clock_ok (Eindtijd row).

(** effectiveEnd as section 3 of the specification words it: the end if
    present, else the start. *)
Definition effectiveEnd (e : TimelineEvent) : option Z :=
  match end_dt e with
  | Some en => Some en
  | None => start_dt e
  end.

(** The invariant normalisation establishes: a stored end never precedes
    the start. *)
Definition ordered_event (e : TimelineEvent) : Prop :=
  forall s en, start_dt e = Some s -> end_dt e = Some en -> s <= en.

(** Events are identified by their id. *)
Definition unique_ids (events : list TimelineEvent) : Prop :=
  NoDup (map event_id events).

(** *** Horizontal layout *)

(** The far edge of an event whose geometry is recorded in [L]. *)
Definition far_edge (L : Horizontal.Layout) (e : TimelineEvent) : option Z :=
  match Horizontal.event_x L !! event_id e, Horizontal.event_w L !! event_id e with
  | Some x, Some w => Some (x + w)
  | _, _ => None
  end.

(** The width the text estimate gives an event. *)
Definition estimated_width (e : TimelineEvent) : Z :=
  estimate_card_width (Horizontal.card_text e) (is_range e).

(** [e] starts within the closed interval of the range [r]. *)
Definition starts_within (r e : TimelineEvent) : Prop :=
  exists rs re es, start_dt r = Some rs /\ end_dt r = Some re
                   /\ start_dt e = Some es /\ rs <= es <= re.

(** [e] also ends within it. *)
Definition ends_within (r e : TimelineEvent) : Prop :=
  exists re, end_dt r = Some re /\ effective_end_dt e <= re.

(** Range coverage, with [covered r e] selecting the pairs it speaks of. *)
Definition range_coverage (covered : TimelineEvent -> TimelineEvent -> Prop)
  : Prop :=
  forall events L r e,
    unique_ids events -> Horizontal.horizontal_layout events = inr L ->
    r ∈ events -> e ∈ events -> is_range r = true -> covered r e ->
    exists fr fe, far_edge L r = Some fr /\ far_edge L e = Some fe /\ fe <= fr.

(** The key the specification names for packing monotonicity:
    (start, range before point, id). *)
Definition range_first_key (e : TimelineEvent) : list Z :=
  [ default 0 (start_dt e); Py.of_bool (negb (is_range e)); event_id e ].

(** Slot indices increase strictly with [key] over the timed events. *)
Definition slots_follow (key : TimelineEvent -> list Z) : Prop :=
  forall events L e1 e2 s1 s2,
    unique_ids events -> Horizontal.horizontal_layout events = inr L ->
    e1 ∈ events -> e2 ∈ events ->
    Horizontal.slot_of L !! event_id e1 = Some s1 ->
    Horizontal.slot_of L !! event_id e2 = Some s2 ->
    Py.lex_ltb (key e1) (key e2) = true -> (s1 < s2)%nat.

(** Two placed cards do not overlap in time (section 3, closed intervals). *)
Definition disjoint_cards (a b : Horizontal.Card) : Prop :=
  exists sa sb,
    start_dt (Horizontal.card_event a) = Some sa
    /\ start_dt (Horizontal.card_event b) = Some sb
    /\ overlaps sa (effective_end_dt (Horizontal.card_event a))
         sb (effective_end_dt (Horizontal.card_event b)) = false.

(** No two cards at different positions of a subrow overlap. *)
Definition no_overlap (subrow : list Horizontal.Card) : Prop :=
  forall i j a b, i <> j -> subrow !! i = Some a -> subrow !! j = Some b ->
                  disjoint_cards a b.

(** The events grouped under [entity], in input order, one copy per
    occurrence of the name in an event's entity list. *)
Definition entity_events_of (entity : string) (events : list TimelineEvent)
  : list TimelineEvent :=
  concat (map (fun e => map (fun _ => e)
                          (List.filter (String.eqb entity) (entities e)))
            events).

(** What a lookup returns after [more] values were appended to a key that
    held [o]. *)
Definition extend {A} (o : option (list A)) (more : list A) : option (list A) :=
  match more with
  | [] => o
  | _ => Some (default [] o ++ more)
  end.

(** Invariants of the first-fit loop.  [before a b]: the interval of [a]
    ends strictly before [b] starts.  [well_made c]: [c] is the card of a
    timed event whose end does not precede its start. *)
Definition before (a b : Horizontal.Card) : Prop :=
  exists sb, start_dt (Horizontal.card_event b) = Some sb
             /\ effective_end_dt (Horizontal.card_event a) < sb.

Definition well_made (c : Horizontal.Card) : Prop :=
  exists s, start_dt (Horizontal.card_event c) = Some s
            /\ s <= effective_end_dt (Horizontal.card_event c)
            /\ Horizontal.card_end_dt c
               = Some (effective_end_dt (Horizontal.card_event c)).

Definition good_subrow (subrow : list Horizontal.Card) : Prop :=
  StronglySorted before subrow /\ Forall well_made subrow.

(** Every card placed so far starts no later than [t]. *)
Definition started_by (t : Z) (subrows : list (list Horizontal.Card)) : Prop :=
  forall subrow c s, subrow ∈ subrows -> c ∈ subrow ->
                     start_dt (Horizontal.card_event c) = Some s -> s <= t.

(** *** Entity colours *)

(** The sort key of [build_entity_colors]. *)
Definition casefold_key (s : string) : list Z := Py.casefold s.

(** Colour stability as the specification words it: the colours depend
    only on the set of entity names. *)
Definition colors_depend_on_set_only : Prop :=
  forall l1 l2 : list string,
    (forall x, x ∈ l1 <-> x ∈ l2) ->
    build_entity_colors l1 = build_entity_colors l2.

(** No two distinct names of [l] have the same case-folded form (they
    differ by case only, or as the sharp s differs from ss). *)
Definition case_distinct (l : list string) : Prop :=
  forall x y, x ∈ l -> y ∈ l -> Py.casefold x = Py.casefold y -> x = y.

(** (24 + index * 137.508) mod 360 in exact arithmetic, in thousandths of
    a degree, and its integer part. *)
Definition exact_hue_milli (index : nat) : Z :=
  (24000 + Z.of_nat index * 137508) mod 360000.

Definition exact_hue (index : nat) : Z := exact_hue_milli index / 1000.

(** *** Vertical layout *)

(** The point (non-range) events of [events] that start at [start]. *)
Definition points_at (events : list Vertical.Ev) (start : Z) : list Vertical.Ev :=
  List.filter (fun e => negb (Vertical.is_range e) && (Vertical.start_ms e =? start))
    events.

Definition is_stack_at (start : Z) (p : Vertical.Positioned) : bool :=
  match p with
  | Vertical.PStack s _ _ _ _ _ => s =? start
  | Vertical.PRange _ _ _ _ _ => false
  end.

(** The ranges of [ranges] that are open at the instant [t], and their
    number. *)
Definition open_at (t : Z) (r : Vertical.Ev) : bool :=
  (Vertical.start_ms r <=? t) && (t <=? Vertical.end_ms r).

Definition depth (ranges : list Vertical.Ev) (t : Z) : nat :=
  length (List.filter (open_at t) ranges).

(** "The number of columns equals the maximum number of ranges open at one
    instant", over the sets of ranges that satisfy [admissible]. *)
Definition columns_are_max_depth (admissible : Vertical.Ev -> Prop) : Prop :=
  forall ranges,
    Forall admissible ranges ->
    (forall t, (depth ranges t <= Vertical.column_count ranges)%nat)
    /\ exists t, depth ranges t = Vertical.column_count ranges.

(** Invariants of the colouring loop.  [cols_sound]: every coloured range
    ends no later than the tracked end of its column; earlier ranges of a
    column end before later ones start; every tracked end is the end of a
    range of that column.  [cols_inv] adds that some instant sees at least
    as many open ranges as there are columns. *)
Definition cols_sound (colEnd : list Z) (wrapCol : list (Vertical.Ev * nat))
  : Prop :=
  (forall r c, (r, c) ∈ wrapCol ->
     exists v, colEnd !! c = Some v /\ Vertical.end_ms r <= v)
  /\ (forall p q r1 r2 c, (p < q)%nat ->
        wrapCol !! p = Some (r1, c) -> wrapCol !! q = Some (r2, c) ->
        Vertical.end_ms r1 < Vertical.start_ms r2)
  /\ (forall c v, colEnd !! c = Some v ->
        exists r, (r, c) ∈ wrapCol /\ Vertical.end_ms r = v).

Definition cols_inv (colEnd : list Z) (wrapCol : list (Vertical.Ev * nat))
  : Prop :=
  cols_sound colEnd wrapCol
  /\ exists t, (length colEnd <= depth (map fst wrapCol) t)%nat.

(** *** Vertical layout: the geometry of a positioned card *)

Definition pos_x (p : Vertical.Positioned) : Z :=
  match p with
  | Vertical.PRange _ x _ _ _ => x
  | Vertical.PStack _ _ x _ _ _ => x
  end.

Definition pos_y (p : Vertical.Positioned) : Z :=
  match p with
  | Vertical.PRange _ _ y _ _ => y
  | Vertical.PStack _ _ _ y _ _ => y
  end.

Definition pos_w (p : Vertical.Positioned) : Z :=
  match p with
  | Vertical.PRange _ _ _ w _ => w
  | Vertical.PStack _ _ _ _ w _ => w
  end.

Definition pos_h (p : Vertical.Positioned) : Z :=
  match p with
  | Vertical.PRange _ _ _ _ h => h
  | Vertical.PStack _ _ _ _ _ h => h
  end.

(** The instant a card is placed at: the start of its range, or the
    common start of its stacked events. *)
Definition pos_start (p : Vertical.Positioned) : Z :=
  match p with
  | Vertical.PRange ev _ _ _ _ => Vertical.start_ms ev
  | Vertical.PStack s _ _ _ _ _ => s
  end.

Definition is_stack (p : Vertical.Positioned) : bool :=
  match p with
  | Vertical.PRange _ _ _ _ _ => false
  | Vertical.PStack _ _ _ _ _ _ => true
  end.

(** The sizes read from the style sheet are lengths. *)
Definition cfg_ok (cfg : Vertical.Cfg) : Prop :=
  0 <= Vertical.rowH cfg /\ 0 <= Vertical.rowGap cfg
  /\ 0 <= Vertical.gapX cfg /\ 0 < Vertical.wrapColW cfg.

(** The intermediate values of [layout], under the names of the code. *)
Section LayoutValues.
Variable localeCompare : string -> string -> Z.
Variable cfg : Vertical.Cfg.
Variable events : list Vertical.Ev.

Definition slotStarts : list Z :=
  Vertical.unique_starts (Vertical.sort_events localeCompare events).

Definition slot_of (s : Z) : nat :=
  Vertical.slot_index slotStarts !!! s.

Definition slotH : list Z :=
  Vertical.slot_heights localeCompare cfg
    (Vertical.sort_events localeCompare events) slotStarts.

(** The pairs (yStart[i], yEnd[i]). *)
Definition extents : list (Z * Z) :=
  Vertical.y_extents (Vertical.rowGap cfg) 0 slotH.

Definition maxSlot (r : Vertical.Ev) : nat :=
  Vertical.max_slot (Vertical.slot_index slotStarts)
    (Vertical.sort_events localeCompare events) r.

Definition ranges_of : list Vertical.Ev :=
  List.filter Vertical.is_range (Vertical.sort_events localeCompare events).

Definition wrapCols : list (Vertical.Ev * nat) :=
  snd (Vertical.assign_columns ranges_of).

Definition colEnds : list Z :=
  fst (Vertical.assign_columns ranges_of).
End LayoutValues.

(** The instant a card ends at: the end of its range; stacked events end
    when they start. *)
Definition pos_end (p : Vertical.Positioned) : Z :=
  match p with
  | Vertical.PRange ev _ _ _ _ => Vertical.end_ms ev
  | Vertical.PStack s _ _ _ _ _ => s
  end.

(** *** Ingestion of the vertical timeline *)

(** A row whose date cell is readable. *)
Definition dated (row : Row) : bool :=
  match Datum row with
  | Some _ => true
  | None => false
  end.

(** A text without white space at either end. *)
Definition trimmed (s : string) : Prop := Py.strip s = s.

(** *** First fit *)

(** Two placed cards overlap in time (closed intervals). *)
Definition overlapping_cards (a b : Horizontal.Card) : Prop :=
  exists sa sb,
    start_dt (Horizontal.card_event a) = Some sa
    /\ start_dt (Horizontal.card_event b) = Some sb
    /\ overlaps sa (effective_end_dt (Horizontal.card_event a))
         sb (effective_end_dt (Horizontal.card_event b)) = true.

(** The card of an event with a start, as [make_card] builds it. *)
Definition timed_card (c : Horizontal.Card) : Prop :=
  exists s, start_dt (Horizontal.card_event c) = Some s
            /\ Horizontal.card_end_dt c
               = Some (effective_end_dt (Horizontal.card_event c)).

(** No subrow is opened needlessly: a card of a subrow overlaps some card
    of every subrow above it. *)
Definition tight (subrows : list (list Horizontal.Card)) : Prop :=
  forall j k upper lower c,
    (j < k)%nat -> subrows !! j = Some upper -> subrows !! k = Some lower ->
    c ∈ lower -> exists c', c' ∈ upper /\ overlapping_cards c c'.

End Spec.

(* ===================================================================== *)
(** ** Concrete inputs used by the examples *)
(* ===================================================================== *)

Module Examples.
Import Core.

(** An event built by hand: id, start, end, entities. *)
Definition ev (i : Z) (s e : option Z) (ents : list string) : TimelineEvent :=
  mkEvent i "x" ents "d" "t" s e false false [].

Definition undated_event : TimelineEvent :=
  mkEvent 7 "x" ["A"%string] "Onbekende datum" "Onbekende tijd"
    None None false false [].

(** A short range, a long range that starts inside it, and a point event
    inside the long range only. *)
Definition nested_ranges : list TimelineEvent :=
  [ ev 0 (Some 1) (Some 5) ["A"%string];
    ev 1 (Some 4) (Some 100) ["A"%string];
    ev 2 (Some 50) None ["A"%string] ].

(** An event whose end equals its start, and a range with the same start
    and a larger id. *)
Definition zero_length_first : list TimelineEvent :=
  [ ev 0 (Some 9) (Some 9) ["A"%string];
    ev 1 (Some 9) (Some 11) ["A"%string] ].

(** One undated event among dated ones. *)
Definition with_undated : list TimelineEvent :=
  [ undated_event; ev 1 (Some 9) (Some 11) ["A"%string];
    ev 2 (Some 9) None ["A"%string]; ev 3 (Some 12) None ["A"%string] ].

(** A sheet of three rows for one entity on one day: 09:00 without end,
    09:00 to 11:00, and 12:00 without end. *)
Definition hour : Z := 3600000000.

Definition sheet : DataFrame :=
  {| columns := REQUIRED_COLUMNS;
     rows :=
       [ mkRow (Some 738000) (TimeOfDay (9 * hour)) TimeNaN None
           (Some "X"%string) (Some "a"%string) None None;
         mkRow (Some 738000) (TimeOfDay (9 * hour)) (TimeOfDay (11 * hour)) None
           (Some "X"%string) (Some "b"%string) None None;
         mkRow (Some 738000) (TimeOfDay (12 * hour)) TimeNaN None
           (Some "X"%string) (Some "c"%string) None None ] |}.

(** The layout of a list of events ([empty_layout] stands for the error). *)
Definition empty_layout : Horizontal.Layout :=
  Horizontal.mkLayout ∅ [] [] [] ∅ ∅ ∅ 0 [].

Definition layout_of (events : list TimelineEvent) : Horizontal.Layout :=
  match Horizontal.horizontal_layout events with
  | inr L => L
  | inl _ => empty_layout
  end.

(** Stand-ins for the two library parameters. *)
Definition no_strftime (fmt : string) (dt : Z) : string := fmt.
Definition no_csv (raw : string) : option (list string) := None.

(** The run on [sheet], the lane of its entity and the first subrow. *)
Definition sheet_layout : Horizontal.Layout :=
  match Horizontal.generate_horizontal_timeline no_strftime no_csv sheet with
  | inr L => L
  | inl _ => empty_layout
  end.

Definition sheet_lane : list (list Horizontal.Card) :=
  default [] (dict_get "X" (Horizontal.layout sheet_layout)).

Definition sheet_subrow : list Horizontal.Card :=
  default [] (sheet_lane !! 0%nat).

(** [with_undated] in another row order. *)
Definition with_undated_reordered : list TimelineEvent :=
  [ ev 3 (Some 12) None ["A"%string]; ev 2 (Some 9) None ["A"%string];
    undated_event; ev 1 (Some 9) (Some 11) ["A"%string] ].

(** Two names that differ by case only, met in either order. *)
Definition alice_first : list string := ["Alice"; "alice"]%string.
Definition alice_last : list string := ["alice"; "Alice"]%string.

(** A range whose stored end precedes its start, and the row it comes
    from: start time 23:00, end time 01:00. *)
Definition inverted_range : Vertical.Ev :=
  Vertical.mkEv "0" 1600729200000 1600650000000 true.

Definition overnight_row : Row :=
  mkRow (Some 737688) (TimeOfDay (23 * hour)) (TimeOfDay (1 * hour)) None
    (Some "X"%string) (Some "night shift"%string) None None.

(** Three point events at one instant, and a range. *)
Definition three_at_once : list Vertical.Ev :=
  [ Vertical.mkEv "2" 1000 1000 false; Vertical.mkEv "0" 1000 1000 false;
    Vertical.mkEv "3" 500 2000 true; Vertical.mkEv "1" 1000 1000 false ].

(** Code-point comparison standing in for [localeCompare]. *)
Definition code_compare (a b : string) : Z :=
  if Py.lex_ltb (Py.codes a) (Py.codes b) then -1
  else if Py.lex_ltb (Py.codes b) (Py.codes a) then 1 else 0.

(** Overlapping and disjoint ranges: depth 2 around instant 4. *)
Definition some_ranges : list Vertical.Ev :=
  [ Vertical.mkEv "0" 1 5 true; Vertical.mkEv "1" 4 9 true;
    Vertical.mkEv "2" 6 7 true; Vertical.mkEv "3" 10 12 true ].

(** Sheets that lead to the situations above: a short range 09:00-10:00,
    a long range 09:30-12:00 and a point at 11:00; then an event whose end
    time equals its start time next to a range with the same start. *)
Definition half_hour : Z := 1800000000.

Definition nested_sheet : DataFrame :=
  {| columns := REQUIRED_COLUMNS;
     rows :=
       [ mkRow (Some 738000) (TimeOfDay (9 * hour)) (TimeOfDay (10 * hour)) None
           (Some "X"%string) (Some "a"%string) None None;
         mkRow (Some 738000) (TimeOfDay (9 * hour + half_hour))
           (TimeOfDay (12 * hour)) None
           (Some "X"%string) (Some "b"%string) None None;
         mkRow (Some 738000) (TimeOfDay (11 * hour)) TimeNaN None
           (Some "X"%string) (Some "c"%string) None None ] |}.

Definition zero_length_sheet : DataFrame :=
  {| columns := REQUIRED_COLUMNS;
     rows :=
       [ mkRow (Some 738000) (TimeOfDay (9 * hour)) (TimeOfDay (9 * hour)) None
           (Some "X"%string) (Some "a"%string) None None;
         mkRow (Some 738000) (TimeOfDay (9 * hour)) (TimeOfDay (11 * hour)) None
           (Some "X"%string) (Some "b"%string) None None ] |}.

Definition run (df : DataFrame) : Horizontal.Layout :=
  match Horizontal.generate_horizontal_timeline no_strftime no_csv df with
  | inr L => L
  | inl _ => empty_layout
  end.

Definition run_events (df : DataFrame) : list TimelineEvent :=
  match read_events_from_excel no_strftime no_csv df with
  | inr events => events
  | inl _ => []
  end.

(** Events whose stored ends are not normalised: the second one ends
    before it starts. *)
Definition unordered_ends : list TimelineEvent :=
  [ ev 0 (Some 6) (Some 100) ["A"%string];
    ev 1 (Some 10) (Some 5) ["A"%string];
    ev 2 (Some 12) (Some 20) ["A"%string] ].

(** Two events naming "Alice" and "alice", in either row order. *)
Definition alice_rows_first : list TimelineEvent :=
  [ ev 0 (Some 1) None ["Alice"%string]; ev 1 (Some 2) None ["alice"%string] ].

Definition alice_rows_last : list TimelineEvent :=
  [ ev 1 (Some 2) None ["alice"%string]; ev 0 (Some 1) None ["Alice"%string] ].

(** A day with a long range, a range nested in it, a later range, and
    point events before, within and after them. *)
Definition day_plan : list Vertical.Ev :=
  [ Vertical.mkEv "0" 100 300 true; Vertical.mkEv "1" 200 200 false;
    Vertical.mkEv "2" 150 250 true; Vertical.mkEv "3" 400 500 true;
    Vertical.mkEv "4" 450 450 false; Vertical.mkEv "5" 50 50 false;
    Vertical.mkEv "6" 200 200 false ].

Definition day_layout : Vertical.Result :=
  Vertical.layout code_compare Vertical.default_cfg day_plan.

(** An event whose entity list names the same entity twice. *)
Definition named_twice : list TimelineEvent :=
  [ ev 0 (Some 9) None ["A"; "A"]%string ].

(** Latin-1 names, given by the code point of their first letter: the
    capital E acute (201), the small e acute (233) and the small c
    cedilla (231). *)
Definition latin1 (n : nat) (rest : string) : string :=
  String (ascii_of_nat n) rest.

Definition Emile : string := latin1 201 "mile".
Definition emile : string := latin1 233 "mile".
Definition celik : string := latin1 231 "elik".

End Examples.

(* ===================================================================== *)
(** ** Normalisation of end instants *)
(* ===================================================================== *)

Section Normalisation.
Import Core Spec.
Variable strftime : string -> Z -> string.
Variable csv_reader : string -> option (list string).

Lemma normalize_end_dt_advances (s e : Z) :
  e < s -> normalize_end_dt (Some s) (Some e) = Some (e + DAY).
Proof.
  intros Hlt. unfold normalize_end_dt.
  destruct (Z.ltb_spec e s); [reflexivity | lia].
Qed.

Lemma normalize_end_dt_keeps (start_v end_v : option Z) :
  ~ (exists s e, start_v = Some s /\ end_v = Some e /\ e < s) ->
  normalize_end_dt start_v end_v = end_v.
Proof.
  intros Hno. destruct start_v as [s|], end_v as [e|]; simpl; try reflexivity.
  destruct (Z.ltb_spec e s); [|reflexivity].
  exfalso. apply Hno. eauto.
Qed.

Lemma parsed_end_needs_start (row : Row) (e : Z) :
  parsed_end row = Some e -> exists s, parsed_start row = Some s.
Proof.
  unfold parsed_end, parsed_start, parse_date_time.
  destruct (Datum row); [|destruct (Eindtijd row); discriminate].
  intros _. destruct (Starttijd row); eauto.
Qed.

Lemma stored_end_is_normalized (has_bron : bool) (idx : nat) (row : Row) :
  end_dt (event_of_row strftime csv_reader has_bron idx row)
  = normalize_end_dt (parsed_start row) (parsed_end row).
Proof.
  unfold event_of_row; simpl.
  fold (parsed_start row). fold (parsed_end row).
  destruct (parsed_start row) as [s|] eqn:Hs.
  - destruct (normalize_end_dt (Some s) (parsed_end row)); reflexivity.
  - destruct (parsed_end row) as [e|] eqn:He; [|reflexivity].
    apply parsed_end_needs_start in He as [s Hs']. congruence.
Qed.

(** The two parsed instants of a row lie on the same calendar day. *)
Lemma parsed_same_day (row : Row) (s e : Z) :
  row_ok row -> parsed_start row = Some s -> parsed_end row = Some e ->
  exists d, Datum row = Some d /\ d * DAY <= s < (d + 1) * DAY
            /\ d * DAY <= e < (d + 1) * DAY.
Proof.
  intros (_ & Hs & He). unfold parsed_start, parsed_end, parse_date_time.
  destruct (Datum row) as [d|]; [|discriminate].
  intros Hps Hpe. exists d. split; [reflexivity|].
  destruct (Starttijd row), (Eindtijd row); simpl in *;
    simplify_eq; unfold DAY in *; lia.
Qed.

(** C6. Whenever a start and an end are both resolved for a row and the
    parsed end is earlier than the parsed start, the stored end is the
    parsed end plus exactly one day; in every other case (start or end
    absent, or end not earlier than start) the end is returned, and
    stored, unchanged. *)
Theorem overnight_end_advanced_by_one_day
    (has_bron : bool) (idx : nat) (row : Row) :
  let ev := event_of_row strftime csv_reader has_bron idx row in
  (forall s e, parsed_start row = Some s -> parsed_end row = Some e -> e < s ->
     normalize_end_dt (Some s) (Some e) = Some (e + DAY)
     /\ end_dt ev = Some (e + DAY))
  /\ (~ (exists s e, parsed_start row = Some s /\ parsed_end row = Some e /\ e < s) ->
      normalize_end_dt (parsed_start row) (parsed_end row) = parsed_end row
      /\ end_dt ev = parsed_end row).
Proof.
  intros ev. split.
  - intros s e Hs He Hlt. split; [now apply normalize_end_dt_advances|].
    unfold ev. rewrite stored_end_is_normalized, Hs, He.
    now apply normalize_end_dt_advances.
  - intros Hno. split; [now apply normalize_end_dt_keeps|].
    unfold ev. rewrite stored_end_is_normalized.
    now apply normalize_end_dt_keeps.
Qed.

(** After normalisation the stored end never precedes the start, and the
    addition of a day stays below [datetime.max]. *)
Lemma event_of_row_ordered (has_bron : bool) (idx : nat) (row : Row) :
  row_ok row ->
  ordered_event (event_of_row strftime csv_reader has_bron idx row).
Proof.
  intros Hok s en Hs Hen.
  rewrite stored_end_is_normalized in Hen.
  change (parsed_start row = Some s) in Hs. rewrite Hs in Hen.
  destruct (parsed_end row) as [e|] eqn:He; [|discriminate].
  destruct (parsed_same_day row s e Hok Hs He) as (d & _ & Hsd & Hed).
  simpl in Hen. destruct (Z.ltb_spec e s); simplify_eq; unfold DAY in *; lia.
Qed.

Lemma normalized_end_in_range (row : Row) (en : Z) :
  row_ok row ->
  normalize_end_dt (parsed_start row) (parsed_end row) = Some en ->
  0 <= en <= DATETIME_MAX.
Proof.
  intros Hok Hn.
  destruct (parsed_end row) as [e|] eqn:He;
    [|destruct (parsed_start row); discriminate].
  destruct (parsed_end_needs_start row e He) as [s Hs].
  destruct (parsed_same_day row s e Hok Hs He) as (d & Hd & Hsd & Hed).
  destruct Hok as (Hdate & _). rewrite Hd in Hdate. simpl in Hdate.
  rewrite Hs in Hn. simpl in Hn. unfold DATETIME_MAX, DAY in *.
  destruct (Z.ltb_spec e s); simplify_eq; lia.
Qed.
End Normalisation.

(** A row whose end time (01:00) precedes its start time (23:00). *)
Lemma overnight_end_advanced_by_one_day_witness :
let row := Core.mkRow (Some 738000) (Core.TimeOfDay 82800000000)
             (Core.TimeOfDay 3600000000) None None None None None in
Spec.parsed_start row = Some 63763282800000000
/\ Spec.parsed_end row = Some 63763203600000000
/\ Core.end_dt (Core.event_of_row (fun _ _ => EmptyString) (fun _ => None)
                  false 0 row)
   = Some (63763203600000000 + Core.DAY).
Proof.
intros row. split; [reflexivity|]. split; [reflexivity|].
apply (proj1 (overnight_end_advanced_by_one_day
                (fun _ _ => EmptyString) (fun _ => None) false 0%nat row)
         63763282800000000 63763203600000000); [reflexivity..|lia].
Defined.

(* ===================================================================== *)
(** ** Effective end of an event without a start *)
(* ===================================================================== *)

Section EffectiveEnd.
Import Core Spec.

Lemma effective_end_dt_with_start (e : TimelineEvent) (s : Z) :
  start_dt e = Some s -> effectiveEnd e = Some (effective_end_dt e).
Proof.
  intros Hs. unfold effectiveEnd, effective_end_dt. rewrite Hs.
  destruct (end_dt e); reflexivity.
Qed.

(** C10. For an event without a start, [effective_end_dt] is [datetime.max];
    whatever instant [a_start] stands in for its start, the overlap test
    then holds against every event [b] (of representable instants) that
    starts at or after [a_start].  The specification's effectiveEnd is the
    end if present, else the start: it agrees with the code exactly when a
    start is present. *)
Theorem effective_end_dt_without_start (e : TimelineEvent) :
  start_dt e = None ->
  effective_end_dt e = DATETIME_MAX
  /\ (forall a_start b_start b_end,
        a_start <= b_start -> b_start <= b_end -> b_end <= DATETIME_MAX ->
        overlaps a_start (effective_end_dt e) b_start b_end = true)
  /\ effectiveEnd e = end_dt e
  /\ (forall f s, start_dt f = Some s ->
        effectiveEnd f = Some (effective_end_dt f)).
Proof.
  intros Hnone.
  assert (Hmax : effective_end_dt e = DATETIME_MAX)
    by (unfold effective_end_dt; now rewrite Hnone).
  split; [exact Hmax|]. split; [|split].
  - intros a_start b_start b_end H1 H2 H3. rewrite Hmax. unfold overlaps.
    apply andb_true_iff. split; apply Z.leb_le; lia.
  - unfold effectiveEnd. rewrite Hnone. now destruct (end_dt e).
  - intros f s. apply effective_end_dt_with_start.
Qed.
End EffectiveEnd.

Lemma effective_end_dt_without_start_witness :
  Core.effective_end_dt Examples.undated_event = 315537897599999999
  /\ Core.overlaps 0 (Core.effective_end_dt Examples.undated_event) 5 9 = true
  /\ Spec.effectiveEnd Examples.undated_event = None.
Proof.
  pose proof (effective_end_dt_without_start Examples.undated_event eq_refl)
    as (H1 & H2 & H3 & _).
  split; [exact H1|]. split; [|exact H3].
  apply H2; unfold Core.DATETIME_MAX, Core.DAY; lia.
Defined.

(* ===================================================================== *)
(** ** Facts about the built-ins *)
(* ===================================================================== *)

(** Closed decidable goals are settled by evaluation. *)
Ltac by_compute := unfold Spec.unique_ids; compute_done.

(** Membership in a list that is given explicitly. *)
Ltac find_in_list :=
  first [ apply list_elem_of_here | apply list_elem_of_further; find_in_list ].
Ltac in_list := vm_compute; find_in_list.

Section LexOrder.

Lemma lex_ltb_irrefl (a : list Z) : Py.lex_ltb a a = false.
Proof.
  induction a as [|x a IH]; simpl; [reflexivity|].
  rewrite Z.ltb_irrefl. exact IH.
Qed.

Lemma lex_ltb_asym (a b : list Z) :
  Py.lex_ltb a b = true -> Py.lex_ltb b a = false.
Proof.
  revert b. induction a as [|x a IH]; intros [|y b]; simpl; try easy.
  destruct (Z.ltb_spec x y), (Z.ltb_spec y x); try easy; try lia.
  apply IH.
Qed.

Lemma lex_ltb_connex (a b : list Z) :
  Py.lex_ltb a b = false -> Py.lex_ltb b a = false -> a = b.
Proof.
  revert b. induction a as [|x a IH]; intros [|y b]; simpl; try easy.
  destruct (Z.ltb_spec x y), (Z.ltb_spec y x); try easy; try lia.
  intros H1 H2. f_equal; [lia | now apply IH].
Qed.

Lemma lex_ltb_trans (a b c : list Z) :
  Py.lex_ltb a b = true -> Py.lex_ltb b c = true -> Py.lex_ltb a c = true.
Proof.
  revert b c. induction a as [|x a IH]; intros [|y b] [|z c]; simpl; try easy.
  destruct (Z.ltb_spec x y), (Z.ltb_spec y x), (Z.ltb_spec y z),
    (Z.ltb_spec z y), (Z.ltb_spec x z), (Z.ltb_spec z x);
    try easy; try lia.
  apply IH.
Qed.

(** "Not greater than" is transitive. *)
Lemma lex_leb_trans (a b c : list Z) :
  Py.lex_ltb b a = false -> Py.lex_ltb c b = false -> Py.lex_ltb c a = false.
Proof.
  revert b c. induction a as [|x a IH]; intros [|y b] [|z c]; simpl; try easy.
  destruct (Z.ltb_spec x y), (Z.ltb_spec y x), (Z.ltb_spec y z),
    (Z.ltb_spec z y), (Z.ltb_spec x z), (Z.ltb_spec z x);
    try easy; try lia.
  apply IH.
Qed.

End LexOrder.

Section StableSort.
Context {A : Type} (lt : A -> A -> bool).

Lemma stable_insert_Permutation (x : A) (l : list A) :
  Py.stable_insert lt x l ≡ₚ x :: l.
Proof.
  induction l as [|y l IH]; simpl; [reflexivity|].
  destruct (lt y x); [|reflexivity].
  rewrite IH. apply Permutation_swap.
Qed.

Lemma stable_sort_Permutation (l : list A) : Py.stable_sort lt l ≡ₚ l.
Proof.
  induction l as [|x l IH]; simpl; [reflexivity|].
  rewrite stable_insert_Permutation. now rewrite IH.
Qed.

Lemma stable_sort_elem_of (x : A) (l : list A) :
  x ∈ Py.stable_sort lt l <-> x ∈ l.
Proof. now rewrite stable_sort_Permutation. Qed.

Lemma stable_sort_length (l : list A) :
  length (Py.stable_sort lt l) = length l.
Proof. now rewrite stable_sort_Permutation. Qed.

Hypothesis lt_asym : forall x y, lt x y = true -> lt y x = false.
Hypothesis le_trans :
  forall x y z, lt y x = false -> lt z y = false -> lt z x = false.

Lemma stable_insert_sorted (x : A) (l : list A) :
  StronglySorted (fun a b => lt b a = false) l ->
  StronglySorted (fun a b => lt b a = false) (Py.stable_insert lt x l).
Proof.
  induction 1 as [|y l Hs IH Hy]; simpl.
  - repeat constructor.
  - destruct (lt y x) eqn:Hyx.
    + constructor; [exact IH|].
      rewrite stable_insert_Permutation. constructor; [|exact Hy].
      now apply lt_asym.
    + constructor; [now constructor|].
      constructor; [exact Hyx|].
      eapply Forall_impl; [exact Hy|]. simpl. intros z Hz.
      now apply (le_trans x y z).
Qed.

Lemma stable_sort_sorted (l : list A) :
  StronglySorted (fun a b => lt b a = false) (Py.stable_sort lt l).
Proof.
  induction l as [|x l IH]; simpl; [constructor|].
  now apply stable_insert_sorted.
Qed.

(** A stable sort does not depend on the order of its input when no two
    distinct elements tie. *)
Lemma stable_sort_unique (l l' : list A) :
  l ≡ₚ l' ->
  (forall x y, x ∈ l -> y ∈ l -> lt x y = false -> lt y x = false -> x = y) ->
  Py.stable_sort lt l = Py.stable_sort lt l'.
Proof.
  intros Hp Hinj.
  apply (StronglySorted_unique_strong (fun a b => lt b a = false)).
  - intros x y Hx Hy H1 H2. apply Hinj; try assumption.
    + now rewrite stable_sort_elem_of in Hx.
    + rewrite stable_sort_elem_of in Hy. now rewrite Hp.
  - apply stable_sort_sorted.
  - apply stable_sort_sorted.
  - now rewrite !stable_sort_Permutation.
Qed.

End StableSort.

Lemma StronglySorted_lookup {A} (R : A -> A -> Prop) (l : list A)
    (i j : nat) (x y : A) :
  StronglySorted R l -> (i < j)%nat ->
  l !! i = Some x -> l !! j = Some y -> R x y.
Proof.
  intros Hs. revert i j. induction Hs as [|z l Hs IH Hz]; intros i j Hij Hi Hj.
  - discriminate.
  - destruct j as [|j]; [lia|]. destruct i as [|i]; simpl in *.
    + simplify_eq. rewrite Forall_forall in Hz. apply Hz.
      now apply list_elem_of_lookup_2 in Hj.
    + apply (IH i j); [lia|assumption..].
Qed.

Section SortedByKey.
Context {A : Type} (key : A -> list Z).

Lemma sorted_Permutation (l : list A) : Py.sorted key l ≡ₚ l.
Proof. apply stable_sort_Permutation. Qed.

Lemma sorted_StronglySorted (l : list A) :
  StronglySorted (fun a b => Py.lex_ltb (key b) (key a) = false) (Py.sorted key l).
Proof.
  apply (stable_sort_sorted (fun y x => Py.lex_ltb (key y) (key x))).
  - intros x y. apply lex_ltb_asym.
  - intros x y z. apply lex_leb_trans.
Qed.

Lemma sorted_unique (l l' : list A) :
  l ≡ₚ l' ->
  (forall x y, x ∈ l -> y ∈ l -> key x = key y -> x = y) ->
  Py.sorted key l = Py.sorted key l'.
Proof.
  intros Hp Hinj.
  apply (stable_sort_unique (fun y x => Py.lex_ltb (key y) (key x))).
  - intros x y. apply lex_ltb_asym.
  - intros x y z. apply lex_leb_trans.
  - exact Hp.
  - intros x y Hx Hy H1 H2. apply Hinj; try assumption.
    now apply lex_ltb_connex.
Qed.

End SortedByKey.

(** The [seen] loop. *)
Lemma dedup_elem_of `{Countable A} (seen : gset A) (l : list A) (x : A) :
  x ∈ Py.dedup seen l <-> x ∈ l /\ x ∉ seen.
Proof.
  revert seen. induction l as [|y l IH]; intros seen; simpl.
  - rewrite elem_of_nil. tauto.
  - case_bool_decide as Hy.
    + rewrite IH, elem_of_cons. split; [tauto|].
      intros [[->|Hx] Hn]; [contradiction|tauto].
    + rewrite !elem_of_cons, IH. split.
      * intros [->|[Hx Hn]]; [tauto|]. split; [tauto|].
        intros Hs. apply Hn, elem_of_union. now right.
      * intros [[->|Hx] Hn]; [tauto|].
        destruct (decide (x = y)) as [->|Hne]; [tauto|].
        right. split; [exact Hx|].
        rewrite elem_of_union, elem_of_singleton. tauto.
Qed.

Lemma dedup_NoDup `{Countable A} (seen : gset A) (l : list A) :
  NoDup (Py.dedup seen l).
Proof.
  revert seen. induction l as [|y l IH]; intros seen; simpl; [constructor|].
  case_bool_decide as Hy; [apply IH|].
  apply NoDup_cons. split; [|apply IH].
  rewrite dedup_elem_of, elem_of_union, elem_of_singleton. tauto.
Qed.

Lemma dedup_sorted `{Countable A} (R : A -> A -> Prop) (seen : gset A)
    (l : list A) :
  StronglySorted R l -> StronglySorted R (Py.dedup seen l).
Proof.
  intros Hs. revert seen. induction Hs as [|y l Hs IH Hy]; intros seen; simpl;
    [constructor|].
  case_bool_decide as Hin; [apply IH|].
  constructor; [apply IH|].
  rewrite Forall_forall in Hy. apply Forall_forall. intros x Hx.
  apply dedup_elem_of in Hx as [Hx _]. now apply Hy.
Qed.

(* ===================================================================== *)
(** ** Horizontal layout: slots and the packed axis *)
(* ===================================================================== *)

Section Slots.
Import Core Spec Horizontal.

Lemma estimate_card_width_bounds (text : string) (r : bool) :
  180 <= estimate_card_width text r <= 320.
Proof. unfold estimate_card_width. destruct r; simpl; lia. Qed.

Lemma unique_ids_inj (events : list TimelineEvent) (x y : TimelineEvent) :
  unique_ids events -> x ∈ events -> y ∈ events ->
  event_id x = event_id y -> x = y.
Proof.
  intros Hnd Hx Hy Hid.
  apply list_elem_of_lookup in Hx as [i Hi].
  apply list_elem_of_lookup in Hy as [j Hj].
  assert (i = j).
  { apply (NoDup_lookup (map event_id events) i j (event_id x)); [exact Hnd| |].
    - now rewrite list_lookup_fmap, Hi.
    - now rewrite list_lookup_fmap, Hj, Hid. }
  congruence.
Qed.

Lemma unique_ids_Permutation (l l' : list TimelineEvent) :
  l ≡ₚ l' -> unique_ids l -> unique_ids l'.
Proof. unfold unique_ids. intros Hp. now rewrite Hp. Qed.

Lemma unique_ids_filter (f : TimelineEvent -> bool) (l : list TimelineEvent) :
  unique_ids l -> unique_ids (List.filter f l).
Proof.
  unfold unique_ids. induction l as [|x l IH]; simpl; [easy|].
  rewrite NoDup_cons. intros [Hx Hl]. destruct (f x); simpl; [|auto].
  apply NoDup_cons. split; [|auto].
  intros Hin. apply Hx.
  apply list_elem_of_fmap in Hin as (y & Hy & Hin).
  apply list_elem_of_fmap. exists y. split; [exact Hy|].
  apply list_elem_of_In. apply list_elem_of_In in Hin.
  now apply filter_In in Hin.
Qed.

Lemma filter_elem_of {A} (f : A -> bool) (l : list A) (x : A) :
  x ∈ List.filter f l <-> x ∈ l /\ f x = true.
Proof. rewrite !list_elem_of_In. apply filter_In. Qed.

Lemma timed_events_Permutation (events : list TimelineEvent) :
  timed_events events ≡ₚ List.filter has_start events.
Proof. apply sorted_Permutation. Qed.

Lemma timed_events_elem_of (events : list TimelineEvent) (e : TimelineEvent) :
  e ∈ timed_events events <-> e ∈ events /\ has_start e = true.
Proof. rewrite timed_events_Permutation. apply filter_elem_of. Qed.

Lemma timed_events_unique_ids (events : list TimelineEvent) :
  unique_ids events -> unique_ids (timed_events events).
Proof.
  intros H. eapply unique_ids_Permutation.
  - symmetry. apply timed_events_Permutation.
  - now apply unique_ids_filter.
Qed.

Lemma has_start_Some (e : TimelineEvent) :
  has_start e = true <-> exists s, start_dt e = Some s.
Proof.
  unfold has_start. destruct (start_dt e); split; eauto; try easy.
  intros [s Hs]. discriminate.
Qed.

(** [assign_slots] one event at a time. *)
Lemma assign_slots_snoc (l : list TimelineEvent) (e : TimelineEvent) :
  assign_slots (l ++ [e]) = <[ event_id e := length l ]> (assign_slots l).
Proof.
  unfold assign_slots. rewrite imap_app, foldl_app. simpl.
  now rewrite Nat.add_0_r.
Qed.

(** With unique ids, [slot_of] maps the id of the event at slot [i] to [i]. *)
Lemma assign_slots_lookup (l : list TimelineEvent) (i : nat) (e : TimelineEvent) :
  unique_ids l -> l !! i = Some e -> assign_slots l !! event_id e = Some i.
Proof.
  revert i e. induction l as [|x l IH] using rev_ind; intros i e Hnd Hi.
  - discriminate.
  - rewrite assign_slots_snoc.
    unfold unique_ids in Hnd. rewrite map_app in Hnd. simpl in Hnd.
    apply NoDup_app in Hnd as (Hl & Hdisj & _).
    destruct (decide (i < length l)%nat) as [Hlt|Hge].
    + rewrite lookup_app_l in Hi by exact Hlt.
      rewrite lookup_insert_ne; [now apply IH|].
      intros Heq. apply (Hdisj (event_id e)).
      * apply list_elem_of_fmap. exists e. split; [reflexivity|].
        now apply list_elem_of_lookup_2 in Hi.
      * rewrite Heq. now left.
    + rewrite lookup_app_r in Hi by lia.
      destruct (i - length l)%nat eqn:Hd; simpl in Hi; [|discriminate].
      simplify_eq. rewrite lookup_insert_eq. f_equal. lia.
Qed.

Lemma assign_slots_lookup_total (l : list TimelineEvent) (i : nat)
    (e : TimelineEvent) :
  unique_ids l -> l !! i = Some e -> assign_slots l !!! event_id e = i.
Proof.
  intros Hnd Hi. unfold lookup_total, map_lookup_total.
  now rewrite (assign_slots_lookup l i e Hnd Hi).
Qed.

(** Every key of [slot_of] is the id of a slotted event, and its value is a
    slot in range. *)
Lemma assign_slots_inv (l : list TimelineEvent) (k : Z) (i : nat) :
  assign_slots l !! k = Some i ->
  exists e, l !! i = Some e /\ event_id e = k.
Proof.
  revert i. induction l as [|x l IH] using rev_ind; intros i.
  - unfold assign_slots. simpl. now rewrite lookup_empty.
  - rewrite assign_slots_snoc.
    destruct (decide (event_id x = k)) as [<-|Hne].
    + rewrite lookup_insert_eq. intros [= <-]. exists x. split; [|reflexivity].
      rewrite lookup_app_r by lia. now rewrite Nat.sub_diag.
    + rewrite lookup_insert_ne by exact Hne. intros Hi.
      destruct (IH i Hi) as (e & He & Hid). exists e. split; [|exact Hid].
      rewrite lookup_app_l; [exact He|]. now apply lookup_lt_Some in He.
Qed.

(** The packed axis. *)
Lemma pack_length (x : Z) (ws : list Z) : length (pack x ws) = length ws.
Proof. revert x. induction ws as [|w ws IH]; intros x; simpl; auto. Qed.

Lemma pack_lookup (x : Z) (ws : list Z) (i : nat) :
  (i < length ws)%nat ->
  pack x ws !! i = Some (x + foldr Z.add 0 (take i ws) + gap * Z.of_nat i).
Proof.
  revert x i. induction ws as [|w ws IH]; intros x i Hi; simpl in Hi; [lia|].
  destruct i as [|i]; simpl.
  - f_equal. lia.
  - rewrite IH by lia. f_equal. unfold gap. lia.
Qed.

Lemma pack_lookup_total (x : Z) (ws : list Z) (i : nat) :
  (i < length ws)%nat ->
  pack x ws !!! i = x + foldr Z.add 0 (take i ws) + gap * Z.of_nat i.
Proof.
  intros Hi. apply list_lookup_total_correct. now apply pack_lookup.
Qed.

Lemma pack_step (x : Z) (ws : list Z) (i : nat) (w : Z) :
  ws !! i = Some w -> (S i < length ws)%nat ->
  pack x ws !!! S i = pack x ws !!! i + w + gap.
Proof.
  intros Hw Hlt. rewrite !pack_lookup_total by lia.
  rewrite (take_S_r ws i w Hw), foldr_app. simpl.
  assert (Hf : forall l a, foldr Z.add a l = foldr Z.add 0 l + a).
  { induction l as [|y l IHl]; intros a; simpl; [lia|]. rewrite IHl. lia. }
  rewrite (Hf _ (w + 0)). unfold gap. lia.
Qed.

(** Right edges never decrease along the axis when widths are non-negative. *)
Lemma pack_right_edge_mono (x : Z) (ws : list Z) (i j : nat) :
  Forall (fun w => 0 <= w) ws -> (i <= j)%nat -> (j < length ws)%nat ->
  pack x ws !!! i + ws !!! i <= pack x ws !!! j + ws !!! j.
Proof.
  intros Hpos Hij Hj. induction Hij as [|j Hij IH]; [lia|].
  destruct (lookup_lt_is_Some_2 ws j ltac:(lia)) as [w Hw].
  destruct (lookup_lt_is_Some_2 ws (S j) Hj) as [w' Hw'].
  rewrite (pack_step x ws j w Hw Hj).
  rewrite (list_lookup_total_correct ws (S j) w' Hw').
  specialize (IH ltac:(lia)).
  rewrite (list_lookup_total_correct ws j w Hw) in IH.
  rewrite Forall_forall in Hpos.
  assert (0 <= w') by (apply Hpos; now apply list_elem_of_lookup_2 in Hw').
  unfold gap. lia.
Qed.

Lemma pack_strict_mono (x : Z) (ws : list Z) (i j : nat) :
  Forall (fun w => 0 <= w) ws -> (i < j)%nat -> (j < length ws)%nat ->
  pack x ws !!! i < pack x ws !!! j.
Proof.
  intros Hpos Hij Hj.
  destruct j as [|j]; [lia|].
  destruct (lookup_lt_is_Some_2 ws j ltac:(lia)) as [w Hw].
  rewrite (pack_step x ws j w Hw Hj).
  pose proof (pack_right_edge_mono x ws i j Hpos ltac:(lia) ltac:(lia)) as Hm.
  rewrite (list_lookup_total_correct ws j w Hw) in Hm.
  destruct (lookup_lt_is_Some_2 ws i ltac:(lia)) as [wi Hwi].
  rewrite (list_lookup_total_correct ws i wi Hwi) in Hm.
  rewrite Forall_forall in Hpos.
  assert (0 <= wi) by (apply Hpos; now apply list_elem_of_lookup_2 in Hwi).
  unfold gap. lia.
Qed.

Lemma slot_widths_nonneg (l : list TimelineEvent) :
  Forall (fun w => 0 <= w) (slot_widths l).
Proof.
  unfold slot_widths. apply Forall_forall. intros w Hin.
  apply list_elem_of_fmap in Hin as (e & -> & _).
  pose proof (estimate_card_width_bounds (card_text e) (is_range e)). lia.
Qed.

Lemma slot_widths_length (l : list TimelineEvent) :
  length (slot_widths l) = length l.
Proof. unfold slot_widths. apply length_map. Qed.

Lemma slot_widths_lookup (l : list TimelineEvent) (i : nat) (e : TimelineEvent) :
  l !! i = Some e ->
  slot_widths l !!! i = estimate_card_width (card_text e) (is_range e).
Proof.
  intros Hi. apply list_lookup_total_correct.
  unfold slot_widths. change (map ?f l) with (f <$> l).
  now rewrite list_lookup_fmap, Hi.
Qed.

End Slots.

(* ===================================================================== *)
(** ** Horizontal layout: geometry tables *)
(* ===================================================================== *)

Section Geometry.
Import Core Spec Horizontal.

(** Dictionaries filled by one assignment per event, keyed by id. *)
Lemma fold_insert_is_Some {V} (f : TimelineEvent -> V)
    (l : list TimelineEvent) (k : Z) :
  is_Some (foldl (fun m e => <[ event_id e := f e ]> m) (∅ : gmap Z V) l !! k)
  <-> exists e, e ∈ l /\ event_id e = k.
Proof.
  induction l as [|x l IH] using rev_ind.
  - simpl. rewrite lookup_empty. split; [intros [? ?]; discriminate|].
    intros (e & He & _). inversion He.
  - rewrite foldl_app. simpl.
    destruct (decide (event_id x = k)) as [<-|Hne].
    + rewrite lookup_insert_eq. split; [|eauto].
      intros _. exists x. split; [|reflexivity].
      apply elem_of_app. right. now left.
    + rewrite lookup_insert_ne by exact Hne. rewrite IH. split.
      * intros (e & He & Hk). exists e. split; [|exact Hk].
        apply elem_of_app. now left.
      * intros (e & He & Hk). exists e. split; [|exact Hk].
        apply elem_of_app in He as [He|He]; [exact He|].
        apply list_elem_of_singleton in He. congruence.
Qed.

Lemma fold_insert_lookup {V} (f : TimelineEvent -> V)
    (l : list TimelineEvent) (e : TimelineEvent) :
  unique_ids l -> e ∈ l ->
  foldl (fun m e => <[ event_id e := f e ]> m) (∅ : gmap Z V) l !! event_id e
  = Some (f e).
Proof.
  induction l as [|x l IH] using rev_ind; intros Hnd He.
  - inversion He.
  - rewrite foldl_app. simpl.
    unfold unique_ids in Hnd. rewrite map_app in Hnd. simpl in Hnd.
    apply NoDup_app in Hnd as (Hl & Hdisj & _).
    apply elem_of_app in He as [He|He].
    + rewrite lookup_insert_ne; [now apply IH|].
      intros Heq. apply (Hdisj (event_id e)).
      * apply list_elem_of_fmap. eauto.
      * rewrite Heq. now left.
    + apply list_elem_of_singleton in He. subst.
      apply lookup_insert_eq.
Qed.

(** The scan of [span_slot]: a running maximum. *)
Lemma span_step_ge (m : gmap Z nat) (r e : TimelineEvent) (a : nat) :
  (a <= span_step m r a e)%nat.
Proof.
  unfold span_step.
  destruct (start_dt r), (end_dt r), (start_dt e); try lia.
  destruct (_ && _); lia.
Qed.

Lemma span_fold_ge (m : gmap Z nat) (r : TimelineEvent)
    (l : list TimelineEvent) (b c : nat) :
  (b <= c)%nat -> (b <= foldl (span_step m r) c l)%nat.
Proof.
  revert c. induction l as [|x l IH]; intros c Hbc; simpl; [exact Hbc|].
  apply IH. pose proof (span_step_ge m r x c). lia.
Qed.

Lemma span_slot_ge_own (m : gmap Z nat) (l : list TimelineEvent)
    (r : TimelineEvent) :
  (m !!! event_id r <= span_slot m l r)%nat.
Proof. unfold span_slot. now apply span_fold_ge. Qed.

Lemma span_step_within (m : gmap Z nat) (r e : TimelineEvent) (a : nat) :
  starts_within r e -> span_step m r a e = Nat.max a (m !!! event_id e).
Proof.
  intros (rs & re & es & Hrs & Hre & Hes & Hin).
  unfold span_step. rewrite Hrs, Hre, Hes.
  replace ((rs <=? es) && (es <=? re)) with true; [reflexivity|].
  symmetry. apply andb_true_iff. split; apply Z.leb_le; lia.
Qed.

Lemma span_step_cases (m : gmap Z nat) (r e : TimelineEvent) (a : nat) :
  span_step m r a e = a
  \/ (starts_within r e /\ span_step m r a e = m !!! event_id e).
Proof.
  unfold span_step.
  destruct (start_dt r) as [rs|] eqn:Hrs; [|now left].
  destruct (end_dt r) as [re|] eqn:Hre; [|now left].
  destruct (start_dt e) as [es|] eqn:Hes; [|now left].
  destruct ((rs <=? es) && (es <=? re)) eqn:Hc; [|now left].
  apply andb_true_iff in Hc as [H1 H2].
  apply Z.leb_le in H1. apply Z.leb_le in H2.
  destruct (Nat.max_spec a (m !!! event_id e)) as [[_ ->]|[_ ->]];
    [|now left].
  right. split; [|reflexivity]. exists rs, re, es. auto.
Qed.

Lemma span_slot_ge (m : gmap Z nat) (l : list TimelineEvent)
    (r e : TimelineEvent) :
  e ∈ l -> starts_within r e ->
  (m !!! event_id e <= span_slot m l r)%nat.
Proof.
  intros He Hin. unfold span_slot. generalize (m !!! event_id r) as a.
  induction l as [|x l IH]; intros a; [inversion He|].
  apply elem_of_cons in He as [->|He]; simpl.
  - apply span_fold_ge. rewrite span_step_within by exact Hin. lia.
  - now apply IH.
Qed.

(** The span slot is the range's own slot or the slot of an event that
    starts within the range. *)
Lemma span_slot_cases (m : gmap Z nat) (l : list TimelineEvent)
    (r : TimelineEvent) :
  span_slot m l r = m !!! event_id r
  \/ exists e, e ∈ l /\ starts_within r e
               /\ span_slot m l r = m !!! event_id e.
Proof.
  unfold span_slot. induction l as [|x l IH] using rev_ind; [now left|].
  rewrite foldl_app. simpl.
  destruct (span_step_cases m r x (foldl (span_step m r) (m !!! event_id r) l))
    as [->|[Hin ->]].
  - destruct IH as [IH|(e & He & Hin & IH)]; [now left|].
    right. exists e. split; [|easy]. apply elem_of_app. now left.
  - right. exists x. split; [|easy]. apply elem_of_app. right. now left.
Qed.

End Geometry.

(* ===================================================================== *)
(** ** Grouping by entity *)
(* ===================================================================== *)

Section Grouping.
Import Core Spec Horizontal.

Lemma extend_extend {A} (o : option (list A)) (l1 l2 : list A) :
  extend (extend o l1) l2 = extend o (l1 ++ l2).
Proof.
  destruct l2 as [|y l2]; [now rewrite app_nil_r|].
  destruct l1 as [|x l1]; [reflexivity|].
  simpl. now rewrite <- app_assoc.
Qed.

Lemma dict_get_setdefault_append (entity k : string) (e : TimelineEvent)
    (d : entity_dict) :
  dict_get entity (setdefault_append k e d)
  = extend (dict_get entity d) (if String.eqb entity k then [e] else []).
Proof.
  induction d as [|[k' l] d IH]; simpl.
  - destruct (String.eqb entity k); reflexivity.
  - destruct (String.eqb k k') eqn:Hkk'; simpl.
    + apply String.eqb_eq in Hkk'. subst k'.
      destruct (String.eqb entity k); reflexivity.
    + destruct (String.eqb entity k') eqn:Hek'; simpl.
      * destruct (String.eqb entity k) eqn:Hek; [|reflexivity].
        apply String.eqb_eq in Hek. apply String.eqb_eq in Hek'. subst.
        rewrite String.eqb_refl in Hkk'. discriminate.
      * exact IH.
Qed.

Lemma dict_get_inner (entity : string) (e : TimelineEvent)
    (names : list string) (d : entity_dict) :
  dict_get entity (foldl (fun d name => setdefault_append name e d) d names)
  = extend (dict_get entity d)
      (map (fun _ => e) (List.filter (String.eqb entity) names)).
Proof.
  revert d. induction names as [|k names IH]; intros d; simpl; [reflexivity|].
  rewrite IH, dict_get_setdefault_append, extend_extend.
  destruct (String.eqb entity k); reflexivity.
Qed.

Lemma group_snoc (events : list TimelineEvent) (e : TimelineEvent) :
  group_events_by_entity (events ++ [e])
  = foldl (fun d name => setdefault_append name e d)
      (group_events_by_entity events) (entities e).
Proof. unfold group_events_by_entity. now rewrite foldl_app. Qed.

Lemma entity_events_of_snoc (entity : string) (events : list TimelineEvent)
    (e : TimelineEvent) :
  entity_events_of entity (events ++ [e])
  = entity_events_of entity events
    ++ map (fun _ => e) (List.filter (String.eqb entity) (entities e)).
Proof.
  unfold entity_events_of. rewrite map_app, concat_app. simpl.
  now rewrite app_nil_r.
Qed.

(** The list stored under [entity] by [group_events_by_entity]. *)
Lemma dict_get_group (entity : string) (events : list TimelineEvent) :
  dict_get entity (group_events_by_entity events)
  = extend None (entity_events_of entity events).
Proof.
  induction events as [|e events IH] using rev_ind; [reflexivity|].
  rewrite group_snoc, dict_get_inner, IH, extend_extend.
  now rewrite entity_events_of_snoc.
Qed.

Lemma keys_setdefault_append (k : string) (e : TimelineEvent) (d : entity_dict) :
  NoDup (map fst d) -> NoDup (map fst (setdefault_append k e d))
  /\ forall k', k' ∈ map fst (setdefault_append k e d)
                <-> k' = k \/ k' ∈ map fst d.
Proof.
  induction d as [|[k0 l] d IH]; simpl; intros Hnd.
  - split; [apply NoDup_singleton|]. intros k'.
    rewrite list_elem_of_singleton, elem_of_nil. tauto.
  - apply NoDup_cons in Hnd as [Hk0 Hnd].
    destruct (String.eqb k k0) eqn:Hk; simpl.
    + apply String.eqb_eq in Hk. subst k0. split.
      * now apply NoDup_cons.
      * intros k'. rewrite elem_of_cons. tauto.
    + destruct (IH Hnd) as [IH1 IH2]. split.
      * apply NoDup_cons. split; [|exact IH1].
        rewrite IH2. intros [->|Hin]; [|contradiction].
        rewrite String.eqb_refl in Hk. discriminate.
      * intros k'. rewrite !elem_of_cons, IH2. tauto.
Qed.

Lemma group_keys_NoDup (events : list TimelineEvent) :
  NoDup (map fst (group_events_by_entity events)).
Proof.
  induction events as [|e events IH] using rev_ind; [constructor|].
  rewrite group_snoc. revert IH.
  generalize (group_events_by_entity events) as d.
  induction (entities e) as [|k names IHn]; intros d Hd; simpl; [exact Hd|].
  apply IHn. now apply keys_setdefault_append.
Qed.

Lemma dict_get_elem_of {V} (k : string) (v : V) (d : list (string * V)) :
  NoDup (map fst d) -> (k, v) ∈ d <-> dict_get k d = Some v.
Proof.
  induction d as [|[k0 v0] d IH]; simpl; intros Hnd.
  - rewrite elem_of_nil. split; [tauto|discriminate].
  - apply NoDup_cons in Hnd as [Hk0 Hnd]. rewrite elem_of_cons.
    destruct (String.eqb k k0) eqn:Hk.
    + apply String.eqb_eq in Hk. subst k0. split.
      * intros [[= ->]|Hin]; [reflexivity|].
        exfalso. apply Hk0. apply list_elem_of_fmap. now exists (k, v).
      * intros [= ->]. now left.
    + rewrite <- (IH Hnd). split; [|tauto].
      intros [[= -> ->]|Hin]; [|exact Hin].
      rewrite String.eqb_refl in Hk. discriminate.
Qed.

Lemma dict_get_map {V W} (f : V -> W) (k : string) (d : list (string * V)) :
  dict_get k (map (fun '(k', v) => (k', f v)) d) = f <$> dict_get k d.
Proof.
  induction d as [|[k0 v0] d IH]; simpl; [reflexivity|].
  destruct (String.eqb k k0); [reflexivity|exact IH].
Qed.

Lemma entity_events_of_elem_of (entity : string) (events : list TimelineEvent)
    (e : TimelineEvent) :
  e ∈ entity_events_of entity events <-> e ∈ events /\ entity ∈ entities e.
Proof.
  unfold entity_events_of. rewrite list_elem_of_In, in_concat. split.
  - intros (l & Hl & He). apply in_map_iff in Hl as (e' & <- & He').
    apply in_map_iff in He as (name & <- & Hname).
    apply filter_In in Hname as [Hname Heq].
    apply String.eqb_eq in Heq. subst name.
    split; now apply list_elem_of_In.
  - intros [He Hent]. eexists. split.
    + apply in_map_iff. exists e. split; [reflexivity|].
      now apply list_elem_of_In.
    + apply in_map_iff. exists entity. split; [reflexivity|].
      apply filter_In. split; [now apply list_elem_of_In|].
      apply String.eqb_refl.
Qed.

Lemma entity_events_of_Permutation (entity : string)
    (l l' : list TimelineEvent) :
  l ≡ₚ l' -> entity_events_of entity l ≡ₚ entity_events_of entity l'.
Proof.
  intros Hp. unfold entity_events_of.
  induction Hp as [|x l l' Hp IH|x y l|l l' l'' _ IH1 _ IH2]; simpl.
  - reflexivity.
  - now rewrite IH.
  - rewrite !app_assoc. apply Permutation_app_tail, Permutation_app_comm.
  - now rewrite IH1.
Qed.

(** The lane of an entity holds the events grouped under it. *)
Lemma group_lane_events (entity : string) (events l : list TimelineEvent) :
  dict_get entity (group_events_by_entity events) = Some l ->
  l = entity_events_of entity events.
Proof.
  rewrite dict_get_group. unfold extend.
  destruct (entity_events_of entity events); [discriminate|].
  now intros [= <-].
Qed.

End Grouping.

(* ===================================================================== *)
(** ** Horizontal layout: first-fit stacking *)
(* ===================================================================== *)

Section Stacking.
Import Core Spec Horizontal.

Lemma make_card_event (ex ew : gmap Z Z) (e : TimelineEvent) :
  card_event (make_card ex ew e) = e.
Proof. reflexivity. Qed.

Lemma ordered_effective_end (e : TimelineEvent) (s : Z) :
  ordered_event e -> start_dt e = Some s ->
  s <= effective_end_dt e /\ default s (end_dt e) = effective_end_dt e.
Proof.
  intros Hord Hs. unfold effective_end_dt. rewrite Hs.
  destruct (end_dt e) as [en|] eqn:He; simpl; [|lia].
  split; [now apply Hord | reflexivity].
Qed.

Lemma make_card_well_made (ex ew : gmap Z Z) (e : TimelineEvent) (s : Z) :
  start_dt e = Some s -> ordered_event e -> well_made (make_card ex ew e).
Proof.
  intros Hs Hord. exists s. simpl. split; [exact Hs|].
  split; [now apply ordered_effective_end|].
  unfold or_else, effective_end_dt. rewrite Hs. now destruct (end_dt e).
Qed.

(** When the guard lets an event through, every card of the subrow ends
    before the event starts, although only the last card was inspected. *)
Lemma not_blocked_after (subrow : list Card) (e : TimelineEvent) (ts : Z) :
  good_subrow subrow -> start_dt e = Some ts -> ordered_event e ->
  (forall c s, c ∈ subrow -> start_dt (card_event c) = Some s -> s <= ts) ->
  blocked e subrow = false ->
  forall a, a ∈ subrow -> effective_end_dt (card_event a) < ts.
Proof.
  intros [Hchain Hwm] Hs Hord Hle Hfree a Ha.
  unfold blocked in Hfree.
  destruct (last subrow) as [lc|] eqn:Hlast.
  - apply last_Some in Hlast as [init ->].
    rewrite Forall_app, Forall_singleton in Hwm.
    destruct Hwm as [_ (ls & Hls & Hlsle & Hlend)].
    rewrite Hs, Hls, Hlend in Hfree. simpl in Hfree.
    destruct (ordered_effective_end e ts Hord Hs) as [Hte Hdef].
    rewrite Hdef in Hfree.
    assert (ls <= ts).
    { apply (Hle lc); [|exact Hls]. apply elem_of_app. right. now left. }
    unfold overlaps in Hfree. apply andb_false_iff in Hfree.
    assert (Hlc : effective_end_dt (card_event lc) < ts).
    { destruct Hfree as [H1|H1]; apply Z.leb_gt in H1; lia. }
    apply elem_of_app in Ha as [Ha|Ha].
    + apply StronglySorted_app in Hchain as (Hcross & _ & _).
      destruct (Hcross a lc Ha ltac:(now left)) as (sb & Hsb & Hlt).
      rewrite Hls in Hsb. simplify_eq. lia.
    + apply list_elem_of_singleton in Ha. now subst.
  - apply last_None in Hlast. subst. inversion Ha.
Qed.

Lemma place_elem_of (card c : Card) (subrows : list (list Card))
    (subrow' : list Card) :
  subrow' ∈ place card subrows -> c ∈ subrow' ->
  c = card \/ exists subrow, subrow ∈ subrows /\ c ∈ subrow.
Proof.
  revert subrow'. induction subrows as [|sr rest IH]; intros sr' Hsr Hc; simpl in Hsr.
  - apply list_elem_of_singleton in Hsr. subst.
    apply list_elem_of_singleton in Hc. now left.
  - destruct (blocked (card_event card) sr).
    + apply elem_of_cons in Hsr as [->|Hsr].
      * right. exists sr. split; [now left|exact Hc].
      * destruct (IH sr' Hsr Hc) as [->|(s0 & Hs0 & Hc0)]; [now left|].
        right. exists s0. split; [now right|exact Hc0].
    + apply elem_of_cons in Hsr as [->|Hsr].
      * apply elem_of_app in Hc as [Hc|Hc].
        -- right. exists sr. split; [now left|exact Hc].
        -- apply list_elem_of_singleton in Hc. now left.
      * right. exists sr'. split; [now right|exact Hc].
Qed.

Lemma place_good (card : Card) (subrows : list (list Card)) (ts : Z) :
  start_dt (card_event card) = Some ts -> ordered_event (card_event card) ->
  well_made card -> Forall good_subrow subrows -> started_by ts subrows ->
  Forall good_subrow (place card subrows).
Proof.
  intros Hs Hord Hwm. induction subrows as [|sr rest IH]; intros Hgood Hby; simpl.
  - repeat constructor. exact Hwm.
  - apply Forall_cons in Hgood as [Hsr Hrest].
    destruct (blocked (card_event card) sr) eqn:Hb.
    + constructor; [exact Hsr|]. apply IH; [exact Hrest|].
      intros sr' c s Hsr' Hc. apply (Hby sr' c s); [now right|exact Hc].
    + constructor; [|exact Hrest].
      assert (Hend : forall a, a ∈ sr -> effective_end_dt (card_event a) < ts).
      { apply (not_blocked_after sr (card_event card) ts Hsr Hs Hord); [|exact Hb].
        intros c s Hc. apply (Hby sr c s); [now left|exact Hc]. }
      destruct Hsr as [Hchain Hall]. split.
      * apply StronglySorted_app_2; [|exact Hchain|repeat constructor].
        intros a b Ha Hb'. apply list_elem_of_singleton in Hb'. subst b.
        exists ts. split; [exact Hs|now apply Hend].
      * apply Forall_app. split; [exact Hall|]. now apply Forall_singleton.
Qed.

(** Timed events follow each other by non-decreasing start in the order of
    [sorted_events]. *)
Lemma sort_key_start_le (a b : TimelineEvent) (sa sb : Z) :
  start_dt a = Some sa -> start_dt b = Some sb ->
  Py.lex_ltb (sort_key b) (sort_key a) = false -> sa <= sb.
Proof.
  intros Ha Hb. unfold sort_key. rewrite Ha, Hb. simpl.
  destruct (Z.ltb_spec sb sa); [discriminate|lia].
Qed.

Lemma stack_fold_good (ex ew : gmap Z Z) (l : list TimelineEvent)
    (subrows : list (list Card)) :
  StronglySorted (fun a b => Py.lex_ltb (sort_key b) (sort_key a) = false) l ->
  Forall ordered_event l ->
  Forall good_subrow subrows ->
  (forall e s, e ∈ l -> start_dt e = Some s -> started_by s subrows) ->
  Forall good_subrow (foldl (stack_step ex ew) subrows l).
Proof.
  intros Hsorted. revert subrows.
  induction Hsorted as [|x l Hsorted IH Hx]; intros subrows Hord Hgood Hby;
    simpl; [exact Hgood|].
  apply Forall_cons in Hord as [Hox Hord].
  unfold stack_step at 2. destruct (start_dt x) as [ts|] eqn:Hts.
  - apply IH; [exact Hord| |].
    + apply (place_good _ _ ts); simpl; try assumption.
      * now apply (make_card_well_made ex ew x ts).
      * apply (Hby x ts); [now left|exact Hts].
    + intros e s He Hs sr' c sc Hsr' Hc Hsc.
      destruct (place_elem_of _ c _ sr' Hsr' Hc) as [->|(sr & Hsr & Hc')].
      * simpl in Hsc. rewrite Hts in Hsc. simplify_eq.
        rewrite Forall_forall in Hx.
        apply (sort_key_start_le x e); auto.
      * apply (Hby e s ltac:(now right) Hs sr c sc Hsr Hc' Hsc).
  - apply IH; [exact Hord|exact Hgood|].
    intros e s He Hs. apply (Hby e s); [now right|exact Hs].
Qed.

Lemma stack_good (ex ew : gmap Z Z) (l : list TimelineEvent) :
  Forall ordered_event l -> Forall good_subrow (stack ex ew l).
Proof.
  intros Hord. unfold stack. apply stack_fold_good.
  - apply sorted_StronglySorted.
  - unfold sorted_events. now rewrite sorted_Permutation.
  - constructor.
  - intros e s _ _ sr c sc Hsr. inversion Hsr.
Qed.

(** A chain of intervals has no overlapping pair, in whatever order its
    cards are listed. *)
Lemma good_subrow_no_overlap (subrow subrow' : list Card) :
  good_subrow subrow -> subrow' ≡ₚ subrow -> no_overlap subrow'.
Proof.
  intros [Hchain Hwm] Hperm i j a b Hij Hi Hj.
  apply Permutation_inj in Hperm as [_ (f & Hf & Hlook)].
  rewrite Hlook in Hi, Hj.
  assert (Hfij : f i <> f j) by (intros Heq; now apply Hf in Heq).
  rewrite Forall_forall in Hwm.
  destruct (Hwm a (list_elem_of_lookup_2 _ _ _ Hi)) as (sa & Hsa & Hale & _).
  destruct (Hwm b (list_elem_of_lookup_2 _ _ _ Hj)) as (sb & Hsb & Hble & _).
  exists sa, sb. split; [exact Hsa|]. split; [exact Hsb|].
  unfold overlaps. apply andb_false_iff.
  destruct (decide (f i < f j)%nat) as [Hlt|Hge].
  - destruct (StronglySorted_lookup before subrow (f i) (f j) a b Hchain Hlt Hi Hj)
      as (sb' & Hsb' & Hend).
    right. apply Z.leb_gt. congruence.
  - destruct (StronglySorted_lookup before subrow (f j) (f i) b a Hchain
                ltac:(lia) Hj Hi) as (sa' & Hsa' & Hend).
    left. apply Z.leb_gt. congruence.
Qed.

Lemma lane_no_overlap (ex ew : gmap Z Z) (l : list TimelineEvent)
    (subrow : list Card) :
  Forall ordered_event l -> subrow ∈ lane ex ew l -> no_overlap subrow.
Proof.
  intros Hord Hin. unfold lane in Hin.
  change (map ?f ?l) with (f <$> l) in Hin.
  apply list_elem_of_fmap in Hin as (sr & -> & Hsr).
  pose proof (stack_good ex ew l Hord) as Hgood.
  rewrite Forall_forall in Hgood.
  apply (good_subrow_no_overlap sr); [now apply Hgood|].
  apply sorted_Permutation.
Qed.

End Stacking.

(* ===================================================================== *)
(** ** Horizontal layout: properties of a run *)
(* ===================================================================== *)

Section HorizontalRun.
Import Core Spec Horizontal.
Variable strftime : string -> Z -> string.
Variable csv_reader : string -> option (list string).

Lemma layout_fields (events : list TimelineEvent) (L : Layout) :
  horizontal_layout events = inr L ->
  timed_events events <> []
  /\ event_at_slot L = timed_events events
  /\ slot_of L = assign_slots (timed_events events)
  /\ slot_width L = slot_widths (timed_events events)
  /\ x_start L = pack 0 (slot_widths (timed_events events))
  /\ range_max_slot L
     = range_max_slots (assign_slots (timed_events events)) (timed_events events)
  /\ event_x L = final_x (slot_of L) (x_start L) (timed_events events)
  /\ event_w L = final_w (slot_of L) (range_max_slot L) (x_start L)
                   (slot_width L) (timed_events events)
  /\ layout L = map (fun '(entity, entity_list) =>
                       (entity, lane (event_x L) (event_w L) entity_list))
                  (group_events_by_entity events).
Proof.
  unfold horizontal_layout.
  destruct (timed_events events) as [|e l] eqn:Ht; [discriminate|].
  intros [= <-]. simpl. repeat split; congruence.
Qed.

Lemma layout_error (events : list TimelineEvent) (err : ValueError) :
  horizontal_layout events = inl err ->
  err = No_timed_events /\ timed_events events = [].
Proof.
  unfold horizontal_layout.
  destruct (timed_events events) as [|e l] eqn:Ht; [|discriminate].
  now intros [= <-].
Qed.

Lemma layout_succeeds (events : list TimelineEvent) :
  timed_events events <> [] -> exists L, horizontal_layout events = inr L.
Proof.
  unfold horizontal_layout.
  destruct (timed_events events) as [|e l] eqn:Ht; [congruence|].
  intros _. eauto.
Qed.

Lemma timed_events_nil (events : list TimelineEvent) :
  timed_events events = [] <-> forall e, e ∈ events -> start_dt e = None.
Proof.
  split.
  - intros Hnil e He. destruct (start_dt e) as [s|] eqn:Hs; [|reflexivity].
    assert (Hin : e ∈ timed_events events).
    { apply timed_events_elem_of. split; [exact He|].
      apply has_start_Some. eauto. }
    rewrite Hnil in Hin. inversion Hin.
  - intros Hall. destruct (timed_events events) as [|e l] eqn:Ht; [reflexivity|].
    assert (Hin : e ∈ timed_events events) by (rewrite Ht; now left).
    apply timed_events_elem_of in Hin as [He Hs].
    apply has_start_Some in Hs as [s Hs]. rewrite (Hall e He) in Hs.
    discriminate.
Qed.

(** The lanes of a layout, by entity. *)
Lemma layout_lane (events : list TimelineEvent) (L : Layout)
    (entity : string) (subrows : list (list Card)) :
  horizontal_layout events = inr L ->
  (entity, subrows) ∈ layout L ->
  subrows = lane (event_x L) (event_w L) (entity_events_of entity events)
  /\ entity_events_of entity events <> [].
Proof.
  intros HL Hin.
  destruct (layout_fields events L HL) as (_ & _ & _ & _ & _ & _ & _ & _ & Hlay).
  rewrite Hlay in Hin.
  change (map ?f ?l) with (f <$> l) in Hin.
  apply list_elem_of_fmap in Hin as ([k l] & [= -> ->] & Hkl).
  apply dict_get_elem_of in Hkl; [|apply group_keys_NoDup].
  pose proof (group_lane_events k events l Hkl) as ->.
  split; [reflexivity|].
  rewrite dict_get_group in Hkl. unfold extend in Hkl.
  destruct (entity_events_of k events); [discriminate|easy].
Qed.

Lemma lane_cards (ex ew : gmap Z Z) (l : list TimelineEvent)
    (subrow : list Card) (c : Card) :
  subrow ∈ lane ex ew l -> c ∈ subrow ->
  exists e, e ∈ l /\ has_start e = true /\ c = make_card ex ew e.
Proof.
  intros Hsr Hc. unfold lane in Hsr.
  change (map ?f ?l) with (f <$> l) in Hsr.
  apply list_elem_of_fmap in Hsr as (sr & -> & Hsr).
  rewrite sorted_Permutation in Hc.
  unfold stack in Hsr.
  assert (Hgen : forall l' subrows,
    (forall sr c, sr ∈ subrows -> c ∈ sr ->
       exists e, e ∈ l /\ has_start e = true /\ c = make_card ex ew e) ->
    (forall e, e ∈ l' -> e ∈ l) ->
    forall sr c, sr ∈ foldl (stack_step ex ew) subrows l' -> c ∈ sr ->
       exists e, e ∈ l /\ has_start e = true /\ c = make_card ex ew e).
  { induction l' as [|x l' IH]; intros subrows Hold Hsub sr0 c0; simpl; [apply Hold|].
    apply IH; [|intros e He; apply Hsub; now right].
    intros sr1 c1. unfold stack_step.
    destruct (start_dt x) as [s|] eqn:Hs; [|apply Hold].
    intros Hsr1 Hc1.
    destruct (place_elem_of _ c1 _ sr1 Hsr1 Hc1) as [->|(sr2 & Hsr2 & Hc2)].
    - exists x. split; [apply Hsub; now left|]. split; [|reflexivity].
      apply has_start_Some. eauto.
    - now apply (Hold sr2). }
  apply (Hgen (sorted_events l) [] ) with (sr := sr); try assumption.
  - intros sr0 c0 H0. inversion H0.
  - intros e He. unfold sorted_events in He. now rewrite sorted_Permutation in He.
Qed.

(** Ingestion numbers the rows, and normalises their ends. *)
Lemma read_events_unique_ids (df : DataFrame) (events : list TimelineEvent) :
  read_events_from_excel strftime csv_reader df = inr events ->
  unique_ids events.
Proof.
  unfold read_events_from_excel.
  destruct (missing_columns df); [|discriminate]. intros [= <-].
  unfold unique_ids. apply NoDup_alt. intros i j k Hi Hj.
  change (map ?f ?l) with (f <$> l) in Hi, Hj.
  rewrite list_lookup_fmap, list_lookup_imap in Hi, Hj.
  destruct (rows df !! i); [|discriminate].
  destruct (rows df !! j); [|discriminate].
  simpl in Hi, Hj. simplify_eq. lia.
Qed.

Lemma read_events_ordered (df : DataFrame) (events : list TimelineEvent) :
  Forall row_ok (rows df) ->
  read_events_from_excel strftime csv_reader df = inr events ->
  Forall ordered_event events.
Proof.
  unfold read_events_from_excel.
  destruct (missing_columns df); [|discriminate]. intros Hok [= <-].
  apply Forall_forall. intros e He.
  apply list_elem_of_lookup in He as [i Hi].
  rewrite list_lookup_imap in Hi.
  destruct (rows df !! i) as [row|] eqn:Hrow; [|discriminate].
  simpl in Hi. simplify_eq.
  apply event_of_row_ordered.
  rewrite Forall_forall in Hok. apply Hok.
  now apply list_elem_of_lookup_2 in Hrow.
Qed.

(** No overlap within a subrow, for any list of events whose stored ends do
    not precede their starts. *)
Lemma no_overlap_of_ordered (events : list TimelineEvent) (L : Layout)
    (entity : string) (subrows : list (list Card)) (subrow : list Card) :
  Forall ordered_event events -> horizontal_layout events = inr L ->
  (entity, subrows) ∈ layout L -> subrow ∈ subrows -> no_overlap subrow.
Proof.
  intros Hord HL Hlane Hsr.
  destruct (layout_lane events L entity subrows HL Hlane) as [-> _].
  apply (lane_no_overlap (event_x L) (event_w L)
           (entity_events_of entity events)); [|exact Hsr].
  rewrite Forall_forall in Hord. apply Forall_forall. intros e He.
  apply entity_events_of_elem_of in He as [He _]. now apply Hord.
Qed.

(** C1. In a run of the horizontal layout, for every entity lane and every
    two cards at different positions of one of its subrows, the closed
    intervals [[start, effective end]] of the two events do not overlap
    under the boundary-inclusive test, although the placement loop compares
    a candidate only with the last card of each subrow. *)
Theorem subrow_events_never_overlap (df : DataFrame) (L : Layout)
    (entity : string) (subrows : list (list Card)) (subrow : list Card) :
  Forall row_ok (rows df) ->
  generate_horizontal_timeline strftime csv_reader df = inr L ->
  (entity, subrows) ∈ layout L -> subrow ∈ subrows ->
  forall i j a b, i <> j -> subrow !! i = Some a -> subrow !! j = Some b ->
    exists sa sb,
      start_dt (card_event a) = Some sa /\ start_dt (card_event b) = Some sb
      /\ overlaps sa (effective_end_dt (card_event a))
           sb (effective_end_dt (card_event b)) = false.
Proof.
  intros Hok Hrun Hlane Hsr.
  unfold generate_horizontal_timeline in Hrun.
  destruct (read_events_from_excel strftime csv_reader df) as [?|events] eqn:Hread;
    [discriminate|].
  apply (no_overlap_of_ordered events L entity subrows subrow); try assumption.
  now apply (read_events_ordered df).
Qed.

End HorizontalRun.

Section HorizontalGeometry.
Import Core Spec Horizontal.

Lemma is_range_has_start (e : TimelineEvent) :
  is_range e = true -> has_start e = true.
Proof. unfold is_range, has_start. destruct (start_dt e); easy. Qed.

(** Slot, x and width of a timed event of the input. *)
Lemma geometry_of (events : list TimelineEvent) (L : Layout) (e : TimelineEvent) :
  unique_ids events -> horizontal_layout events = inr L ->
  e ∈ events -> has_start e = true ->
  exists i, event_at_slot L !! i = Some e
    /\ slot_of L !! event_id e = Some i
    /\ event_x L !! event_id e = Some (x_start L !!! i)
    /\ event_w L !! event_id e
       = Some (final_width (slot_of L) (range_max_slot L) (x_start L)
                 (slot_width L) e).
Proof.
  intros Hnd HL He Hs.
  destruct (layout_fields events L HL)
    as (_ & Hat & Hslot & _ & _ & _ & Hx & Hw & _).
  pose proof (timed_events_unique_ids events Hnd) as HndT.
  assert (HeT : e ∈ timed_events events) by now apply timed_events_elem_of.
  destruct (proj1 (list_elem_of_lookup _ _) HeT) as [i Hi].
  exists i. rewrite Hat, Hslot.
  pose proof (assign_slots_lookup _ i e HndT Hi) as Hsl.
  split; [exact Hi|]. split; [exact Hsl|]. split.
  - rewrite Hx. unfold final_x.
    rewrite (fold_insert_lookup
               (fun e => x_start L !!! (slot_of L !!! event_id e)) _ e HndT HeT).
    rewrite Hslot. unfold lookup_total at 2, map_lookup_total.
    now rewrite Hsl.
  - rewrite Hw. unfold final_w.
    rewrite (fold_insert_lookup
               (final_width (slot_of L) (range_max_slot L) (x_start L)
                  (slot_width L)) _ e HndT HeT).
    now rewrite Hslot.
Qed.

Lemma range_span (events : list TimelineEvent) (L : Layout) (r : TimelineEvent) :
  unique_ids events -> horizontal_layout events = inr L ->
  r ∈ events -> is_range r = true ->
  range_max_slot L !!! event_id r
  = span_slot (slot_of L) (event_at_slot L) r.
Proof.
  intros Hnd HL Hr Hrange.
  destruct (layout_fields events L HL)
    as (_ & Hat & Hslot & _ & _ & Hmax & _).
  rewrite Hmax, Hat, Hslot. unfold range_max_slots.
  unfold lookup_total at 1, map_lookup_total.
  rewrite (fold_insert_lookup
             (span_slot (assign_slots (timed_events events)) (timed_events events))
             (List.filter is_range (timed_events events)) r); [reflexivity| |].
  - apply unique_ids_filter. now apply timed_events_unique_ids.
  - apply filter_elem_of. split; [|exact Hrange].
    apply timed_events_elem_of. split; [exact Hr|].
    now apply is_range_has_start.
Qed.

Lemma slot_lookup_total (L : Layout) (e : TimelineEvent) (i : nat) :
  slot_of L !! event_id e = Some i -> slot_of L !!! event_id e = i.
Proof.
  intros H. unfold lookup_total, map_lookup_total. now rewrite H.
Qed.

(** Right edge of a slot. *)
Lemma right_edge_mono (events : list TimelineEvent) (L : Layout) (i j : nat) :
  horizontal_layout events = inr L ->
  (i <= j)%nat -> (j < length (event_at_slot L))%nat ->
  x_start L !!! i + slot_width L !!! i <= x_start L !!! j + slot_width L !!! j.
Proof.
  intros HL Hij Hj.
  destruct (layout_fields events L HL) as (_ & Hat & _ & Hw & Hx & _).
  rewrite Hx, Hw. apply pack_right_edge_mono; [apply slot_widths_nonneg|exact Hij|].
  rewrite slot_widths_length, <- Hat. exact Hj.
Qed.

(** The span slot of a range is a slot of the axis, at or after every slot
    whose event starts within the range. *)
Lemma span_slot_bounds (events : list TimelineEvent) (L : Layout)
    (r : TimelineEvent) (ir : nat) :
  unique_ids events -> horizontal_layout events = inr L ->
  event_at_slot L !! ir = Some r -> slot_of L !! event_id r = Some ir ->
  (ir <= span_slot (slot_of L) (event_at_slot L) r < length (event_at_slot L))%nat
  /\ forall e ie, event_at_slot L !! ie = Some e ->
       slot_of L !! event_id e = Some ie -> starts_within r e ->
       (ie <= span_slot (slot_of L) (event_at_slot L) r)%nat.
Proof.
  intros Hnd HL Hir Hsr.
  destruct (layout_fields events L HL) as (_ & Hat & Hslot & _).
  pose proof (timed_events_unique_ids events Hnd) as HndT.
  split; [split|].
  - rewrite <- (slot_lookup_total L r ir Hsr) at 1. apply span_slot_ge_own.
  - destruct (span_slot_cases (slot_of L) (event_at_slot L) r)
      as [->|(e & He & _ & ->)].
    + rewrite (slot_lookup_total L r ir Hsr). now apply lookup_lt_Some in Hir.
    + apply list_elem_of_lookup in He as [ie Hie].
      rewrite Hat in Hie. rewrite Hslot.
      rewrite (assign_slots_lookup_total _ ie e HndT Hie).
      rewrite Hat. now apply lookup_lt_Some in Hie.
  - intros e ie Hie Hse Hin.
    rewrite <- (slot_lookup_total L e ie Hse).
    apply span_slot_ge; [|exact Hin].
    now apply list_elem_of_lookup_2 in Hie.
Qed.

End HorizontalGeometry.

Section Coverage.
Import Core Spec Horizontal.

(** The far edge of a range reaches the right edge of its span slot. *)
Lemma range_far_edge (events : list TimelineEvent) (L : Layout)
    (r : TimelineEvent) :
  unique_ids events -> horizontal_layout events = inr L ->
  r ∈ events -> is_range r = true ->
  exists ir fr,
    event_at_slot L !! ir = Some r /\ slot_of L !! event_id r = Some ir
    /\ far_edge L r = Some fr
    /\ event_w L !! event_id r
       = Some (Z.max (estimated_width r) (fr - x_start L !!! ir))
    /\ fr = Z.max (x_start L !!! ir + estimated_width r)
              (x_start L !!! span_slot (slot_of L) (event_at_slot L) r
               + slot_width L !!! span_slot (slot_of L) (event_at_slot L) r).
Proof.
  intros Hnd HL Hr Hrange.
  destruct (geometry_of events L r Hnd HL Hr (is_range_has_start r Hrange))
    as (ir & Hir & Hsr & Hx & Hw).
  destruct (layout_fields events L HL) as (_ & Hat & _ & Hsw & _).
  exists ir. eexists. split; [exact Hir|]. split; [exact Hsr|].
  unfold far_edge. rewrite Hx, Hw. unfold final_width.
  rewrite Hrange, (range_span events L r Hnd HL Hr Hrange).
  rewrite (slot_lookup_total L r ir Hsr).
  assert (Hwr : slot_width L !!! ir = estimated_width r).
  { rewrite Hsw. apply slot_widths_lookup. now rewrite <- Hat. }
  rewrite Hwr. split; [reflexivity|]. split; [f_equal; lia|lia].
Qed.

(** Far edge of an event that is not a range. *)
Lemma point_far_edge (events : list TimelineEvent) (L : Layout)
    (e : TimelineEvent) :
  unique_ids events -> horizontal_layout events = inr L ->
  e ∈ events -> has_start e = true -> is_range e = false ->
  exists ie, event_at_slot L !! ie = Some e /\ slot_of L !! event_id e = Some ie
    /\ far_edge L e = Some (x_start L !!! ie + estimated_width e).
Proof.
  intros Hnd HL He Hs Hpoint.
  destruct (geometry_of events L e Hnd HL He Hs) as (ie & Hie & Hse & Hx & Hw).
  destruct (layout_fields events L HL) as (_ & Hat & _ & Hsw & _).
  exists ie. split; [exact Hie|]. split; [exact Hse|].
  unfold far_edge. rewrite Hx, Hw. unfold final_width.
  rewrite Hpoint, (slot_lookup_total L e ie Hse).
  rewrite Hsw. erewrite slot_widths_lookup; [reflexivity|]. now rewrite <- Hat.
Qed.

Lemma starts_within_has_start (r e : TimelineEvent) :
  starts_within r e -> has_start e = true.
Proof.
  intros (rs & re & es & _ & _ & Hes & _). apply has_start_Some. eauto.
Qed.

(** The far edge of a range is at or beyond the right edge of the slot of
    every event that starts within it. *)
Lemma range_covers_slot (events : list TimelineEvent) (L : Layout)
    (r e : TimelineEvent) :
  unique_ids events -> horizontal_layout events = inr L ->
  r ∈ events -> e ∈ events -> is_range r = true -> starts_within r e ->
  exists fr x, far_edge L r = Some fr /\ event_x L !! event_id e = Some x
               /\ x + estimated_width e <= fr.
Proof.
  intros Hnd HL Hr He Hrange Hin.
  destruct (range_far_edge events L r Hnd HL Hr Hrange)
    as (ir & fr & Hir & Hsr & Hfr & _ & Hval).
  destruct (geometry_of events L e Hnd HL He (starts_within_has_start r e Hin))
    as (ie & Hie & Hse & Hx & _).
  destruct (span_slot_bounds events L r ir Hnd HL Hir Hsr) as [[_ Hlt] Hge].
  specialize (Hge e ie Hie Hse Hin).
  pose proof (right_edge_mono events L ie _ HL Hge Hlt) as Hmono.
  destruct (layout_fields events L HL) as (_ & Hat & _ & Hsw & _).
  assert (Hwe : slot_width L !!! ie = estimated_width e).
  { rewrite Hsw. apply slot_widths_lookup. now rewrite <- Hat. }
  exists fr, (x_start L !!! ie). split; [exact Hfr|]. split; [exact Hx|].
  rewrite Hwe in Hmono. lia.
Qed.

(** C2 (amended). For every range r and every timed event e whose start
    lies within [[start r, end r]]: the far edge of r is at or beyond the
    right edge of e's slot, x(e) plus the text-estimated width of e; it is
    at or beyond e's final far edge x(e) + width(e) whenever e's effective
    end lies within the range too (in particular for every point event);
    and the width of r is never smaller than its own text-estimated
    width. *)
Theorem range_covers_contained_events :
  range_coverage (fun r e => starts_within r e /\ ends_within r e)
  /\ (forall events L r e,
        unique_ids events -> horizontal_layout events = inr L ->
        r ∈ events -> e ∈ events -> is_range r = true -> starts_within r e ->
        exists fr x, far_edge L r = Some fr /\ event_x L !! event_id e = Some x
                     /\ x + estimated_width e <= fr)
  /\ (forall events L r,
        unique_ids events -> horizontal_layout events = inr L ->
        r ∈ events -> is_range r = true ->
        exists w, event_w L !! event_id r = Some w /\ estimated_width r <= w).
Proof.
  split; [|split].
  - intros events L r e Hnd HL Hr He Hrange [Hin Hend].
    destruct (range_far_edge events L r Hnd HL Hr Hrange)
      as (ir & fr & Hir & Hsr & Hfr & _ & Hval).
    destruct (span_slot_bounds events L r ir Hnd HL Hir Hsr) as [[_ Hlt] Hge].
    exists fr. destruct (is_range e) eqn:Hkind.
    + destruct (range_far_edge events L e Hnd HL He Hkind)
        as (ie & fe & Hie & Hse & Hfe & _ & Hvale).
      exists fe. split; [exact Hfr|]. split; [exact Hfe|].
      pose proof (Hge e ie Hie Hse Hin) as Hie_le.
      pose proof (right_edge_mono events L ie _ HL Hie_le Hlt) as Hm1.
      destruct (layout_fields events L HL) as (_ & Hat & _ & Hsw & _).
      assert (Hwe : slot_width L !!! ie = estimated_width e).
      { rewrite Hsw. apply slot_widths_lookup. now rewrite <- Hat. }
      rewrite Hwe in Hm1.
      assert (Hspan : (span_slot (slot_of L) (event_at_slot L) e
                       <= span_slot (slot_of L) (event_at_slot L) r)%nat).
      { destruct (span_slot_cases (slot_of L) (event_at_slot L) e)
          as [->|(e' & He' & Hin' & ->)].
        - now rewrite (slot_lookup_total L e ie Hse).
        - apply list_elem_of_lookup in He' as [ie' Hie'].
          assert (He'ev : e' ∈ events /\ has_start e' = true).
          { apply timed_events_elem_of. rewrite <- Hat.
            now apply list_elem_of_lookup_2 in Hie'. }
          destruct (geometry_of events L e' Hnd HL (proj1 He'ev) (proj2 He'ev))
            as (k & Hk & Hsk & _).
          rewrite (slot_lookup_total L e' k Hsk).
          apply (Hge e' k Hk Hsk).
          destruct Hin as (rs & re & es & Hrs & Hre & Hes & Hb).
          destruct Hin' as (es0 & ee & es' & Hes0 & Hee & Hes' & Hb').
          destruct Hend as (re0 & Hre0 & Hle).
          unfold effective_end_dt in Hle. rewrite Hes0, Hee in Hle.
          exists rs, re, es'. repeat split; try assumption; simplify_eq; lia. }
      pose proof (right_edge_mono events L _ _ HL Hspan Hlt) as Hm2.
      lia.
    + destruct (point_far_edge events L e Hnd HL He
                  (starts_within_has_start r e Hin) Hkind)
        as (ie & Hie & Hse & Hfe).
      eexists. split; [exact Hfr|]. split; [exact Hfe|].
      pose proof (Hge e ie Hie Hse Hin) as Hie_le.
      pose proof (right_edge_mono events L ie _ HL Hie_le Hlt) as Hm1.
      destruct (layout_fields events L HL) as (_ & Hat & _ & Hsw & _).
      assert (Hwe : slot_width L !!! ie = estimated_width e).
      { rewrite Hsw. apply slot_widths_lookup. now rewrite <- Hat. }
      rewrite Hwe in Hm1. lia.
  - apply range_covers_slot.
  - intros events L r Hnd HL Hr Hrange.
    destruct (range_far_edge events L r Hnd HL Hr Hrange)
      as (ir & fr & _ & _ & _ & Hw & _).
    eexists. split; [exact Hw|]. lia.
Qed.

End Coverage.

(** On [nested_ranges] the short range (0) reaches 384 while the long
    range (1), which starts inside it, reaches 588: coverage of every
    event that merely starts within a range fails. *)
Lemma range_coverage_counterexample :
  ~ Spec.range_coverage Spec.starts_within.
Proof.
  intros Hcov.
  destruct (Hcov Examples.nested_ranges
              (Examples.layout_of Examples.nested_ranges)
              (Examples.ev 0 (Some 1) (Some 5) ["A"%string])
              (Examples.ev 1 (Some 4) (Some 100) ["A"%string]))
    as (fr & fe & Hfr & Hfe & Hle).
  - by_compute.
  - vm_compute. reflexivity.
  - in_list.
  - in_list.
  - reflexivity.
  - exists 1, 5, 4. repeat split; try reflexivity; lia.
  - vm_compute in Hfr, Hfe. simplify_eq. lia.
Qed.

Lemma range_covers_contained_events_witness :
  exists fr fe,
    Spec.far_edge
      (Examples.layout_of Examples.nested_ranges) (Examples.ev 1 (Some 4) (Some 100) ["A"%string]) = Some fr
    /\ Spec.far_edge
      (Examples.layout_of Examples.nested_ranges) (Examples.ev 2 (Some 50) None ["A"%string]) = Some fe
    /\ fe <= fr.
Proof.
  apply (proj1 range_covers_contained_events Examples.nested_ranges).
  - by_compute.
  - vm_compute. reflexivity.
  - in_list.
  - in_list.
  - reflexivity.
  - split.
    + exists 4, 100, 50. repeat split; try reflexivity; lia.
    + exists 100. split; [reflexivity|]. vm_compute. discriminate.
Defined.

Section Packing.
Import Core Spec Horizontal.

Lemma slot_key_id (a b : TimelineEvent) :
  slot_key a = slot_key b -> event_id a = event_id b.
Proof. unfold slot_key. now intros [= _ _ ?]. Qed.

(** A key of [slot_of] names the event of the input that sits at that slot. *)
Lemma slot_holds_event (events : list TimelineEvent) (L : Layout)
    (e : TimelineEvent) (s : nat) :
  unique_ids events -> horizontal_layout events = inr L -> e ∈ events ->
  slot_of L !! event_id e = Some s -> event_at_slot L !! s = Some e.
Proof.
  intros Hnd HL He Hs.
  destruct (layout_fields events L HL) as (_ & Hat & Hslot & _).
  rewrite Hslot in Hs. rewrite Hat.
  destruct (assign_slots_inv _ _ _ Hs) as (e' & He' & Hid).
  assert (e' ∈ events).
  { apply list_elem_of_lookup_2 in He'.
    now apply timed_events_elem_of in He' as [? _]. }
  now rewrite <- (unique_ids_inj events e' e Hnd).
Qed.

Lemma slot_order_iff (events : list TimelineEvent) (L : Layout)
    (e1 e2 : TimelineEvent) (s1 s2 : nat) :
  unique_ids events -> horizontal_layout events = inr L ->
  e1 ∈ events -> e2 ∈ events ->
  slot_of L !! event_id e1 = Some s1 -> slot_of L !! event_id e2 = Some s2 ->
  (s1 < s2)%nat <-> Py.lex_ltb (slot_key e1) (slot_key e2) = true.
Proof.
  intros Hnd HL He1 He2 Hs1 Hs2.
  pose proof (slot_holds_event events L e1 s1 Hnd HL He1 Hs1) as H1.
  pose proof (slot_holds_event events L e2 s2 Hnd HL He2 Hs2) as H2.
  destruct (layout_fields events L HL) as (_ & Hat & _).
  pose proof (sorted_StronglySorted slot_key (List.filter has_start events))
    as Hsorted.
  fold (timed_events events) in Hsorted. rewrite <- Hat in Hsorted.
  split.
  - intros Hlt.
    pose proof (StronglySorted_lookup _ _ s1 s2 e1 e2 Hsorted Hlt H1 H2) as Hle.
    cbv beta in Hle.
    destruct (Py.lex_ltb (slot_key e1) (slot_key e2)) eqn:Hk; [reflexivity|].
    exfalso. pose proof (lex_ltb_connex _ _ Hk Hle) as Heq.
    apply slot_key_id in Heq.
    pose proof (unique_ids_inj events e1 e2 Hnd He1 He2 Heq). subst e2.
    rewrite Hs1 in Hs2. simplify_eq. lia.
  - intros Hk.
    destruct (lt_eq_lt_dec s1 s2) as [[Hlt|Heq]|Hgt]; [exact Hlt| |].
    + subst s2. rewrite H1 in H2. simplify_eq.
      now rewrite lex_ltb_irrefl in Hk.
    + pose proof (StronglySorted_lookup _ _ s2 s1 e2 e1 Hsorted Hgt H2 H1) as Hle.
      cbv beta in Hle. congruence.
Qed.

(** C3 (amended). Slot indices are assigned in strictly increasing order of
    the key (start, end-is-absent flag, id) over all timed events: events
    with a stored end come before events without one.  The packed X starts
    are strictly increasing in the slot index, and the X start of slot i is
    the sum of the widths of the prior slots plus 24 per prior slot. *)
Theorem packing_monotonicity :
  slots_follow slot_key
  /\ forall events L,
       horizontal_layout events = inr L ->
       (forall e, unique_ids events -> e ∈ events -> start_dt e <> None ->
          exists s, slot_of L !! event_id e = Some s
                    /\ event_at_slot L !! s = Some e)
       /\ length (x_start L) = length (event_at_slot L)
       /\ (forall i j xi xj, (i < j)%nat ->
             x_start L !! i = Some xi -> x_start L !! j = Some xj -> xi < xj)
       /\ (forall i xi, x_start L !! i = Some xi ->
             xi = foldr Z.add 0 (take i (slot_width L)) + 24 * Z.of_nat i).
Proof.
  split.
  - intros events L e1 e2 s1 s2 Hnd HL He1 He2 Hs1 Hs2 Hk.
    now apply (slot_order_iff events L e1 e2 s1 s2 Hnd HL He1 He2 Hs1 Hs2).
  - intros events L HL.
    destruct (layout_fields events L HL) as (_ & Hat & _ & Hsw & Hx & _).
    assert (Hlen : length (x_start L) = length (event_at_slot L)).
    { now rewrite Hx, pack_length, slot_widths_length, Hat. }
    split; [|split; [exact Hlen|split]].
    + intros e Hnd He Hs.
      destruct (geometry_of events L e Hnd HL He) as (i & Hi & Hsl & _).
      { unfold has_start. now destruct (start_dt e). }
      eauto.
    + intros i j xi xj Hij Hi Hj.
      apply list_lookup_total_correct in Hi as <-.
      pose proof (lookup_lt_Some _ _ _ Hj) as Hjlt.
      apply list_lookup_total_correct in Hj as <-.
      rewrite Hx. apply pack_strict_mono; [apply slot_widths_nonneg|exact Hij|].
      rewrite Hx, pack_length in Hjlt. exact Hjlt.
    + intros i xi Hi.
      pose proof (lookup_lt_Some _ _ _ Hi) as Hilt.
      rewrite Hx, pack_length in Hilt.
      rewrite Hx, pack_lookup in Hi by exact Hilt.
      rewrite Hsw. unfold gap in Hi. simplify_eq. lia.
Qed.

(** C8. The layout stops with the no-timed-events error exactly when no
    event of the normalised list has a start, and it has no other error.
    Otherwise it produces a layout in which the events without a start
    have no slot, no x, no width and no card, and every event with a start
    has all of them. *)
Theorem empty_result_error (events : list TimelineEvent) :
  (horizontal_layout events = inl No_timed_events
   <-> forall e, e ∈ events -> start_dt e = None)
  /\ (forall err, horizontal_layout events = inl err -> err = No_timed_events)
  /\ ((exists e, e ∈ events /\ start_dt e <> None) ->
      exists L, horizontal_layout events = inr L)
  /\ (forall L, horizontal_layout events = inr L ->
        (forall e, e ∈ event_at_slot L <-> e ∈ events /\ start_dt e <> None)
        /\ (forall k, is_Some (event_x L !! k)
                      <-> exists e, e ∈ events /\ start_dt e <> None
                                    /\ event_id e = k)
        /\ (forall k, is_Some (event_w L !! k)
                      <-> exists e, e ∈ events /\ start_dt e <> None
                                    /\ event_id e = k)
        /\ (forall entity subrows subrow c,
              (entity, subrows) ∈ layout L -> subrow ∈ subrows -> c ∈ subrow ->
              card_event c ∈ events /\ start_dt (card_event c) <> None)).
Proof.
  assert (Hhs : forall e, has_start e = true <-> start_dt e <> None).
  { intros e. unfold has_start. destruct (start_dt e); split; congruence. }
  split; [|split; [|split]].
  - rewrite <- timed_events_nil. split.
    + intros H. now apply layout_error in H.
    + intros H. unfold horizontal_layout. now rewrite H.
  - intros err H. now apply layout_error in H.
  - intros (e & He & Hs). apply layout_succeeds.
    intros Hnil. apply Hs. now apply (proj1 (timed_events_nil events)).
  - intros L HL.
    destruct (layout_fields events L HL)
      as (_ & Hat & _ & _ & _ & _ & Hx & Hw & _).
    assert (Hkeys : forall k,
      (exists e, e ∈ timed_events events /\ event_id e = k)
      <-> exists e, e ∈ events /\ start_dt e <> None /\ event_id e = k).
    { intros k. split; intros (e & He & Hk).
      - apply timed_events_elem_of in He as [He Hs]. exists e.
        rewrite <- Hhs. auto.
      - destruct Hk as [Hs Hk]. exists e. split; [|exact Hk].
        apply timed_events_elem_of. rewrite Hhs. auto. }
    split; [|split; [|split]].
    + intros e. rewrite Hat, timed_events_elem_of, Hhs. reflexivity.
    + intros k. rewrite Hx. unfold final_x.
      rewrite fold_insert_is_Some. apply Hkeys.
    + intros k. rewrite Hw. unfold final_w.
      rewrite fold_insert_is_Some. apply Hkeys.
    + intros entity subrows subrow c Hlane Hsr Hc.
      destruct (layout_lane events L entity subrows HL Hlane) as [-> _].
      destruct (lane_cards _ _ _ subrow c Hsr Hc) as (e & He & Hs & ->).
      apply entity_events_of_elem_of in He as [He _].
      simpl. rewrite <- Hhs. auto.
Qed.

End Packing.

(** On [zero_length_first] the event whose end equals its start (id 0, not
    a range) takes slot 0 and the range (id 1) slot 1, although the key
    (start, range before point, id) orders the range first. *)
Lemma slot_order_counterexample : ~ Spec.slots_follow Spec.range_first_key.
Proof.
  intros Hall.
  pose proof (Hall Examples.zero_length_first
                (Examples.layout_of Examples.zero_length_first)
                (Examples.ev 1 (Some 9) (Some 11) ["A"%string])
                (Examples.ev 0 (Some 9) (Some 9) ["A"%string])
                1%nat 0%nat) as H.
  assert (1 < 0)%nat; [|lia].
  apply H.
  - by_compute.
  - vm_compute. reflexivity.
  - in_list.
  - in_list.
  - vm_compute. reflexivity.
  - vm_compute. reflexivity.
  - vm_compute. reflexivity.
Qed.

Lemma packing_monotonicity_witness :
  Spec.unique_ids Examples.zero_length_first
  /\ Py.lex_ltb (Horizontal.slot_key (Examples.ev 0 (Some 9) (Some 9) ["A"%string]))
       (Horizontal.slot_key (Examples.ev 1 (Some 9) (Some 11) ["A"%string])) = true
  /\ (0 < 1)%nat.
Proof.
  split; [by_compute|]. split; [vm_compute; reflexivity|].
  apply (proj1 packing_monotonicity Examples.zero_length_first
           (Examples.layout_of Examples.zero_length_first)
           (Examples.ev 0 (Some 9) (Some 9) ["A"%string])
           (Examples.ev 1 (Some 9) (Some 11) ["A"%string])).
  - by_compute.
  - vm_compute. reflexivity.
  - in_list.
  - in_list.
  - vm_compute. reflexivity.
  - vm_compute. reflexivity.
  - vm_compute. reflexivity.
Defined.

Lemma empty_result_error_witness :
  (exists L, Horizontal.horizontal_layout Examples.with_undated = inr L)
  /\ Horizontal.horizontal_layout [Examples.undated_event]
     = inl Horizontal.No_timed_events.
Proof.
  split.
  - apply (proj1 (proj2 (proj2 (empty_result_error Examples.with_undated)))).
    exists (Examples.ev 3 (Some 12) None ["A"%string]).
    split; [in_list|discriminate].
  - apply (proj1 (empty_result_error [Examples.undated_event])).
    intros e He. apply list_elem_of_singleton in He. now subst.
Defined.

Lemma subrow_events_never_overlap_witness :
  exists a b sa sb,
    Examples.sheet_subrow !! 0%nat = Some a
    /\ Examples.sheet_subrow !! 1%nat = Some b
    /\ Core.start_dt (Horizontal.card_event a) = Some sa
    /\ Core.start_dt (Horizontal.card_event b) = Some sb
    /\ Core.overlaps sa (Core.effective_end_dt (Horizontal.card_event a))
         sb (Core.effective_end_dt (Horizontal.card_event b)) = false.
Proof.
  destruct (Examples.sheet_subrow !! 0%nat) as [a|] eqn:Ha;
    [|vm_compute in Ha; discriminate].
  destruct (Examples.sheet_subrow !! 1%nat) as [b|] eqn:Hb;
    [|vm_compute in Hb; discriminate].
  destruct (subrow_events_never_overlap Examples.no_strftime Examples.no_csv
              Examples.sheet Examples.sheet_layout "X" Examples.sheet_lane
              Examples.sheet_subrow) with (i := 0%nat) (j := 1%nat) (a := a) (b := b)
    as (sa & sb & H1 & H2 & H3).
  - repeat constructor; vm_compute; congruence.
  - vm_compute. reflexivity.
  - in_list.
  - in_list.
  - lia.
  - exact Ha.
  - exact Hb.
  - exists a, b, sa, sb. auto.
Defined.

(* ===================================================================== *)
(** ** Horizontal layout: independence of the input order *)
(* ===================================================================== *)

Section Determinism.
Import Core Spec Horizontal.

Lemma filter_Permutation {A} (f : A -> bool) (l l' : list A) :
  l ≡ₚ l' -> List.filter f l ≡ₚ List.filter f l'.
Proof.
  induction 1 as [|x l l' Hp IH|x y l|l l' l'' _ IH1 _ IH2]; simpl.
  - reflexivity.
  - destruct (f x); [now constructor|exact IH].
  - destruct (f x), (f y); try reflexivity. apply perm_swap.
  - now rewrite IH1.
Qed.

Lemma timed_events_order_independent (events events' : list TimelineEvent) :
  events ≡ₚ events' -> unique_ids events ->
  timed_events events = timed_events events'.
Proof.
  intros Hp Hnd. unfold timed_events. apply sorted_unique.
  - now apply filter_Permutation.
  - intros x y Hx Hy Hk.
    apply filter_elem_of in Hx as [Hx _]. apply filter_elem_of in Hy as [Hy _].
    apply (unique_ids_inj events x y Hnd Hx Hy). now apply slot_key_id.
Qed.

Lemma sort_key_id (a b : TimelineEvent) :
  sort_key a = sort_key b -> event_id a = event_id b.
Proof. unfold sort_key. now intros [= _ _ _ ?]. Qed.

Lemma lane_order_independent (ex ew : gmap Z Z) (events l l' : list TimelineEvent) :
  unique_ids events -> (forall e, e ∈ l -> e ∈ events) -> l ≡ₚ l' ->
  lane ex ew l = lane ex ew l'.
Proof.
  intros Hnd Hsub Hp. unfold lane, stack, sorted_events.
  rewrite (sorted_unique sort_key l l' Hp); [reflexivity|].
  intros x y Hx Hy Hk.
  apply (unique_ids_inj events x y Hnd (Hsub x Hx) (Hsub y Hy)).
  now apply sort_key_id.
Qed.

(** C9. The horizontal layout does not depend on the order of the
    normalised event list: for a reordering of a list with unique ids, both
    runs fail alike or both succeed with the same slot, the same x and the
    same width for every event id, and, for every entity, the same lane,
    subrow by subrow and card by card. *)
Theorem layout_order_independent (events events' : list TimelineEvent) :
  events ≡ₚ events' -> unique_ids events ->
  match horizontal_layout events, horizontal_layout events' with
  | inl err, inl err' => err = err'
  | inr L, inr L' =>
      slot_of L = slot_of L' /\ event_x L = event_x L' /\ event_w L = event_w L'
      /\ forall entity,
           dict_get entity (layout L) = dict_get entity (layout L')
  | _, _ => False
  end.
Proof.
  intros Hp Hnd.
  pose proof (timed_events_order_independent events events' Hp Hnd) as Ht.
  unfold horizontal_layout. rewrite <- Ht.
  destruct (timed_events events) as [|e0 l0] eqn:Htimed; [reflexivity|].
  simpl. repeat split.
  intros entity. rewrite !dict_get_map, !dict_get_group.
  pose proof (entity_events_of_Permutation entity events events' Hp) as Hlane.
  unfold extend.
  destruct (entity_events_of entity events) as [|a l] eqn:Hl.
  - apply Permutation_nil in Hlane. now rewrite Hlane.
  - destruct (entity_events_of entity events') as [|a' l'] eqn:Hl'.
    + symmetry in Hlane. now apply Permutation_nil in Hlane.
    + simpl. f_equal.
      apply (lane_order_independent _ _ events); [exact Hnd| |exact Hlane].
      intros e He. rewrite <- Hl in He.
      now apply entity_events_of_elem_of in He as [? _].
Qed.

End Determinism.

Lemma layout_order_independent_witness :
  Examples.with_undated ≡ₚ Examples.with_undated_reordered
  /\ Spec.unique_ids Examples.with_undated
  /\ Horizontal.event_x (Examples.layout_of Examples.with_undated)
     = Horizontal.event_x (Examples.layout_of Examples.with_undated_reordered).
Proof.
  assert (Hp : Examples.with_undated ≡ₚ Examples.with_undated_reordered).
  { unfold Examples.with_undated, Examples.with_undated_reordered.
    etransitivity; [apply Permutation_cons_append|]. simpl.
    etransitivity; [apply Permutation_cons_append|]. simpl.
    apply perm_swap. }
  assert (Hnd : Spec.unique_ids Examples.with_undated) by by_compute.
  split; [exact Hp|]. split; [exact Hnd|].
  pose proof (layout_order_independent _ _ Hp Hnd) as H.
  unfold Examples.layout_of.
  destruct (Horizontal.horizontal_layout Examples.with_undated),
    (Horizontal.horizontal_layout Examples.with_undated_reordered);
    try contradiction; [reflexivity|].
  apply H.
Defined.

(* ===================================================================== *)
(** ** Entity colours *)
(* ===================================================================== *)

Section Colours.
Import Core Spec.

Lemma codes_inj (s t : string) : Py.codes s = Py.codes t -> s = t.
Proof.
  revert t. induction s as [|c s IH]; intros [|d t]; simpl; try easy.
  intros [= Hc Hs]. f_equal; [|now apply IH].
  unfold Py.code in Hc. apply Nat2Z.inj in Hc.
  rewrite <- (ascii_nat_embedding c), <- (ascii_nat_embedding d).
  now rewrite Hc.
Qed.

(** [ordered]: the distinct names, sorted by case-folded name. *)
Lemma ordered_elem_of (l : list string) (x : string) : x ∈ ordered l <-> x ∈ l.
Proof.
  unfold ordered. rewrite dedup_elem_of, sorted_Permutation.
  pose proof (not_elem_of_empty (C := gset string) x). tauto.
Qed.

Lemma ordered_NoDup (l : list string) : NoDup (ordered l).
Proof. apply dedup_NoDup. Qed.

Lemma ordered_sorted (l : list string) :
  StronglySorted
    (fun a b => Py.lex_ltb (casefold_key b) (casefold_key a) = false)
    (ordered l).
Proof. apply dedup_sorted, (sorted_StronglySorted casefold_key). Qed.

Lemma ordered_depends_on_set (l1 l2 : list string) :
  (forall x, x ∈ l1 <-> x ∈ l2) -> case_distinct l1 ->
  ordered l1 = ordered l2.
Proof.
  intros Hset Hdist.
  apply (StronglySorted_unique_strong
           (fun a b => Py.lex_ltb (casefold_key b) (casefold_key a) = false)).
  - intros x y Hx Hy H1 H2.
    rewrite ordered_elem_of in Hx. rewrite ordered_elem_of, <- Hset in Hy.
    apply (Hdist x y Hx Hy). now apply lex_ltb_connex.
  - apply ordered_sorted.
  - apply ordered_sorted.
  - apply NoDup_Permutation; [apply ordered_NoDup..|].
    intros x. rewrite !ordered_elem_of. apply Hset.
Qed.

(** The dictionary built from an ordered list of names. *)
Lemma colors_snoc (names : list string) (entity : string) :
  foldl (fun colors '(index, entity) => <[ entity := color_of_index index ]> colors)
    (∅ : gmap string string)
    (imap (fun index entity => (index, entity)) (names ++ [entity]))
  = <[ entity := color_of_index (length names) ]>
      (foldl (fun colors '(index, entity) =>
                <[ entity := color_of_index index ]> colors)
         ∅ (imap (fun index entity => (index, entity)) names)).
Proof. rewrite imap_app, foldl_app. simpl. now rewrite Nat.add_0_r. Qed.

Lemma colors_lookup (names : list string) (index : nat) (entity : string) :
  NoDup names -> names !! index = Some entity ->
  foldl (fun colors '(index, entity) => <[ entity := color_of_index index ]> colors)
    (∅ : gmap string string) (imap (fun index entity => (index, entity)) names)
  !! entity = Some (color_of_index index).
Proof.
  revert index entity.
  induction names as [|x names IH] using rev_ind; intros index entity Hnd Hi.
  - discriminate.
  - rewrite colors_snoc. apply NoDup_app in Hnd as (Hnd & Hdisj & _).
    destruct (decide (index < length names)%nat) as [Hlt|Hge].
    + rewrite lookup_app_l in Hi by exact Hlt.
      rewrite lookup_insert_ne; [now apply IH|].
      intros ->. apply (Hdisj entity); [|now left].
      now apply list_elem_of_lookup_2 in Hi.
    + rewrite lookup_app_r in Hi by lia.
      destruct (index - length names)%nat eqn:Hd; simpl in Hi; [|discriminate].
      simplify_eq. rewrite lookup_insert_eq. do 2 f_equal. lia.
Qed.

Lemma build_entity_colors_lookup (entities : list string) (index : nat)
    (entity : string) :
  ordered entities !! index = Some entity ->
  build_entity_colors entities !! entity = Some (color_of_index index).
Proof. apply colors_lookup, ordered_NoDup. Qed.

(** The binary64 computation of the hue agrees with exact arithmetic for
    the first five thousand indices. *)
Lemma hue_of_index_exact (index : nat) :
  (index < 5000)%nat -> hue_of_index index = exact_hue index.
Proof.
  intros Hlt.
  assert (Hall : forallb (fun i => hue_of_index i =? exact_hue i) (seq 0 5000)
                 = true) by (vm_compute; reflexivity).
  rewrite forallb_forall in Hall.
  apply Z.eqb_eq, Hall, in_seq. lia.
Qed.

(** C7 (amended). Each entity is given the hue
    floor((24 + index * 137.508) mod 360), with saturation 60% and
    lightness 68%, where index is the position of the name in the list of
    distinct names sorted by case-folded name (names with the same
    case-folded form stay in the order in which they were met).  Given the
    same set of names, no two of which have the same case-folded form,
    every name receives the same colour whatever the order in which the
    names were met. *)
Theorem entity_colors_stable :
  (forall entities index entity,
     ordered entities !! index = Some entity ->
     build_entity_colors entities !! entity
     = Some ("hsl(" +:+ Py.str_of_int (hue_of_index index) +:+ ", 60%, 68%)")%string)
  /\ (forall index, (index < 5000)%nat ->
        hue_of_index index = exact_hue index /\ 0 <= hue_of_index index < 360)
  /\ (forall entities,
        NoDup (ordered entities)
        /\ (forall x, x ∈ ordered entities <-> x ∈ entities)
        /\ forall i j a b, (i < j)%nat ->
             ordered entities !! i = Some a -> ordered entities !! j = Some b ->
             Py.lex_ltb (casefold_key b) (casefold_key a) = false)
  /\ (forall l1 l2,
        (forall x, x ∈ l1 <-> x ∈ l2) -> case_distinct l1 ->
        build_entity_colors l1 = build_entity_colors l2).
Proof.
  split; [|split; [|split]].
  - intros entities index entity. apply build_entity_colors_lookup.
  - intros index Hlt. rewrite (hue_of_index_exact index Hlt).
    split; [reflexivity|]. unfold exact_hue, exact_hue_milli.
    pose proof (Z.mod_pos_bound (24000 + Z.of_nat index * 137508) 360000
                  ltac:(lia)) as Hb.
    split; [apply Z.div_pos; lia|].
    apply Z.div_lt_upper_bound; lia.
  - intros entities. split; [apply ordered_NoDup|].
    split; [apply ordered_elem_of|].
    intros i j a b Hij Hi Hj.
    exact (StronglySorted_lookup _ _ i j a b (ordered_sorted entities) Hij Hi Hj).
  - intros l1 l2 Hset Hdist. unfold build_entity_colors.
    now rewrite (ordered_depends_on_set l1 l2 Hset Hdist).
Qed.

End Colours.

(** "Alice" and "alice" tie under the case-insensitive key, so the stable
    sort keeps them in the order they were met: "Alice" gets hue 24 when it
    is met first and hue 161 when it is met last. *)
Lemma colors_depend_on_order_counterexample :
  ~ Spec.colors_depend_on_set_only.
Proof.
  intros Hall.
  assert (Heq : Core.build_entity_colors Examples.alice_first
                = Core.build_entity_colors Examples.alice_last).
  { apply Hall. intros x. unfold Examples.alice_first, Examples.alice_last.
    rewrite !elem_of_cons, !elem_of_nil. tauto. }
  assert (H1 : Core.build_entity_colors Examples.alice_first !! "Alice"%string
               = Some "hsl(24, 60%, 68%)"%string) by (vm_compute; reflexivity).
  assert (H2 : Core.build_entity_colors Examples.alice_last !! "Alice"%string
               = Some "hsl(161, 60%, 68%)"%string) by (vm_compute; reflexivity).
  rewrite Heq, H2 in H1. discriminate.
Qed.

(** The case mappings are those of Python on the Latin-1 letters as well:
    the capital and the small e acute fold to one key, so these two names
    keep the order in which they were met, and a name in c cedilla (231)
    ranks before a name in capital E acute, which folds to 233. *)
Lemma latin1_names_fold :
  Spec.casefold_key Examples.Emile = Spec.casefold_key Examples.emile
  /\ Core.build_entity_colors [Examples.Emile; Examples.emile] !! Examples.Emile
     = Some "hsl(24, 60%, 68%)"%string
  /\ Core.build_entity_colors [Examples.emile; Examples.Emile] !! Examples.Emile
     = Some "hsl(161, 60%, 68%)"%string
  /\ Core.build_entity_colors [Examples.Emile; Examples.celik] !! Examples.celik
     = Some "hsl(24, 60%, 68%)"%string.
Proof. repeat split; vm_compute; reflexivity. Qed.

Lemma entity_colors_stable_witness :
  Core.build_entity_colors ["b"; "A"; "c"]%string
  = Core.build_entity_colors ["c"; "b"; "A"; "b"]%string
  /\ Core.build_entity_colors ["b"; "A"; "c"]%string !! "b"%string
     = Some "hsl(161, 60%, 68%)"%string.
Proof.
  split.
  - apply (proj2 (proj2 (proj2 entity_colors_stable))).
    + intros x. rewrite !elem_of_cons, !elem_of_nil. tauto.
    + intros x y Hx Hy.
      rewrite !elem_of_cons, elem_of_nil in Hx, Hy.
      destruct Hx as [->|[->|[->|[]]]], Hy as [->|[->|[->|[]]]];
        vm_compute; congruence.
  - apply (proj1 entity_colors_stable ["b"; "A"; "c"]%string 1%nat).
    vm_compute. reflexivity.
Defined.

(* ===================================================================== *)
(** ** Vertical layout: slots and stacked blocks *)
(* ===================================================================== *)

Section Blocks.
Import Vertical Spec.
Variable localeCompare : string -> string -> Z.
Variable cfg : Cfg.

Lemma sort_events_Permutation (events : list Ev) :
  sort_events localeCompare events ≡ₚ events.
Proof. apply stable_sort_Permutation. Qed.

Lemma normal_by_start_Permutation (events : list Ev) (start : Z) :
  normal_by_start localeCompare (sort_events localeCompare events) start
  ≡ₚ points_at events start.
Proof.
  unfold normal_by_start, Py.js_sort. rewrite stable_sort_Permutation.
  apply filter_Permutation, sort_events_Permutation.
Qed.

Lemma unique_starts_elem_of (evs : list Ev) (s : Z) :
  s ∈ unique_starts evs <-> exists e, e ∈ evs /\ start_ms e = s.
Proof.
  unfold unique_starts, Py.js_sort.
  rewrite stable_sort_Permutation, dedup_elem_of.
  change (map start_ms evs) with (start_ms <$> evs).
  rewrite list_elem_of_fmap.
  pose proof (not_elem_of_empty (C := gset Z) s).
  split.
  - intros [(e & -> & He) _]. eauto.
  - intros (e & He & <-). split; [eauto|assumption].
Qed.

Lemma unique_starts_NoDup (evs : list Ev) : NoDup (unique_starts evs).
Proof.
  unfold unique_starts, Py.js_sort.
  rewrite stable_sort_Permutation. apply dedup_NoDup.
Qed.

Lemma slot_index_snoc (l : list Z) (s : Z) :
  slot_index (l ++ [s]) = <[ s := length l ]> (slot_index l).
Proof.
  unfold slot_index. rewrite imap_app, foldl_app. simpl.
  now rewrite Nat.add_0_r.
Qed.

Lemma slot_index_lookup (l : list Z) (i : nat) (s : Z) :
  NoDup l -> l !! i = Some s -> slot_index l !!! s = i.
Proof.
  intros Hnd Hi. unfold lookup_total, map_lookup_total.
  enough (slot_index l !! s = Some i) as -> by reflexivity.
  revert i s Hnd Hi. induction l as [|x l IH] using rev_ind; intros i s Hnd Hi.
  - discriminate.
  - rewrite slot_index_snoc. apply NoDup_app in Hnd as (Hl & Hdisj & _).
    destruct (decide (i < length l)%nat) as [Hlt|Hge].
    + rewrite lookup_app_l in Hi by exact Hlt.
      rewrite lookup_insert_ne; [now apply IH|].
      intros ->. apply (Hdisj s); [|now left].
      now apply list_elem_of_lookup_2 in Hi.
    + rewrite lookup_app_r in Hi by lia.
      destruct (i - length l)%nat eqn:Hd; simpl in Hi; [|discriminate].
      simplify_eq. rewrite lookup_insert_eq. f_equal. lia.
Qed.

(** Among the stacked cards of distinct instants, exactly the card of
    [start] is selected by [is_stack_at start]. *)
Lemma stack_cards_at (f : Z -> option Positioned) (l : list Z) (start : Z)
    (p : Positioned) :
  (forall s q, f s = Some q -> is_stack_at start q = (s =? start)) ->
  NoDup l -> start ∈ l -> f start = Some p ->
  List.filter (is_stack_at start) (omap f l) = [p].
Proof.
  intros Hf Hnd Hin Hp.
  induction l as [|x l IH]; [inversion Hin|].
  apply NoDup_cons in Hnd as [Hx Hnd].
  assert (Hrest : start ∉ l -> List.filter (is_stack_at start) (omap f l) = []).
  { clear -Hf. intros Hn. induction l as [|y l IH]; [reflexivity|]. simpl.
    assert (y <> start) by (intros ->; apply Hn; now left).
    assert (start ∉ l) by (intros ?; apply Hn; now right).
    destruct (f y) as [q|] eqn:Hq; simpl; [|now apply IH].
    rewrite (Hf y q Hq). destruct (Z.eqb_spec y start); [contradiction|].
    now apply IH. }
  apply elem_of_cons in Hin as [<-|Hin]; simpl.
  - rewrite Hp. simpl. rewrite (Hf start p Hp), Z.eqb_refl.
    f_equal. now apply Hrest.
  - assert (x <> start) by (intros ->; contradiction).
    destruct (f x) as [q|] eqn:Hq; simpl; [|now apply IH].
    rewrite (Hf x q Hq). destruct (Z.eqb_spec x start); [contradiction|].
    now apply IH.
Qed.

Lemma range_cards_not_stacks (g : Ev -> Positioned) (l : list Ev) (start : Z) :
  (forall r, is_stack_at start (g r) = false) ->
  List.filter (is_stack_at start) (map g l) = [].
Proof.
  intros Hg. induction l as [|r l IH]; simpl; [reflexivity|].
  now rewrite Hg.
Qed.

(** C5. A slot occupied by n >= 1 point events that share a start instant
    (there is exactly one such slot) has row height
    max(rowH, headerH + padH + n*itemH + (n-1)*itemGap), and the layout
    holds exactly one stacked card for that instant, made of those n events
    and of that height; for three events and a default row height of at
    most 302 (it is 98) the height is
    headerH + padH + 3*itemH + 2*itemGap. *)
Theorem stacked_block_height (events : list Ev) (start : Z) (n : nat) :
  n = length (points_at events start) -> (1 <= n)%nat ->
  let R := layout localeCompare cfg events in
  let h := Z.max (rowH cfg)
             (headerH + padH + Z.of_nat n * itemH + (Z.of_nat n - 1) * itemGap) in
  exists i,
    slotStarts_of R !! i = Some start
    /\ (forall j, slotStarts_of R !! j = Some start -> j = i)
    /\ slotH_of R !! i = Some h
    /\ (exists items x y w,
          List.filter (is_stack_at start) (positioned R)
          = [PStack start items x y w h]
          /\ items ≡ₚ points_at events start /\ length items = n)
    /\ (n = 3%nat -> rowH cfg <= 302 ->
        h = headerH + padH + 3 * itemH + 2 * itemGap).
Proof.
  intros Hn Hpos R h.
  set (evs := sort_events localeCompare events).
  pose proof (normal_by_start_Permutation events start) as Hperm.
  fold evs in Hperm.
  assert (Hlen : length (normal_by_start localeCompare evs start) = n)
    by now rewrite Hperm.
  assert (Hin : start ∈ unique_starts evs).
  { apply unique_starts_elem_of.
    destruct (points_at events start) as [|e l] eqn:Hpts; [simpl in Hn; lia|].
    assert (He : e ∈ points_at events start) by (rewrite Hpts; now left).
    apply filter_elem_of in He as [He Hc].
    apply andb_true_iff in Hc as [_ Hc]. apply Z.eqb_eq in Hc.
    exists e. split; [|exact Hc]. unfold evs.
    now rewrite sort_events_Permutation. }
  pose proof (unique_starts_NoDup evs) as Hnd.
  destruct (proj1 (list_elem_of_lookup _ _) Hin) as [i Hi].
  assert (HslotH : slot_heights localeCompare cfg evs (unique_starts evs) !! i
                   = Some h).
  { unfold slot_heights. change (map ?f ?l) with (f <$> l).
    rewrite list_lookup_fmap, Hi. simpl. rewrite Hlen.
    destruct (Nat.ltb_spec 0 n); [reflexivity|lia]. }
  exists i. split; [exact Hi|]. split; [|split; [exact HslotH|split]].
  - intros j Hj. apply (NoDup_lookup _ j i start Hnd Hj Hi).
  - destruct (normal_by_start localeCompare evs start) as [|a arr] eqn:Harr;
      [simpl in Hlen; lia|].
    eexists (a :: arr), _, _, _. split; [|split; [exact Hperm|exact Hlen]].
    unfold R, layout. fold evs. simpl.
    rewrite List.filter_app, range_cards_not_stacks by reflexivity. simpl.
    apply stack_cards_at; [|exact Hnd|exact Hin|].
    + intros s q. unfold stack_card.
      destruct (normal_by_start localeCompare evs s); [discriminate|].
      now intros [= <-].
    + unfold stack_card. rewrite Harr.
      rewrite (slot_index_lookup _ i start Hnd Hi).
      now rewrite (list_lookup_total_correct _ _ _ HslotH).
  - intros -> Hrow. unfold h, headerH, padH, itemH, itemGap. lia.
Qed.

End Blocks.

(* ===================================================================== *)
(** ** Vertical layout: wrapper columns *)
(* ===================================================================== *)

Section Columns.
Import Vertical Spec.

Lemma first_free_Some (s : Z) (colEnd : list Z) (col : nat) :
  first_free s colEnd = Some col ->
  exists v, colEnd !! col = Some v /\ v < s.
Proof.
  revert col. induction colEnd as [|c cs IH]; intros col; simpl; [discriminate|].
  destruct (Z.ltb_spec c s) as [Hlt|Hge].
  - intros [= <-]. eauto.
  - destruct (first_free s cs) as [k|]; [|discriminate].
    intros [= <-]. now apply IH.
Qed.

Lemma first_free_None (s : Z) (colEnd : list Z) (col : nat) (v : Z) :
  first_free s colEnd = None -> colEnd !! col = Some v -> s <= v.
Proof.
  revert col. induction colEnd as [|c cs IH]; intros col; simpl; [discriminate|].
  destruct (Z.ltb_spec c s) as [Hlt|Hge]; [discriminate|].
  destruct (first_free s cs) as [k|] eqn:Hk; [discriminate|].
  intros _. destruct col as [|col]; simpl; [intros [= <-]; lia|].
  now apply IH.
Qed.

Lemma filter_map_comm {A B} (f : B -> bool) (g : A -> B) (l : list A) :
  List.filter f (map g l) = map g (List.filter (fun x => f (g x)) l).
Proof.
  induction l as [|x l IH]; simpl; [reflexivity|].
  destruct (f (g x)); simpl; now rewrite IH.
Qed.

(** The columns of the ranges open at [t]. *)
Lemma depth_as_columns (wrapCol : list (Ev * nat)) (t : Z) :
  depth (map fst wrapCol) t
  = length (map snd (List.filter (fun p => open_at t (fst p)) wrapCol)).
Proof. unfold depth. now rewrite filter_map_comm, !length_map. Qed.

Lemma depth_snoc (l : list Ev) (r : Ev) (t : Z) :
  (depth l t <= depth (l ++ [r]) t)%nat.
Proof. unfold depth. rewrite List.filter_app, length_app. lia. Qed.

Lemma depth_Permutation (l l' : list Ev) (t : Z) :
  l ≡ₚ l' -> depth l t = depth l' t.
Proof. intros Hp. unfold depth. now rewrite (filter_Permutation _ l l' Hp). Qed.

(** Ranges of one column never overlap, so the ranges open at one instant
    sit in pairwise different columns. *)
Lemma open_columns_NoDup (wrapCol : list (Ev * nat)) (t : Z) :
  (forall p q r1 r2 c, (p < q)%nat ->
     wrapCol !! p = Some (r1, c) -> wrapCol !! q = Some (r2, c) ->
     end_ms r1 < start_ms r2) ->
  NoDup (map snd (List.filter (fun p => open_at t (fst p)) wrapCol)).
Proof.
  induction wrapCol as [|[r c] w IH] using rev_ind; intros Hsep; [constructor|].
  assert (Hold : NoDup (map snd (List.filter (fun p => open_at t (fst p)) w))).
  { apply IH. intros p q r1 r2 c0 Hpq Hp Hq.
    apply (Hsep p q r1 r2 c0 Hpq).
    - rewrite lookup_app_l; [exact Hp|]. now apply lookup_lt_Some in Hp.
    - rewrite lookup_app_l; [exact Hq|]. now apply lookup_lt_Some in Hq. }
  rewrite List.filter_app, map_app. simpl.
  destruct (open_at t r) eqn:Hopen; simpl; [|now rewrite app_nil_r].
  apply NoDup_app. split; [exact Hold|]. split; [|apply NoDup_singleton].
  intros c0 Hin Hc0. apply list_elem_of_singleton in Hc0. subst c0.
  change (map ?f ?l) with (f <$> l) in Hin.
  apply list_elem_of_fmap in Hin as ([r1 c1] & Hc1 & Hin). simpl in Hc1. subst c1.
  apply filter_elem_of in Hin as [Hin Hopen1]. simpl in Hopen1.
  apply list_elem_of_lookup in Hin as [p Hp].
  pose proof (lookup_lt_Some _ _ _ Hp) as Hplt.
  assert (Hlt : end_ms r1 < start_ms r).
  { apply (Hsep p (length w) r1 r c Hplt).
    - now rewrite lookup_app_l.
    - rewrite lookup_app_r by lia. now rewrite Nat.sub_diag. }
  unfold open_at in Hopen, Hopen1.
  apply andb_true_iff in Hopen as [H1 _]. apply andb_true_iff in Hopen1 as [_ H2].
  apply Z.leb_le in H1. apply Z.leb_le in H2. lia.
Qed.

Lemma bounded_NoDup_length (l : list nat) (n : nat) :
  NoDup l -> (forall x, x ∈ l -> (x < n)%nat) -> (length l <= n)%nat.
Proof.
  intros Hnd Hlt. rewrite <- (List.length_seq n 0).
  apply submseteq_length, NoDup_submseteq; [exact Hnd|].
  intros x Hx. apply elem_of_seq. specialize (Hlt x Hx). lia.
Qed.

(** The upper bound: no instant sees more open ranges than columns. *)
Lemma depth_le_columns (colEnd : list Z) (wrapCol : list (Ev * nat)) (t : Z) :
  cols_sound colEnd wrapCol ->
  (depth (map fst wrapCol) t <= length colEnd)%nat.
Proof.
  intros (Hcap & Hsep & _). rewrite depth_as_columns.
  apply bounded_NoDup_length; [now apply open_columns_NoDup|].
  intros c Hc. change (map ?f ?l) with (f <$> l) in Hc.
  apply list_elem_of_fmap in Hc as ([r c'] & Hc' & Hin). simpl in Hc'. subst c'.
  apply filter_elem_of in Hin as [Hin _].
  destruct (Hcap r c Hin) as (v & Hv & _). now apply lookup_lt_Some in Hv.
Qed.

Lemma cols_sound_init : cols_sound [] [].
Proof.
  repeat split.
  - intros r c Hin. inversion Hin.
  - intros p q r1 r2 c _ Hp. discriminate.
  - intros c v Hc. discriminate.
Qed.

(** One iteration of the colouring loop keeps [cols_sound], whatever the
    range. *)
Lemma cols_sound_step (colEnd : list Z) (wrapCol : list (Ev * nat)) (r : Ev) :
  cols_sound colEnd wrapCol ->
  cols_sound (fst (assign_step (colEnd, wrapCol) r))
    (snd (assign_step (colEnd, wrapCol) r)).
Proof.
  intros (Hcap & Hsep & Htight).
  unfold assign_step.
  destruct (first_free (start_ms r) colEnd) as [col|] eqn:Hfree; simpl.
  - destruct (first_free_Some _ _ _ Hfree) as (v & Hv & Hvlt).
    pose proof (lookup_lt_Some _ _ _ Hv) as Hcol.
    rewrite (list_lookup_total_correct _ _ _ Hv).
    split; [|split].
    + intros r' c Hin. apply elem_of_app in Hin as [Hin|Hin].
      * destruct (Hcap r' c Hin) as (v' & Hv' & Hle).
        destruct (decide (c = col)) as [->|Hne].
        -- rewrite list_lookup_insert_eq by exact Hcol.
           eexists. split; [reflexivity|]. simplify_eq. lia.
        -- rewrite list_lookup_insert_ne by congruence. eauto.
      * apply list_elem_of_singleton in Hin. simplify_eq.
        rewrite list_lookup_insert_eq by exact Hcol.
        eexists. split; [reflexivity|]. lia.
    + intros p q r1 r2 c Hpq Hp Hq.
      pose proof (lookup_lt_Some _ _ _ Hq) as Hqlt.
      rewrite length_app in Hqlt. simpl in Hqlt.
      rewrite lookup_app_l in Hp by lia.
      destruct (decide (q < length wrapCol)%nat) as [Hq'|Hq'].
      * rewrite lookup_app_l in Hq by exact Hq'. eauto.
      * rewrite lookup_app_r in Hq by lia.
        replace (q - length wrapCol)%nat with 0%nat in Hq by lia.
        simpl in Hq.
        assert (r2 = r /\ c = col) as [-> ->] by (now inversion Hq).
        destruct (Hcap r1 col (list_elem_of_lookup_2 _ _ _ Hp)) as (v' & Hv' & Hle).
        simplify_eq. lia.
    + intros c v' Hc.
      destruct (decide (c = col)) as [->|Hne].
      * rewrite list_lookup_insert_eq in Hc by exact Hcol. simplify_eq.
        destruct (Z.max_spec v (end_ms r)) as [[_ ->]|[_ ->]].
        -- exists r. split; [|reflexivity]. apply elem_of_app. right. now left.
        -- destruct (Htight col v Hv) as (r' & Hin & He).
           exists r'. split; [|exact He]. apply elem_of_app. now left.
      * rewrite list_lookup_insert_ne in Hc by congruence.
        destruct (Htight c v' Hc) as (r' & Hin & He).
        exists r'. split; [|exact He]. apply elem_of_app. now left.
  - split; [|split].
    + intros r' c Hin. apply elem_of_app in Hin as [Hin|Hin].
      * destruct (Hcap r' c Hin) as (v' & Hv' & Hle).
        exists v'. split; [|exact Hle].
        rewrite lookup_app_l; [exact Hv'|]. now apply lookup_lt_Some in Hv'.
      * apply list_elem_of_singleton in Hin. simplify_eq.
        exists (end_ms r). split; [|lia].
        rewrite lookup_app_r by lia. now rewrite Nat.sub_diag.
    + intros p q r1 r2 c Hpq Hp Hq.
      pose proof (lookup_lt_Some _ _ _ Hq) as Hqlt.
      rewrite length_app in Hqlt. simpl in Hqlt.
      rewrite lookup_app_l in Hp by lia.
      destruct (decide (q < length wrapCol)%nat) as [Hq'|Hq'].
      * rewrite lookup_app_l in Hq by exact Hq'. eauto.
      * rewrite lookup_app_r in Hq by lia.
        replace (q - length wrapCol)%nat with 0%nat in Hq by lia.
        simpl in Hq. simplify_eq.
        destruct (Hcap r1 _ (list_elem_of_lookup_2 _ _ _ Hp)) as (v' & Hv' & _).
        apply lookup_lt_Some in Hv'. lia.
    + intros c v' Hc.
      destruct (decide (c < length colEnd)%nat) as [Hlt|Hge].
      * rewrite lookup_app_l in Hc by exact Hlt.
        destruct (Htight c v' Hc) as (r' & Hin & He).
        exists r'. split; [|exact He]. apply elem_of_app. now left.
      * pose proof (lookup_lt_Some _ _ _ Hc) as Hclt.
        rewrite length_app in Hclt. simpl in Hclt.
        assert (c = length colEnd) by lia. subst c.
        rewrite lookup_app_r in Hc by lia. rewrite Nat.sub_diag in Hc.
        simpl in Hc. simplify_eq.
        exists r. split; [|reflexivity]. apply elem_of_app. right. now left.
Qed.

(** It keeps [cols_inv] too, provided the new range does not end before it
    starts and starts no earlier than the ranges coloured before. *)
Lemma cols_inv_step (colEnd : list Z) (wrapCol : list (Ev * nat)) (r : Ev) :
  cols_inv colEnd wrapCol ->
  start_ms r <= end_ms r ->
  (forall r' c, (r', c) ∈ wrapCol -> start_ms r' <= start_ms r) ->
  cols_inv (fst (assign_step (colEnd, wrapCol) r))
    (snd (assign_step (colEnd, wrapCol) r)).
Proof.
  intros [Hsound (t & Ht)] Hwf Hsorted.
  split; [now apply cols_sound_step|].
  destruct Hsound as (Hcap & Hsep & Htight).
  unfold assign_step.
  destruct (first_free (start_ms r) colEnd) as [col|] eqn:Hfree; simpl.
  - exists t. rewrite length_insert, map_app. simpl.
    etransitivity; [exact Ht|]. apply depth_snoc.
  - exists (start_ms r). rewrite depth_as_columns.
    rewrite <- (List.length_seq (length (colEnd ++ [end_ms r])) 0).
    apply submseteq_length, NoDup_submseteq; [apply NoDup_seq|].
    intros c Hc. apply elem_of_seq in Hc. rewrite length_app in Hc.
    simpl in Hc. change (map ?f ?l) with (f <$> l).
    apply list_elem_of_fmap.
    destruct (decide (c < length colEnd)%nat) as [Hlt|Hge].
    + destruct (lookup_lt_is_Some_2 colEnd c Hlt) as [v Hv].
      destruct (Htight c v Hv) as (r' & Hin & He).
      exists (r', c). split; [reflexivity|].
      apply filter_elem_of. split; [apply elem_of_app; now left|].
      simpl. unfold open_at. apply andb_true_iff.
      pose proof (first_free_None _ _ _ _ Hfree Hv).
      pose proof (Hsorted r' c Hin).
      split; apply Z.leb_le; lia.
    + exists (r, c). split; [reflexivity|].
      apply filter_elem_of. split.
      * apply elem_of_app. right. replace c with (length colEnd) by lia.
        now left.
      * simpl. unfold open_at. apply andb_true_iff.
        split; apply Z.leb_le; lia.
Qed.

Lemma assign_step_processed (st : list Z * list (Ev * nat)) (r : Ev) :
  map fst (snd (assign_step st r)) = map fst (snd st) ++ [r].
Proof.
  destruct st as [colEnd wrapCol]. unfold assign_step.
  destruct (first_free (start_ms r) colEnd); simpl; now rewrite map_app.
Qed.

Lemma cols_inv_init : cols_inv [] [].
Proof. split; [apply cols_sound_init|]. exists 0. simpl. lia. Qed.

Lemma assign_fold_sound (l : list Ev) (st : list Z * list (Ev * nat)) :
  cols_sound (fst st) (snd st) ->
  cols_sound (fst (foldl assign_step st l)) (snd (foldl assign_step st l))
  /\ map fst (snd (foldl assign_step st l)) = map fst (snd st) ++ l.
Proof.
  revert st. induction l as [|r l IH]; intros st Hst; simpl.
  - now rewrite app_nil_r.
  - destruct (IH (assign_step st r)) as [IH1 IH2].
    + destruct st as [colEnd wrapCol]. now apply cols_sound_step.
    + split; [exact IH1|]. rewrite IH2, assign_step_processed.
      now rewrite <- app_assoc.
Qed.

(** Whatever the ranges, no instant sees more open ranges than columns. *)
Lemma depth_le_column_count (ranges : list Ev) (t : Z) :
  (depth ranges t <= column_count ranges)%nat.
Proof.
  destruct (assign_fold_sound (ranges_sorted ranges) ([], []) cols_sound_init)
    as [Hsound Hproc].
  fold (assign_columns ranges) in Hsound, Hproc. simpl in Hproc.
  assert (Hperm : ranges_sorted ranges ≡ₚ ranges)
    by apply stable_sort_Permutation.
  rewrite <- (depth_Permutation _ _ t Hperm), <- Hproc.
  now apply depth_le_columns.
Qed.

Lemma assign_fold_inv (l : list Ev) (st : list Z * list (Ev * nat)) :
  StronglySorted (fun a b => start_ms a <= start_ms b) l ->
  Forall (fun r => start_ms r <= end_ms r) l ->
  cols_inv (fst st) (snd st) ->
  (forall r' r, r' ∈ map fst (snd st) -> r ∈ l -> start_ms r' <= start_ms r) ->
  cols_inv (fst (foldl assign_step st l)) (snd (foldl assign_step st l))
  /\ map fst (snd (foldl assign_step st l)) = map fst (snd st) ++ l.
Proof.
  intros Hsorted. revert st.
  induction Hsorted as [|r l Hsorted IH Hr]; intros st Hwf Hinv Hbefore; simpl.
  - now rewrite app_nil_r.
  - apply Forall_cons in Hwf as [Hwr Hwf].
    destruct (IH (assign_step st r)) as [IH1 IH2]; [exact Hwf| | |].
    + destruct st as [colEnd wrapCol]. apply cols_inv_step; [exact Hinv|exact Hwr|].
      intros r' c Hin. apply (Hbefore r' r); [|now left]. simpl.
      change (map ?f ?l) with (f <$> l). apply list_elem_of_fmap.
      now exists (r', c).
    + intros r' r0 Hr' Hr0. rewrite assign_step_processed in Hr'.
      apply elem_of_app in Hr' as [Hr'|Hr'].
      * apply (Hbefore r' r0 Hr'). now right.
      * apply list_elem_of_singleton in Hr'. subst r'.
        rewrite Forall_forall in Hr. now apply Hr.
    + split; [exact IH1|]. rewrite IH2, assign_step_processed.
      now rewrite <- app_assoc.
Qed.

Lemma ranges_sorted_by_start (ranges : list Ev) :
  StronglySorted (fun a b => start_ms a <= start_ms b) (ranges_sorted ranges).
Proof.
  assert (Hs : StronglySorted (fun a b => (cmp_range b a <? 0) = false)
                 (ranges_sorted ranges)).
  { apply (stable_sort_sorted (fun y x => cmp_range y x <? 0)).
    - intros x y. unfold cmp_range. rewrite !Z.ltb_lt, !Z.ltb_ge.
      destruct (Z.eqb_spec (start_ms x) (start_ms y)),
        (Z.eqb_spec (start_ms y) (start_ms x)); simpl; lia.
    - intros x y z. unfold cmp_range. rewrite !Z.ltb_ge.
      destruct (Z.eqb_spec (start_ms y) (start_ms x)),
        (Z.eqb_spec (start_ms z) (start_ms y)),
        (Z.eqb_spec (start_ms z) (start_ms x)); simpl; lia. }
  induction Hs as [|a l Hs IH Ha]; constructor; [exact IH|].
  eapply Forall_impl; [exact Ha|]. simpl.
  intros b. unfold cmp_range. rewrite Z.ltb_ge.
  destruct (Z.eqb_spec (start_ms b) (start_ms a)); simpl; lia.
Qed.

Lemma assign_columns_inv (ranges : list Ev) :
  Forall (fun r => start_ms r <= end_ms r) ranges ->
  cols_inv (fst (assign_columns ranges)) (snd (assign_columns ranges))
  /\ map fst (snd (assign_columns ranges)) = ranges_sorted ranges.
Proof.
  intros Hwf. unfold assign_columns.
  destruct (assign_fold_inv (ranges_sorted ranges) ([], [])) as [H1 H2].
  - apply ranges_sorted_by_start.
  - unfold ranges_sorted, Py.js_sort. now rewrite stable_sort_Permutation.
  - apply cols_inv_init.
  - intros r' r Hr'. inversion Hr'.
  - split; [exact H1|exact H2].
Qed.

(** Column-colouring minimality on intervals: for every set of ranges
    none of which ends before it starts, the number of wrapper columns the
    greedy assignment produces equals the maximum number of ranges open at
    one instant under the boundary-inclusive definition: no instant sees
    more open ranges than there are columns, and some instant sees exactly
    that many.  For arbitrary ranges the number of columns is still an
    upper bound. *)
Theorem column_count_is_max_depth :
  columns_are_max_depth (fun r => start_ms r <= end_ms r)
  /\ forall ranges t, (depth ranges t <= column_count ranges)%nat.
Proof.
  split; [|apply depth_le_column_count].
  intros ranges Hwf. split; [apply depth_le_column_count|].
  destruct (assign_columns_inv ranges Hwf) as [[_ (t & Ht)] Hproc].
  assert (Hperm : ranges_sorted ranges ≡ₚ ranges)
    by apply stable_sort_Permutation.
  exists t. rewrite Hproc, (depth_Permutation _ _ t Hperm) in Ht.
  pose proof (depth_le_column_count ranges t). unfold column_count in *. lia.
Qed.

End Columns.

(** A single range whose end precedes its start takes a column although
    it is open at no instant.  The payload built from a row with start
    23:00 and end 01:00 is such a range: the vertical ingestion does not
    advance the end by a day. *)
Lemma column_count_counterexample :
  ~ Spec.columns_are_max_depth (fun _ => True).
Proof.
  intros Hall.
  destruct (Hall [Examples.inverted_range]) as [_ (t & Ht)];
    [repeat constructor|].
  assert (Hcols : Vertical.column_count [Examples.inverted_range] = 1%nat)
    by (vm_compute; reflexivity).
  rewrite Hcols in Ht. unfold Spec.depth in Ht. simpl in Ht.
  unfold Spec.open_at in Ht. simpl in Ht.
  destruct (Z.leb_spec 1600729200000 t), (Z.leb_spec t 1600650000000);
    simpl in Ht; try discriminate; lia.
Qed.

Lemma inverted_range_reachable :
  Vertical.events_payload Examples.no_strftime [Examples.overnight_row]
  = [Examples.inverted_range].
Proof. vm_compute. reflexivity. Qed.

(** C4. The vertical ingestion hands the layout a range that is no
    interval: the row with start time 23:00 and end time 01:00 is stored
    with its end before its start, because the loop leaves out the
    [normalize_end_dt] step that [read_events_from_excel] applies to the
    same row.  This range is open at no instant and still takes a wrapper
    column: one column against a maximum depth of 0.  With the end that
    [read_events_from_excel] stores for the row, the range is an interval
    and the column count equals the depth. *)
Theorem overnight_row_takes_a_column :
  (forall strftime,
     Vertical.events_payload strftime [Examples.overnight_row]
     = [Examples.inverted_range])
  /\ Vertical.end_ms Examples.inverted_range
     < Vertical.start_ms Examples.inverted_range
  /\ Vertical.column_count [Examples.inverted_range] = 1%nat
  /\ (forall t, Spec.depth [Examples.inverted_range] t = 0%nat)
  /\ (forall strftime csv_reader,
        exists s en,
          Core.start_dt (Core.event_of_row strftime csv_reader false 0
                           Examples.overnight_row) = Some s
          /\ Core.end_dt (Core.event_of_row strftime csv_reader false 0
                            Examples.overnight_row) = Some en
          /\ s < en
          /\ Vertical.column_count
               [Vertical.mkEv "0" (Vertical.to_ms s) (Vertical.to_ms en) true]
             = 1%nat
          /\ Spec.depth
               [Vertical.mkEv "0" (Vertical.to_ms s) (Vertical.to_ms en) true]
               (Vertical.to_ms s)
             = 1%nat).
Proof.
  split; [intros strftime; vm_compute; reflexivity|].
  split; [vm_compute; reflexivity|].
  split; [vm_compute; reflexivity|]. split.
  - intros t. unfold Spec.depth, Spec.open_at. simpl.
    destruct (Z.leb_spec 1600729200000 t), (Z.leb_spec t 1600650000000);
      simpl; try reflexivity; lia.
  - intros strftime csv_reader. eexists. eexists.
    split; [vm_compute; reflexivity|].
    split; [vm_compute; reflexivity|].
    split; [vm_compute; reflexivity|].
    split; vm_compute; reflexivity.
Qed.

Lemma column_count_is_max_depth_witness :
  Vertical.column_count Examples.some_ranges = 2%nat
  /\ exists t, Spec.depth Examples.some_ranges t
               = Vertical.column_count Examples.some_ranges.
Proof.
  split; [vm_compute; reflexivity|].
  apply (proj1 column_count_is_max_depth Examples.some_ranges).
  repeat constructor; simpl; lia.
Defined.

Lemma stacked_block_height_witness :
  exists i,
    Vertical.slotStarts_of
      (Vertical.layout Examples.code_compare Vertical.default_cfg
         Examples.three_at_once) !! i = Some 1000
    /\ Vertical.slotH_of
         (Vertical.layout Examples.code_compare Vertical.default_cfg
            Examples.three_at_once) !! i = Some 302.
Proof.
  destruct (stacked_block_height Examples.code_compare Vertical.default_cfg
              Examples.three_at_once 1000 3 eq_refl ltac:(lia))
    as (i & Hslot & _ & Hheight & _).
  exists i. split; [exact Hslot|exact Hheight].
Defined.

(* ===================================================================== *)
(** ** The examples, through the ingestion *)
(* ===================================================================== *)

(** The nested ranges come out of a sheet: the range 09:00-10:00 reaches
    544 while the range 09:30-12:00, which starts inside it, reaches 788. *)
Lemma nested_ranges_from_sheet :
  map (fun e => (Core.event_id e, Core.is_range e,
                 Spec.far_edge (Examples.run Examples.nested_sheet) e))
    (Examples.run_events Examples.nested_sheet)
  = [ (0, true, Some 544); (1, true, Some 788); (2, false, Some 788) ].
Proof. vm_compute. reflexivity. Qed.

(** So does the event whose end equals its start: it is not a range, and
    it takes the slot before the range that starts with it. *)
Lemma zero_length_from_sheet :
  map (fun e => (Core.event_id e, Core.is_range e,
                 Horizontal.slot_of (Examples.run Examples.zero_length_sheet)
                 !! Core.event_id e))
    (Examples.run_events Examples.zero_length_sheet)
  = [ (0, false, Some 0%nat); (1, true, Some 1%nat) ].
Proof. vm_compute. reflexivity. Qed.

(** Comparing with the last card only is sound because normalisation
    orders the ends: on events whose ends are not ordered, the events 0
    (6 to 100) and 2 (12 to 20) share a subrow although they overlap. *)
Lemma last_card_check_needs_ordered_ends :
  map (fun '(entity, subrows) =>
         (entity, map (map (fun c => Core.event_id (Horizontal.card_event c)))
                    subrows))
    (Horizontal.layout (Examples.layout_of Examples.unordered_ends))
  = [ ("A"%string, [[0; 1; 2]]) ]
  /\ Core.overlaps 6 100 12 20 = true.
Proof. split; vm_compute; reflexivity. Qed.

(** The colour of "Alice" in a run follows the row order when "alice" is
    an entity too. *)
Lemma entity_colors_follow_row_order :
  Examples.alice_rows_first ≡ₚ Examples.alice_rows_last
  /\ Horizontal.entity_colors Examples.alice_rows_first !! "Alice"%string
     = Some "hsl(24, 60%, 68%)"%string
  /\ Horizontal.entity_colors Examples.alice_rows_last !! "Alice"%string
     = Some "hsl(161, 60%, 68%)"%string.
Proof.
  split; [apply perm_swap|]. split; vm_compute; reflexivity.
Qed.

(* ===================================================================== *)
(** ** Horizontal layout: the container, the lanes and their cards *)
(* ===================================================================== *)

Section Container.
Import Core Spec Horizontal.

Lemma layout_max_width (events : list TimelineEvent) (L : Layout) :
  horizontal_layout events = inr L ->
  exists n, length (event_at_slot L) = S n
    /\ max_width L = x_start L !!! n + slot_width L !!! n.
Proof.
  intros HL.
  destruct (layout_fields events L HL) as (Hne & Hat & _ & Hsw & Hx & _).
  unfold horizontal_layout in HL.
  destruct (timed_events events) as [|e0 l0] eqn:Ht; [congruence|].
  exists (length l0). split; [now rewrite Hat|].
  remember (e0 :: l0) as T eqn:HT in HL.
  assert (Hlen : length (slot_widths T) = S (length l0))
    by (rewrite slot_widths_length; now subst T).
  injection HL as <-. cbn [max_width x_start slot_width].
  rewrite !last_lookup, pack_length, Hlen. cbn [Init.Nat.pred].
  destruct (lookup_lt_is_Some_2 (slot_widths T) (length l0)
              ltac:(lia)) as [w Hw].
  destruct (lookup_lt_is_Some_2 (pack 0 (slot_widths T)) (length l0)
              ltac:(rewrite pack_length; lia)) as [x Hxl].
  rewrite Hw, Hxl. simpl.
  now rewrite (list_lookup_total_correct _ _ _ Hw),
    (list_lookup_total_correct _ _ _ Hxl).
Qed.

(** X1. The container width [max_width] is the right edge of the last
    slot, and no card reaches beyond it: every event with a start has its
    x at or after 0 and its far edge x + width at or before [max_width]. *)
Theorem cards_fit_container (events : list TimelineEvent) (L : Layout)
    (e : TimelineEvent) :
  unique_ids events -> horizontal_layout events = inr L ->
  e ∈ events -> start_dt e <> None ->
  exists x w, event_x L !! event_id e = Some x
    /\ event_w L !! event_id e = Some w
    /\ 0 <= x /\ 180 <= w /\ x + w <= max_width L.
Proof.
  intros Hnd HL He Hs.
  assert (Hhs : has_start e = true)
    by (unfold has_start; now destruct (start_dt e)).
  destruct (layout_max_width events L HL) as (n & Hlen & Hmax).
  destruct (geometry_of events L e Hnd HL He Hhs) as (i & Hi & Hsl & Hx & Hw).
  pose proof (lookup_lt_Some _ _ _ Hi) as Hilt.
  destruct (layout_fields events L HL) as (_ & Hat & _ & Hsw & Hxs & _).
  assert (Hwi : slot_width L !!! i = estimated_width e).
  { rewrite Hsw. apply slot_widths_lookup. now rewrite <- Hat. }
  pose proof (estimate_card_width_bounds (card_text e) (is_range e)) as Hb.
  fold (estimated_width e) in Hb.
  assert (Hx0 : 0 <= x_start L !!! i).
  { rewrite Hxs, pack_lookup_total
      by (rewrite slot_widths_length, <- Hat; exact Hilt).
    assert (Hsum : forall l, Forall (fun w => 0 <= w) l -> 0 <= foldr Z.add 0 l).
    { induction 1; simpl; lia. }
    pose proof (Hsum (take i (slot_widths (timed_events events)))
                  (Forall_take _ _ _ (slot_widths_nonneg _))).
    unfold gap. lia. }
  pose proof (right_edge_mono events L i n HL ltac:(lia) ltac:(lia)) as Hm.
  exists (x_start L !!! i). eexists. split; [exact Hx|]. split; [exact Hw|].
  split; [exact Hx0|]. unfold final_width.
  rewrite (slot_lookup_total L e i Hsl), Hwi.
  destruct (is_range e) eqn:Hr; [|lia].
  rewrite (range_span events L e Hnd HL He Hr).
  destruct (span_slot_bounds events L e i Hnd HL Hi Hsl) as [[_ Hlt] _].
  pose proof (right_edge_mono events L
                (span_slot (slot_of L) (event_at_slot L) e) n HL
                ltac:(lia) ltac:(lia)).
  lia.
Qed.

End Container.

Lemma cards_fit_container_witness :
  exists x w,
    Horizontal.event_x (Examples.layout_of Examples.nested_ranges) !! 1 = Some x
    /\ Horizontal.event_w (Examples.layout_of Examples.nested_ranges) !! 1 = Some w
    /\ 0 <= x /\ 180 <= w
    /\ x + w <= Horizontal.max_width (Examples.layout_of Examples.nested_ranges).
Proof.
  apply (cards_fit_container Examples.nested_ranges
           (Examples.layout_of Examples.nested_ranges)
           (Examples.ev 1 (Some 4) (Some 100) ["A"%string])).
  - by_compute.
  - vm_compute. reflexivity.
  - in_list.
  - discriminate.
Defined.

Section Lanes.
Import Core Spec Horizontal.

Lemma place_concat (card : Card) (subrows : list (list Card)) :
  concat (place card subrows) ≡ₚ card :: concat subrows.
Proof.
  induction subrows as [|sr rest IH]; simpl; [reflexivity|].
  destruct (blocked (card_event card) sr); simpl.
  - rewrite IH. symmetry. apply Permutation_middle.
  - rewrite <- app_assoc. simpl. symmetry. apply Permutation_middle.
Qed.

Lemma place_nonempty (card : Card) (subrows : list (list Card)) :
  Forall (fun sr => sr <> []) subrows ->
  Forall (fun sr => sr <> []) (place card subrows).
Proof.
  induction 1 as [|sr rest Hsr Hrest IH]; simpl.
  - repeat constructor. discriminate.
  - destruct (blocked (card_event card) sr); constructor; auto.
    now destruct sr.
Qed.

Lemma stack_fold_concat (ex ew : gmap Z Z) (l : list TimelineEvent)
    (subrows : list (list Card)) :
  concat (foldl (stack_step ex ew) subrows l)
  ≡ₚ concat subrows ++ map (make_card ex ew) (List.filter has_start l).
Proof.
  revert subrows. induction l as [|e l IH]; intros subrows; simpl.
  - now rewrite app_nil_r.
  - rewrite IH. unfold stack_step, has_start.
    destruct (start_dt e); [|reflexivity].
    rewrite place_concat. simpl. apply Permutation_middle.
Qed.

Lemma stack_fold_nonempty (ex ew : gmap Z Z) (l : list TimelineEvent)
    (subrows : list (list Card)) :
  Forall (fun sr => sr <> []) subrows ->
  Forall (fun sr => sr <> []) (foldl (stack_step ex ew) subrows l).
Proof.
  revert subrows. induction l as [|e l IH]; intros subrows H; simpl; [exact H|].
  apply IH. unfold stack_step. destruct (start_dt e); [|exact H].
  now apply place_nonempty.
Qed.

Lemma concat_map_Permutation {A} (f : list A -> list A) (ls : list (list A)) :
  (forall l, f l ≡ₚ l) -> concat (map f ls) ≡ₚ concat ls.
Proof.
  intros Hf. induction ls as [|l ls IH]; simpl; [reflexivity|].
  now rewrite Hf, IH.
Qed.

Lemma lane_concat (ex ew : gmap Z Z) (l : list TimelineEvent) :
  concat (lane ex ew l) ≡ₚ map (make_card ex ew) (List.filter has_start l).
Proof.
  unfold lane. rewrite concat_map_Permutation by (intros; apply sorted_Permutation).
  unfold stack. rewrite stack_fold_concat. simpl.
  apply Permutation_map, filter_Permutation. apply sorted_Permutation.
Qed.

Lemma lane_nonempty (ex ew : gmap Z Z) (l : list TimelineEvent) :
  Forall (fun sr => sr <> []) (lane ex ew l).
Proof.
  unfold lane, stack. apply Forall_forall. intros sr Hsr.
  change (map ?f ?l) with (f <$> l) in Hsr.
  apply list_elem_of_fmap in Hsr as (sr0 & -> & Hsr0).
  pose proof (stack_fold_nonempty ex ew (sorted_events l) [] ltac:(constructor))
    as Hne.
  rewrite Forall_forall in Hne. specialize (Hne sr0 Hsr0).
  intros Hnil. apply Hne. apply Permutation_nil.
  rewrite <- Hnil. apply sorted_Permutation.
Qed.

Lemma group_has_lane (events : list TimelineEvent) (entity : string) :
  is_Some (dict_get entity (group_events_by_entity events))
  <-> exists e, e ∈ events /\ entity ∈ entities e.
Proof.
  rewrite dict_get_group. unfold extend.
  destruct (entity_events_of entity events) as [|e l] eqn:Hl.
  - split; [intros [? ?]; discriminate|].
    intros (e & He & Hent).
    assert (Hin : e ∈ entity_events_of entity events)
      by now apply entity_events_of_elem_of.
    rewrite Hl in Hin. inversion Hin.
  - split; [|eauto]. intros _. exists e.
    apply entity_events_of_elem_of. rewrite Hl. now left.
Qed.

(** Under an entity named at most once per event, the grouped events are
    the events that name it. *)
Lemma filter_name_NoDup (entity : string) (l : list string) :
  NoDup l ->
  List.filter (String.eqb entity) l
  = if bool_decide (entity ∈ l) then [entity] else [].
Proof.
  induction 1 as [|x l Hx Hnd IH]; [reflexivity|]. simpl.
  destruct (String.eqb_spec entity x) as [->|Hne].
  - rewrite bool_decide_eq_true_2 by (now left). f_equal.
    rewrite IH. now rewrite bool_decide_eq_false_2.
  - rewrite IH.
    rewrite (bool_decide_ext (entity ∈ x :: l) (entity ∈ l));
      [reflexivity|].
    rewrite elem_of_cons. tauto.
Qed.

Lemma entity_events_of_NoDup (entity : string) (events : list TimelineEvent) :
  Forall (fun e => NoDup (entities e)) events ->
  entity_events_of entity events
  = List.filter (fun e => bool_decide (entity ∈ entities e)) events.
Proof.
  unfold entity_events_of.
  induction 1 as [|e events He Hall IH]; [reflexivity|]. simpl.
  rewrite IH, (filter_name_NoDup entity (entities e) He).
  now destruct (bool_decide (entity ∈ entities e)).
Qed.

(** X2. Stacking loses no event and invents none: the cards of an entity's
    lane are, up to order, the cards of the events with a start that list
    the entity, one card per mention of the entity in the event's list (an
    event that names the entity twice has two cards in the lane); when no
    event names an entity more than once, the lane holds exactly one card
    for each event with a start that lists the entity; no subrow is empty;
    and every event with a start has a card in the lane of each of its
    entities. *)
Theorem lanes_hold_each_timed_event (events : list TimelineEvent) (L : Layout) :
  horizontal_layout events = inr L ->
  (forall entity subrows, (entity, subrows) ∈ layout L ->
     concat subrows
     ≡ₚ map (make_card (event_x L) (event_w L))
          (List.filter has_start (entity_events_of entity events))
     /\ (Forall (fun e => NoDup (entities e)) events ->
         concat subrows
         ≡ₚ map (make_card (event_x L) (event_w L))
              (List.filter has_start
                 (List.filter (fun e => bool_decide (entity ∈ entities e))
                    events)))
     /\ Forall (fun sr => sr <> []) subrows)
  /\ (forall e entity, e ∈ events -> entity ∈ entities e ->
        exists subrows, (entity, subrows) ∈ layout L
          /\ (start_dt e <> None ->
              exists subrow, subrow ∈ subrows
                /\ make_card (event_x L) (event_w L) e ∈ subrow)).
Proof.
  intros HL. split.
  - intros entity subrows Hlane.
    destruct (layout_lane events L entity subrows HL Hlane) as [-> _].
    split; [apply lane_concat|]. split; [|apply lane_nonempty].
    intros Hnd. rewrite lane_concat.
    now rewrite (entity_events_of_NoDup entity events Hnd).
  - intros e entity He Hent.
    destruct (layout_fields events L HL) as (_ & _ & _ & _ & _ & _ & _ & _ & Hlay).
    destruct (proj2 (group_has_lane events entity)) as [l Hl]; [eauto|].
    pose proof (group_lane_events entity events l Hl) as ->.
    exists (lane (event_x L) (event_w L) (entity_events_of entity events)).
    assert (Hin : (entity, lane (event_x L) (event_w L)
                              (entity_events_of entity events)) ∈ layout L).
    { rewrite Hlay. change (map ?f ?l) with (f <$> l).
      apply list_elem_of_fmap.
      exists (entity, entity_events_of entity events). split; [reflexivity|].
      apply dict_get_elem_of; [apply group_keys_NoDup|exact Hl]. }
    split; [exact Hin|]. intros Hs.
    assert (Hc : make_card (event_x L) (event_w L) e
                 ∈ concat (lane (event_x L) (event_w L)
                             (entity_events_of entity events))).
    { rewrite lane_concat. change (map ?f ?l) with (f <$> l).
      apply list_elem_of_fmap. exists e. split; [reflexivity|].
      apply filter_elem_of. split; [now apply entity_events_of_elem_of|].
      unfold has_start. now destruct (start_dt e). }
    apply list_elem_of_In, in_concat in Hc as (sr & Hsr & Hc).
    exists sr. split; now apply list_elem_of_In.
Qed.

End Lanes.

Lemma lanes_hold_each_timed_event_witness :
  exists subrows,
    ("A"%string, subrows)
    ∈ Horizontal.layout (Examples.layout_of Examples.with_undated)
    /\ length (concat subrows) = 3%nat.
Proof.
  pose proof (lanes_hold_each_timed_event Examples.with_undated
                (Examples.layout_of Examples.with_undated)
                ltac:(vm_compute; reflexivity)) as [Hcards Hlane].
  destruct (Hlane (Examples.ev 3 (Some 12) None ["A"%string]) "A"%string)
    as (subrows & Hin & _); [in_list|in_list|].
  exists subrows. split; [exact Hin|].
  destruct (Hcards "A"%string subrows Hin) as (_ & Hexact & _).
  rewrite Hexact; [vm_compute; reflexivity|].
  compute_done.
Defined.

(** An entity cell that names an entity twice puts the event into the lane
    twice: the second copy overlaps the first and opens a second subrow. *)
Lemma repeated_name_gives_two_cards :
  Core.split_entities (Some "A|A"%string) = ["A"; "A"]%string
  /\ map (fun '(entity, subrows) =>
            (entity,
             map (map (fun c => Core.event_id (Horizontal.card_event c)))
               subrows))
       (Horizontal.layout (Examples.layout_of Examples.named_twice))
     = [("A"%string, [[0]; [0]])].
Proof. split; vm_compute; reflexivity. Qed.

Section Separation.
Import Core Spec Horizontal.

(** A stable sort leaves a list that is already in order as it is. *)
Lemma stable_sort_of_sorted {A} (lt : A -> A -> bool) (l : list A) :
  StronglySorted (fun a b => lt b a = false) l -> Py.stable_sort lt l = l.
Proof.
  induction 1 as [|x l Hs IH Hx]; simpl; [reflexivity|].
  rewrite IH. destruct l as [|y l']; simpl; [reflexivity|].
  apply Forall_cons in Hx as [Hy _]. now rewrite Hy.
Qed.

Lemma x_gap (events : list TimelineEvent) (L : Layout) (i j : nat) :
  horizontal_layout events = inr L ->
  (i < j)%nat -> (j < length (event_at_slot L))%nat ->
  x_start L !!! i + slot_width L !!! i + gap <= x_start L !!! j.
Proof.
  intros HL Hij Hj.
  destruct (layout_fields events L HL) as (_ & Hat & _ & Hsw & Hx & _).
  assert (Hlen : length (slot_widths (timed_events events))
                 = length (event_at_slot L))
    by now rewrite slot_widths_length, Hat.
  destruct (lookup_lt_is_Some_2 (slot_widths (timed_events events)) i
              ltac:(lia)) as [w Hw].
  rewrite Hx, Hsw, (list_lookup_total_correct _ _ _ Hw).
  rewrite <- (pack_step 0 _ i w Hw) by lia.
  destruct (decide (S i = j)) as [<-|Hne]; [lia|].
  pose proof (pack_strict_mono 0 (slot_widths (timed_events events)) (S i) j
                (slot_widths_nonneg _) ltac:(lia) ltac:(lia)).
  lia.
Qed.

(** When an event ends before another starts, its card ends at least one
    gap before the card of the other begins. *)
Lemma separated_cards (events : list TimelineEvent) (L : Layout)
    (ea eb : TimelineEvent) (sa sb : Z) :
  unique_ids events -> horizontal_layout events = inr L ->
  ea ∈ events -> eb ∈ events ->
  start_dt ea = Some sa -> start_dt eb = Some sb ->
  sa <= effective_end_dt ea -> effective_end_dt ea < sb ->
  exists xa wa xb,
    event_x L !! event_id ea = Some xa /\ event_w L !! event_id ea = Some wa
    /\ event_x L !! event_id eb = Some xb /\ xa + wa + gap <= xb.
Proof.
  intros Hnd HL Hea Heb Hsa Hsb Hord Hlt.
  assert (Hha : has_start ea = true) by (apply has_start_Some; eauto).
  assert (Hhb : has_start eb = true) by (apply has_start_Some; eauto).
  destruct (geometry_of events L ea Hnd HL Hea Hha) as (ia & Hia & Hsla & Hxa & Hwa).
  destruct (geometry_of events L eb Hnd HL Heb Hhb) as (ib & Hib & Hslb & Hxb & _).
  pose proof (lookup_lt_Some _ _ _ Hib) as Hiblt.
  assert (Hslots : (ia < ib)%nat).
  { apply (slot_order_iff events L ea eb ia ib Hnd HL Hea Heb Hsla Hslb).
    unfold slot_key. rewrite Hsa, Hsb. simpl.
    destruct (Z.ltb_spec sa sb); [reflexivity|lia]. }
  destruct (layout_fields events L HL) as (_ & Hat & _ & Hsw & _).
  assert (Hwi : slot_width L !!! ia = estimated_width ea).
  { rewrite Hsw. apply slot_widths_lookup. now rewrite <- Hat. }
  pose proof (x_gap events L ia ib HL Hslots Hiblt) as Hown.
  exists (x_start L !!! ia). eexists. exists (x_start L !!! ib).
  split; [exact Hxa|]. split; [exact Hwa|]. split; [exact Hxb|].
  unfold final_width. rewrite (slot_lookup_total L ea ia Hsla), Hwi in *.
  destruct (is_range ea) eqn:Hr; [|lia].
  rewrite (range_span events L ea Hnd HL Hea Hr).
  assert (Hspan : (span_slot (slot_of L) (event_at_slot L) ea < ib)%nat).
  { destruct (span_slot_cases (slot_of L) (event_at_slot L) ea)
      as [->|(e' & He' & Hin & ->)].
    - now rewrite (slot_lookup_total L ea ia Hsla).
    - assert (He'ev : e' ∈ events /\ has_start e' = true)
        by (apply timed_events_elem_of; now rewrite <- Hat).
      destruct (geometry_of events L e' Hnd HL (proj1 He'ev) (proj2 He'ev))
        as (k & Hk & Hsk & _).
      rewrite (slot_lookup_total L e' k Hsk).
      apply (slot_order_iff events L e' eb k ib Hnd HL (proj1 He'ev) Heb Hsk Hslb).
      destruct Hin as (rs & re & es & Hrs & Hre & Hes & Hb).
      unfold effective_end_dt in Hlt. rewrite Hrs, Hre in Hlt.
      unfold slot_key. rewrite Hes, Hsb. simpl.
      destruct (Z.ltb_spec es sb); [reflexivity|lia]. }
  pose proof (x_gap events L _ ib HL Hspan Hiblt). lia.
Qed.

Lemma StronglySorted_weaken {A} (R R' : A -> A -> Prop) (l : list A) :
  (forall a b, a ∈ l -> b ∈ l -> R a b -> R' a b) ->
  StronglySorted R l -> StronglySorted R' l.
Proof.
  intros Himp Hs. induction Hs as [|a l Hs IH Ha]; constructor.
  - apply IH. intros x y Hx Hy. apply Himp; now right.
  - rewrite Forall_forall in Ha. apply Forall_forall. intros b Hb.
    apply Himp; [now left|now right|now apply Ha].
Qed.

Lemma event_w_min (events : list TimelineEvent) (L : Layout)
    (e : TimelineEvent) (w : Z) :
  unique_ids events -> horizontal_layout events = inr L ->
  e ∈ events -> has_start e = true ->
  event_w L !! event_id e = Some w -> 180 <= w.
Proof.
  intros Hnd HL He Hs Hw.
  destruct (geometry_of events L e Hnd HL He Hs) as (i & Hi & Hsl & _ & Hw').
  destruct (layout_fields events L HL) as (_ & Hat & _ & Hsw & _).
  assert (Hwi : slot_width L !!! i = estimated_width e).
  { rewrite Hsw. apply slot_widths_lookup. now rewrite <- Hat. }
  pose proof (estimate_card_width_bounds (card_text e) (is_range e)) as Hb.
  fold (estimated_width e) in Hb.
  rewrite Hw' in Hw. injection Hw as <-. unfold final_width.
  rewrite (slot_lookup_total L e i Hsl), Hwi.
  destruct (is_range e); lia.
Qed.

(** The geometry a card of a lane carries is the geometry of its event. *)
Lemma lane_card_geometry (events : list TimelineEvent) (L : Layout)
    (entity : string) (subrows : list (list Card)) (subrow : list Card)
    (c : Card) :
  unique_ids events -> horizontal_layout events = inr L ->
  (entity, subrows) ∈ layout L -> subrow ∈ subrows -> c ∈ subrow ->
  card_event c ∈ events
  /\ event_x L !! event_id (card_event c) = Some (card_x c)
  /\ event_w L !! event_id (card_event c) = Some (card_width c).
Proof.
  intros Hnd HL Hlane Hsr Hc.
  destruct (layout_lane events L entity subrows HL Hlane) as [-> _].
  destruct (lane_cards _ _ _ subrow c Hsr Hc) as (e & He & Hs & ->).
  apply entity_events_of_elem_of in He as [He _].
  destruct (geometry_of events L e Hnd HL He Hs) as (i & _ & _ & Hx & Hw).
  simpl. rewrite Hx, Hw. auto.
Qed.

(** X3. Cards of one subrow never touch: in every subrow of every lane the
    cards are listed from left to right, and each card ends at least one
    24-unit gap before the next one begins (x(a) + width(a) + 24 <= x(b)
    for a listed before b).  Ends must not precede starts, as after
    normalisation, and ids must be unique. *)
Theorem subrow_cards_are_separated (events : list TimelineEvent) (L : Layout)
    (entity : string) (subrows : list (list Card)) (subrow : list Card) :
  unique_ids events -> Forall ordered_event events ->
  horizontal_layout events = inr L ->
  (entity, subrows) ∈ layout L -> subrow ∈ subrows ->
  forall i j a b, (i < j)%nat ->
    subrow !! i = Some a -> subrow !! j = Some b ->
    card_x a + card_width a + 24 <= card_x b.
Proof.
  intros Hnd Hord HL Hlane Hsr.
  pose proof Hlane as Hlane'.
  destruct (layout_lane events L entity subrows HL Hlane) as [Heq _].
  rewrite Heq in Hsr. unfold lane in Hsr.
  change (map ?f ?l) with (f <$> l) in Hsr.
  apply list_elem_of_fmap in Hsr as (sr & Hsub & Hsr).
  assert (Hgood : good_subrow sr).
  { assert (Hf : Forall ordered_event (entity_events_of entity events)).
    { rewrite Forall_forall in Hord. apply Forall_forall. intros e He.
      apply entity_events_of_elem_of in He as [He _]. now apply Hord. }
    pose proof (stack_good (event_x L) (event_w L) _ Hf) as Hall.
    rewrite Forall_forall in Hall. now apply Hall. }
  assert (Hin : Py.sorted (fun item => [card_x item]) sr ∈ subrows).
  { rewrite Heq. unfold lane. change (map ?f ?l) with (f <$> l).
    apply list_elem_of_fmap. eauto. }
  assert (Hmem : forall c, c ∈ sr ->
    c ∈ Py.sorted (fun item => [card_x item]) sr)
    by (intros c Hc; now rewrite sorted_Permutation).
  destruct Hgood as [Hchain Hwm]. rewrite Forall_forall in Hwm.
  assert (Hsep : StronglySorted
                   (fun a b => card_x a + card_width a + 24 <= card_x b
                               /\ card_x a < card_x b) sr).
  { apply (StronglySorted_weaken before); [|exact Hchain].
    intros a b Ha Hb (sb & Hsb & Hlt).
    destruct (Hwm a Ha) as (sa & Hsa & Hale & _).
    destruct (lane_card_geometry events L entity subrows _ a Hnd HL Hlane'
                Hin (Hmem a Ha)) as (Hea & Hxa & Hwa).
    destruct (lane_card_geometry events L entity subrows _ b Hnd HL Hlane'
                Hin (Hmem b Hb)) as (Heb & Hxb & _).
    destruct (separated_cards events L _ _ sa sb Hnd HL Hea Heb Hsa Hsb
                Hale Hlt) as (xa & wa & xb & H1 & H2 & H3 & H4).
    assert (180 <= wa).
    { apply (event_w_min events L (card_event a)); try assumption.
      apply has_start_Some. eauto. }
    unfold gap in H4. simplify_eq. lia. }
  assert (Hid : Py.sorted (fun item => [card_x item]) sr = sr).
  { apply stable_sort_of_sorted.
    apply (StronglySorted_weaken
             (fun a b => card_x a + card_width a + 24 <= card_x b
                         /\ card_x a < card_x b)); [|exact Hsep].
    intros a b _ _ [_ Hlt]. simpl.
    destruct (Z.ltb_spec (card_x b) (card_x a)); [lia|].
    now destruct (card_x a <? card_x b). }
  subst subrow. rewrite Hid.
  intros i j a b Hij Hi Hj.
  exact (proj1 (StronglySorted_lookup _ sr i j a b Hsep Hij Hi Hj)).
Qed.

End Separation.

Lemma subrow_cards_are_separated_witness :
  exists a b,
    Examples.sheet_subrow !! 0%nat = Some a
    /\ Examples.sheet_subrow !! 1%nat = Some b
    /\ Horizontal.card_x a + Horizontal.card_width a + 24 <= Horizontal.card_x b.
Proof.
  destruct (Examples.sheet_subrow !! 0%nat) as [a|] eqn:Ha;
    [|vm_compute in Ha; discriminate].
  destruct (Examples.sheet_subrow !! 1%nat) as [b|] eqn:Hb;
    [|vm_compute in Hb; discriminate].
  exists a, b. split; [reflexivity|]. split; [reflexivity|].
  apply (subrow_cards_are_separated (Examples.run_events Examples.sheet)
           Examples.sheet_layout "X" Examples.sheet_lane Examples.sheet_subrow)
    with (i := 0%nat) (j := 1%nat).
  - by_compute.
  - apply (read_events_ordered Examples.no_strftime Examples.no_csv
             Examples.sheet).
    + repeat constructor; vm_compute; congruence.
    + vm_compute. reflexivity.
  - vm_compute. reflexivity.
  - in_list.
  - in_list.
  - lia.
  - exact Ha.
  - exact Hb.
Defined.

Section LaneColours.
Import Core Spec Horizontal.

Lemma colors_is_Some (names : list string) (entity : string) :
  is_Some (foldl (fun colors '(index, entity) =>
                    <[ entity := color_of_index index ]> colors)
             (∅ : gmap string string)
             (imap (fun index entity => (index, entity)) names) !! entity)
  <-> entity ∈ names.
Proof.
  induction names as [|x names IH] using rev_ind.
  - simpl. rewrite lookup_empty, elem_of_nil.
    split; [intros [? ?]; discriminate|tauto].
  - rewrite colors_snoc, elem_of_app, list_elem_of_singleton.
    destruct (decide (entity = x)) as [->|Hne].
    + rewrite lookup_insert_eq. split; [tauto|eauto].
    + rewrite lookup_insert_ne by congruence. rewrite IH. tauto.
Qed.

Lemma build_entity_colors_is_Some (entities : list string) (entity : string) :
  is_Some (build_entity_colors entities !! entity) <-> entity ∈ entities.
Proof.
  unfold build_entity_colors. rewrite colors_is_Some. apply ordered_elem_of.
Qed.

Lemma group_keys_elem_of (events : list TimelineEvent) (entity : string) :
  entity ∈ map fst (group_events_by_entity events)
  <-> exists e, e ∈ events /\ entity ∈ entities e.
Proof.
  rewrite <- group_has_lane. change (map ?f ?l) with (f <$> l).
  rewrite list_elem_of_fmap. split.
  - intros ([k l] & -> & Hin).
    apply dict_get_elem_of in Hin; [|apply group_keys_NoDup]. eauto.
  - intros [l Hl]. exists (entity, l). split; [reflexivity|].
    apply dict_get_elem_of; [apply group_keys_NoDup|exact Hl].
Qed.

(** X4. The colour table of a run has an entry for exactly the entity names
    that occur in some event, so the lookup of a lane's colour cannot fail;
    the entry is the colour of the name's rank in the ordered list of all
    names. *)
Theorem every_lane_has_a_colour (events : list TimelineEvent) :
  (forall entity,
     is_Some (entity_colors events !! entity)
     <-> exists e, e ∈ events /\ entity ∈ entities e)
  /\ (forall L entity subrows,
        horizontal_layout events = inr L -> (entity, subrows) ∈ layout L ->
        exists index,
          ordered (Py.sorted (fun s => Py.codes (Py.lower s))
                     (map fst (group_events_by_entity events))) !! index
          = Some entity
          /\ entity_colors events !! entity = Some (color_of_index index)).
Proof.
  assert (Hkeys : forall entity,
    is_Some (entity_colors events !! entity)
    <-> exists e, e ∈ events /\ entity ∈ entities e).
  { intros entity. unfold entity_colors.
    rewrite build_entity_colors_is_Some, sorted_Permutation.
    apply group_keys_elem_of. }
  split; [exact Hkeys|].
  intros L entity subrows HL Hlane.
  destruct (layout_lane events L entity subrows HL Hlane) as [_ Hne].
  assert (Hin : entity ∈ ordered (Py.sorted (fun s => Py.codes (Py.lower s))
                                    (map fst (group_events_by_entity events)))).
  { apply ordered_elem_of. rewrite sorted_Permutation.
    apply group_keys_elem_of.
    destruct (entity_events_of entity events) as [|e l] eqn:Hl; [congruence|].
    exists e. apply entity_events_of_elem_of. rewrite Hl. now left. }
  apply list_elem_of_lookup in Hin as [index Hindex].
  exists index. split; [exact Hindex|].
  now apply build_entity_colors_lookup.
Qed.

End LaneColours.

Lemma every_lane_has_a_colour_witness :
  is_Some (Horizontal.entity_colors Examples.with_undated !! "A"%string).
Proof.
  apply (proj1 (every_lane_has_a_colour Examples.with_undated)).
  exists (Examples.ev 3 (Some 12) None ["A"%string]).
  split; in_list.
Defined.

Section DistinctColours.
Import Core Spec.

Lemma first_colours_NoDup : NoDup (map color_of_index (seq 0 250)).
Proof. compute_done. Qed.

(** X5. Up to 250 distinct entity names receive pairwise different colours;
    the bound is sharp, since the ranks 17 and 250 share a hue. *)
Theorem first_250_colours_differ (entities : list string) (a b : string) :
  (length (ordered entities) <= 250)%nat ->
  a ∈ entities -> b ∈ entities -> a <> b ->
  build_entity_colors entities !! a <> build_entity_colors entities !! b
  /\ color_of_index 250 = color_of_index 17.
Proof.
  intros Hlen Ha Hb Hab. split; [|vm_compute; reflexivity].
  apply ordered_elem_of, list_elem_of_lookup in Ha as [i Hi].
  apply ordered_elem_of, list_elem_of_lookup in Hb as [j Hj].
  rewrite (build_entity_colors_lookup _ _ _ Hi),
    (build_entity_colors_lookup _ _ _ Hj).
  intros Heq. apply (inj Some) in Heq. apply Hab.
  pose proof (lookup_lt_Some _ _ _ Hi) as Hilt.
  pose proof (lookup_lt_Some _ _ _ Hj) as Hjlt.
  assert (i = j).
  { apply (NoDup_lookup _ i j (color_of_index i) first_colours_NoDup).
    - change (map ?f ?l) with (f <$> l).
      rewrite list_lookup_fmap, lookup_seq_lt by lia. reflexivity.
    - change (map ?f ?l) with (f <$> l).
      rewrite list_lookup_fmap, lookup_seq_lt by lia. simpl. now rewrite Heq. }
  subst j. congruence.
Qed.

End DistinctColours.

Lemma first_250_colours_differ_witness :
  Core.build_entity_colors ["b"; "A"; "c"]%string !! "b"%string
  <> Core.build_entity_colors ["b"; "A"; "c"]%string !! "c"%string.
Proof.
  apply (first_250_colours_differ ["b"; "A"; "c"]%string "b" "c").
  - vm_compute. lia.
  - in_list.
  - in_list.
  - discriminate.
Defined.

(* ===================================================================== *)
(** ** Ingestion: what [read_events_from_excel] returns *)
(* ===================================================================== *)

Section IngestionFacts.
Import Core Spec.
Variable strftime : string -> Z -> string.
Variable csv_reader : string -> option (list string).

Lemma missing_columns_elem_of (df : DataFrame) (c : string) :
  c ∈ missing_columns df <-> c ∈ REQUIRED_COLUMNS /\ c ∉ columns df.
Proof.
  unfold missing_columns. rewrite filter_elem_of.
  rewrite negb_true_iff, bool_decide_eq_false. tauto.
Qed.

(** X6. Reading fails exactly when a required column is absent from the
    sheet, and the error then names exactly the required columns that are
    absent; columns beyond the required ones do not matter. *)
Theorem read_fails_on_missing_columns (df : DataFrame) :
  (forall missing,
     read_events_from_excel strftime csv_reader df = inl missing ->
     missing <> []
     /\ forall c, c ∈ missing <-> c ∈ REQUIRED_COLUMNS /\ c ∉ columns df)
  /\ ((forall c, c ∈ REQUIRED_COLUMNS -> c ∈ columns df)
      <-> exists events, read_events_from_excel strftime csv_reader df = inr events).
Proof.
  unfold read_events_from_excel. split.
  - intros missing.
    destruct (missing_columns df) as [|c0 l] eqn:Hm; [discriminate|].
    intros [= <-]. split; [discriminate|].
    intros c. rewrite <- Hm. apply missing_columns_elem_of.
  - split.
    + intros Hall.
      destruct (missing_columns df) as [|c0 l] eqn:Hm; [eauto|].
      assert (Hc0 : c0 ∈ missing_columns df) by (rewrite Hm; now left).
      apply missing_columns_elem_of in Hc0 as [Hreq Hno].
      now specialize (Hall c0 Hreq).
    + intros [events Hev] c Hc.
      destruct (missing_columns df) as [|c0 l] eqn:Hm; [|discriminate].
      destruct (decide (c ∈ columns df)) as [Hin|Hno]; [exact Hin|].
      assert (Hcm : c ∈ missing_columns df)
        by now apply missing_columns_elem_of.
      rewrite Hm in Hcm. inversion Hcm.
Qed.

Lemma split_entities_nonempty (value : text_cell) :
  split_entities value <> [] /\ EmptyString ∉ split_entities value.
Proof.
  unfold split_entities. destruct value as [v|].
  - set (l := List.filter _ _).
    assert (Hl : EmptyString ∉ l).
    { unfold l. rewrite filter_elem_of. intros [_ H].
      apply negb_true_iff in H. now rewrite String.eqb_refl in H. }
    destruct l as [|x l'] eqn:Hx.
    + split; [discriminate|]. rewrite list_elem_of_singleton. discriminate.
    + split; [discriminate|exact Hl].
  - split; [discriminate|]. rewrite list_elem_of_singleton. discriminate.
Qed.

(** X7. On success there is one event per row, in row order, whose id is
    the row's index; its start is absent exactly when the date cell is
    missing or unreadable, an end is only stored together with a start, and
    its entity list is never empty and holds no empty name. *)
Theorem one_event_per_row (df : DataFrame) (events : list TimelineEvent) :
  read_events_from_excel strftime csv_reader df = inr events ->
  length events = length (rows df)
  /\ forall i row, rows df !! i = Some row ->
       exists e, events !! i = Some e
         /\ event_id e = Z.of_nat i
         /\ (start_dt e = None <-> Datum row = None)
         /\ (start_dt e = None -> end_dt e = None)
         /\ (Eindtijd row = TimeNaN -> end_dt e = None)
         /\ entities e <> [] /\ EmptyString ∉ entities e.
Proof.
  unfold read_events_from_excel.
  destruct (missing_columns df); [|discriminate]. intros [= <-].
  split; [apply length_imap|].
  intros i row Hrow. rewrite list_lookup_imap, Hrow. simpl.
  eexists. split; [reflexivity|]. simpl.
  split; [reflexivity|]. split; [|split; [|split]].
  - unfold parse_date_time. destruct (Datum row); [|tauto].
    destruct (Starttijd row); split; discriminate.
  - now intros ->.
  - intros ->. simpl.
    destruct (parse_date_time (Datum row) (Starttijd row)); reflexivity.
  - apply split_entities_nonempty.
Qed.

(** X8. For a row whose clock times lie within their day, a stored end is
    never before the start and less than one day after it, and it stays
    below [datetime.max]: ranges of 24 hours or more cannot be expressed. *)
Theorem stored_range_shorter_than_a_day (has_bron : bool) (idx : nat)
    (row : Row) (s en : Z) :
  row_ok row ->
  start_dt (event_of_row strftime csv_reader has_bron idx row) = Some s ->
  end_dt (event_of_row strftime csv_reader has_bron idx row) = Some en ->
  s <= en < s + DAY /\ en <= DATETIME_MAX
  /\ (is_range (event_of_row strftime csv_reader has_bron idx row) = true
      <-> s < en).
Proof.
  intros Hok Hs Hen.
  pose proof (normalized_end_in_range row en Hok) as Hrange.
  rewrite stored_end_is_normalized in Hen. specialize (Hrange Hen).
  assert (Hkind : is_range (event_of_row strftime csv_reader has_bron idx row)
                  = negb (en =? s)).
  { unfold is_range. rewrite Hs, stored_end_is_normalized, Hen. reflexivity. }
  change (parsed_start row = Some s) in Hs. rewrite Hs in Hen.
  destruct (parsed_end row) as [e|] eqn:He; [|discriminate].
  destruct (parsed_same_day row s e Hok Hs He) as (d & _ & Hsd & Hed).
  simpl in Hen.
  assert (Hb : s <= en < s + DAY).
  { destruct (Z.ltb_spec e s); simplify_eq; unfold DAY in *; lia. }
  split; [exact Hb|]. split; [lia|].
  rewrite Hkind, negb_true_iff, Z.eqb_neq. lia.
Qed.

End IngestionFacts.

Lemma read_fails_on_missing_columns_witness :
  exists events,
    Core.read_events_from_excel Examples.no_strftime Examples.no_csv
      Examples.sheet = inr events.
Proof.
  apply (proj2 (read_fails_on_missing_columns Examples.no_strftime
                  Examples.no_csv Examples.sheet)).
  intros c Hc. exact Hc.
Defined.

Lemma one_event_per_row_witness :
  length (Examples.run_events Examples.sheet) = 3%nat.
Proof.
  apply (one_event_per_row Examples.no_strftime Examples.no_csv Examples.sheet).
  vm_compute. reflexivity.
Defined.

Lemma stored_range_shorter_than_a_day_witness :
  let s := 737688 * Core.DAY + 23 * Examples.hour in
  let en := 737688 * Core.DAY + 1 * Examples.hour + Core.DAY in
  s <= en < s + Core.DAY.
Proof.
  intros s en.
  apply (stored_range_shorter_than_a_day Examples.no_strftime Examples.no_csv
           false 0 Examples.overnight_row s en).
  - vm_compute. repeat split; congruence.
  - vm_compute. reflexivity.
  - vm_compute. reflexivity.
Defined.

(* ===================================================================== *)
(** ** Helpers of timeline_core.py *)
(* ===================================================================== *)

Section CoreHelpers.
Import Core Spec.

(** X9. [sorted_events] reorders without adding or dropping events, puts
    the events without a start last, the others by non-decreasing start,
    at equal start the ranges before the other events, and events of the
    same start and kind by id. *)
Theorem sorted_events_order (l : list TimelineEvent) :
  sorted_events l ≡ₚ l
  /\ forall i j a b, (i < j)%nat ->
       sorted_events l !! i = Some a -> sorted_events l !! j = Some b ->
       (start_dt a = None -> start_dt b = None)
       /\ forall sa sb, start_dt a = Some sa -> start_dt b = Some sb ->
            sa <= sb
            /\ (sa = sb -> (is_range b = true -> is_range a = true)
                           /\ (is_range a = is_range b ->
                               event_id a <= event_id b)).
Proof.
  split; [apply sorted_Permutation|].
  intros i j a b Hij Hi Hj.
  pose proof (StronglySorted_lookup _ _ i j a b
                (sorted_StronglySorted sort_key l) Hij Hi Hj) as Hle.
  cbv beta in Hle. unfold sort_key in Hle. split.
  - intros Ha. rewrite Ha in Hle.
    destruct (start_dt b) as [sb|]; [|reflexivity].
    simpl in Hle. discriminate.
  - intros sa sb Ha Hb. rewrite Ha, Hb in Hle. simpl in Hle.
    destruct (Z.ltb_spec sb sa); [discriminate|].
    split; [lia|]. intros ->. rewrite Z.ltb_irrefl in Hle.
    destruct (is_range a), (is_range b); simpl in Hle;
      try discriminate; (split; [congruence|]); intros Hkind;
      try discriminate;
      destruct (Z.ltb_spec (event_id b) (event_id a)); try discriminate; lia.
Qed.

(** The [seen] loop applied to a list grown by one value. *)
Lemma dedup_snoc `{Countable A} (seen : gset A) (l : list A) (k : A) :
  Py.dedup seen (l ++ [k])
  = Py.dedup seen l ++ (if bool_decide (k ∈ seen \/ k ∈ l) then [] else [k]).
Proof.
  revert seen. induction l as [|x l IH]; intros seen; simpl.
  - rewrite (bool_decide_ext (k ∈ seen \/ k ∈ []) (k ∈ seen))
      by (rewrite elem_of_nil; tauto).
    now destruct (bool_decide (k ∈ seen)).
  - case_bool_decide as Hx.
    + rewrite IH. f_equal.
      rewrite (bool_decide_ext (k ∈ seen \/ k ∈ x :: l) (k ∈ seen \/ k ∈ l));
        [reflexivity|].
      rewrite elem_of_cons. split; [|tauto].
      intros [?|[->|?]]; tauto.
    + rewrite IH. simpl. f_equal. f_equal.
      rewrite (bool_decide_ext (k ∈ seen \/ k ∈ x :: l)
                 (k ∈ {[x]} ∪ seen \/ k ∈ l)); [reflexivity|].
      rewrite elem_of_cons, elem_of_union, elem_of_singleton. tauto.
Qed.

Lemma keys_setdefault_append_order (k : string) (e : TimelineEvent)
    (d : entity_dict) :
  map fst (setdefault_append k e d)
  = map fst d ++ (if bool_decide (k ∈ map fst d) then [] else [k]).
Proof.
  induction d as [|[k0 l] d IH]; simpl.
  - reflexivity.
  - destruct (String.eqb k k0) eqn:Hk; simpl.
    + apply String.eqb_eq in Hk. subst k0.
      rewrite bool_decide_eq_true_2 by (now left).
      now rewrite app_nil_r.
    + rewrite IH. f_equal. f_equal.
      apply String.eqb_neq in Hk.
      rewrite (bool_decide_ext (k ∈ k0 :: map fst d) (k ∈ map fst d));
        [reflexivity|].
      rewrite elem_of_cons. tauto.
Qed.

Lemma group_keys_inner (e : TimelineEvent) (names seen_names : list string)
    (d : entity_dict) :
  map fst d = Py.dedup ∅ seen_names ->
  map fst (foldl (fun d name => setdefault_append name e d) d names)
  = Py.dedup ∅ (seen_names ++ names).
Proof.
  revert seen_names d.
  induction names as [|k names IH]; intros seen_names d Hd; simpl.
  - now rewrite app_nil_r.
  - rewrite (IH (seen_names ++ [k])); [now rewrite <- app_assoc|].
    rewrite keys_setdefault_append_order, dedup_snoc, Hd. f_equal.
    pose proof (not_elem_of_empty (C := gset string) k).
    pose proof (dedup_elem_of (∅ : gset string) seen_names k).
    repeat case_bool_decide; try reflexivity; exfalso; tauto.
Qed.

(** X10. [group_events_by_entity] lists the entities in the order of their
    first mention, each once; under an entity it stores the events that
    name it, in input order (once per mention); an entity no event names
    has no entry. *)
Theorem groups_follow_first_mention (events : list TimelineEvent) :
  map fst (group_events_by_entity events)
  = Py.dedup ∅ (concat (map entities events))
  /\ NoDup (map fst (group_events_by_entity events))
  /\ forall entity,
       dict_get entity (group_events_by_entity events)
       = match entity_events_of entity events with
         | [] => None
         | l => Some l
         end.
Proof.
  split; [|split].
  - induction events as [|e events IH] using rev_ind; [reflexivity|].
    rewrite group_snoc, map_app, concat_app. simpl. rewrite app_nil_r.
    now apply group_keys_inner.
  - apply group_keys_NoDup.
  - intros entity. rewrite dict_get_group. unfold extend.
    now destruct (entity_events_of entity events).
Qed.

(** X11. The width estimate lies between 180 and 320, does not depend on
    the range flag, and never decreases when the text gets longer: it is
    180 up to 8 characters and 320 from 36 characters on. *)
Theorem estimate_card_width_profile (text : string) (flag : bool) :
  180 <= estimate_card_width text flag <= 320
  /\ estimate_card_width text flag = estimate_card_width text (negb flag)
  /\ (forall text', (String.length text <= String.length text')%nat ->
        estimate_card_width text flag <= estimate_card_width text' flag)
  /\ ((String.length text <= 8)%nat -> estimate_card_width text flag = 180)
  /\ ((36 <= String.length text)%nat -> estimate_card_width text flag = 320).
Proof.
  unfold estimate_card_width. repeat split; intros;
    destruct flag; simpl; lia.
Qed.

Lemma length_append (s t : string) :
  String.length (s +:+ t) = (String.length s + String.length t)%nat.
Proof. induction s as [|c s IH]; simpl; [reflexivity|]. now rewrite IH. Qed.

Lemma length_substring_0 (k : nat) (s : string) :
  (k <= String.length s)%nat -> String.length (String.substring 0 k s) = k.
Proof.
  revert s. induction k as [|k IH]; intros s Hk.
  - now destruct s.
  - destruct s as [|c s]; simpl in *; [lia|]. rewrite IH; [reflexivity|lia].
Qed.

(** X12. [truncate] returns the stripped text when it has at most n
    characters; otherwise (for n >= 1) it returns the first n - 1
    characters followed by three dots, a text of n + 2 characters, which
    is longer than n and can be longer than the text it shortens. *)
Theorem truncate_length (text : string) (n : Z) :
  1 <= n ->
  (Z.of_nat (String.length (Py.strip text)) <= n ->
   truncate text n = Py.strip text)
  /\ (n < Z.of_nat (String.length (Py.strip text)) ->
      truncate text n
      = (String.substring 0 (Z.to_nat (n - 1)) (Py.strip text) +:+ "...")%string
      /\ Z.of_nat (String.length (truncate text n)) = n + 2).
Proof.
  intros Hn. unfold truncate. split.
  - intros Hle. destruct (Z.leb_spec (Z.of_nat (String.length (Py.strip text))) n);
      [reflexivity|lia].
  - intros Hgt. destruct (Z.leb_spec (Z.of_nat (String.length (Py.strip text))) n);
      [lia|].
    unfold Py.slice_to. destruct (Z.ltb_spec (n - 1) 0); [lia|].
    rewrite Z.min_l by lia. split; [reflexivity|].
    rewrite length_append, length_substring_0 by lia. simpl. lia.
Qed.

Lemma lower_append (s t : string) :
  Py.lower (s +:+ t) = (Py.lower s +:+ Py.lower t)%string.
Proof. induction s as [|c s IH]; simpl; [reflexivity|]. now rewrite IH. Qed.

(** X13. The address [normalize_href] builds for a web link always carries
    an explicit scheme, http:// or https://, and never begins with www.;
    a source that does not begin with www. is returned stripped and
    otherwise unchanged. *)
Theorem web_links_get_a_scheme (source : string) :
  (is_web_link source = true ->
   Py.startswith "http://" (Py.lower (normalize_href source)) = true
   \/ Py.startswith "https://" (Py.lower (normalize_href source)) = true)
  /\ Py.startswith "www." (Py.lower (normalize_href source)) = false
  /\ (Py.startswith "www." (Py.lower (Py.strip source)) = false ->
      normalize_href source = Py.strip source).
Proof.
  unfold is_web_link, normalize_href.
  destruct (Py.startswith "www." (Py.lower (Py.strip source))) eqn:Hwww.
  - split; [|split].
    + intros _. right. rewrite lower_append.
      destruct (Py.lower (Py.strip source)); now vm_compute.
    + rewrite lower_append.
      destruct (Py.lower (Py.strip source)); now vm_compute.
    + discriminate.
  - split; [|split].
    + rewrite orb_false_r. intros H. apply orb_true_iff in H. exact H.
    + exact Hwww.
    + reflexivity.
Qed.

End CoreHelpers.

Lemma truncate_length_witness :
  Core.truncate "  abcdefgh " 5 = "abcd..."%string.
Proof.
  apply (proj2 (truncate_length "  abcdefgh " 5 ltac:(lia))).
  vm_compute. reflexivity.
Defined.

Lemma web_links_get_a_scheme_witness :
  Py.startswith "http://" (Py.lower (Core.normalize_href " WWW.example.org "))
  = true
  \/ Py.startswith "https://" (Py.lower (Core.normalize_href " WWW.example.org "))
     = true.
Proof.
  apply (proj1 (web_links_get_a_scheme " WWW.example.org ")).
  vm_compute. reflexivity.
Defined.

Lemma sorted_events_order_witness :
  Core.sorted_events Examples.with_undated !! 3%nat = Some Examples.undated_event
  /\ 9 <= 12.
Proof.
  split; [vm_compute; reflexivity|].
  assert (Ha : Core.sorted_events Examples.with_undated !! 0%nat
               = Some (Examples.ev 1 (Some 9) (Some 11) ["A"%string]))
    by (vm_compute; reflexivity).
  assert (Hb : Core.sorted_events Examples.with_undated !! 2%nat
               = Some (Examples.ev 3 (Some 12) None ["A"%string]))
    by (vm_compute; reflexivity).
  destruct (proj2 (sorted_events_order Examples.with_undated) 0%nat 2%nat _ _
              ltac:(lia) Ha Hb) as [_ Hord].
  exact (proj1 (Hord 9 12 eq_refl eq_refl)).
Defined.

Lemma estimate_card_width_profile_witness :
  Core.estimate_card_width "short" true = 180
  /\ Core.estimate_card_width "a description of forty characters there" false
     = 320.
Proof.
  split.
  - apply (estimate_card_width_profile "short" true). simpl. lia.
  - apply (estimate_card_width_profile
             "a description of forty characters there" false).
    simpl. lia.
Defined.

(* ===================================================================== *)
(** ** The geometry of the vertical layout *)
(* ===================================================================== *)

Section VerticalGeometry.
Import Vertical Spec.
Variable localeCompare : string -> string -> Z.
Variable cfg : Cfg.

Lemma sorted_le_NoDup_lt (l : list Z) :
  StronglySorted Z.le l -> NoDup l -> StronglySorted Z.lt l.
Proof.
  induction 1 as [|a l Hs IH Ha]; intros Hnd; constructor.
  - apply IH. now apply NoDup_cons in Hnd as [_ ?].
  - apply NoDup_cons in Hnd as [Hin _]. rewrite Forall_forall in Ha.
    apply Forall_forall. intros b Hb. specialize (Ha b Hb).
    assert (a <> b) by (intros ->; contradiction). lia.
Qed.

Lemma unique_starts_sorted (evs : list Ev) :
  StronglySorted Z.lt (unique_starts evs).
Proof.
  apply sorted_le_NoDup_lt; [|apply unique_starts_NoDup].
  unfold unique_starts, Py.js_sort.
  eapply StronglySorted_weaken;
    [|apply (stable_sort_sorted (fun y x : Z => y - x <? 0))].
  - intros a b _ _ Hab. simpl in Hab. apply Z.ltb_ge in Hab. lia.
  - intros x y. rewrite Z.ltb_lt, Z.ltb_ge. lia.
  - intros x y z. rewrite !Z.ltb_ge. lia.
Qed.

(** The slot of an instant is its rank among the distinct starts. *)
Lemma slot_of_start (evs : list Ev) (i : nat) (s : Z) :
  unique_starts evs !! i = Some s ->
  slot_index (unique_starts evs) !!! s = i.
Proof. apply slot_index_lookup, unique_starts_NoDup. Qed.

Lemma slot_of_event (evs : list Ev) (e : Ev) :
  e ∈ evs ->
  unique_starts evs !! (slot_index (unique_starts evs) !!! start_ms e)
  = Some (start_ms e).
Proof.
  intros He.
  assert (Hin : start_ms e ∈ unique_starts evs)
    by (apply unique_starts_elem_of; eauto).
  apply list_elem_of_lookup in Hin as [i Hi].
  now rewrite (slot_of_start evs i _ Hi).
Qed.

Lemma slots_follow_time (evs : list Ev) (i j : nat) (s s' : Z) :
  unique_starts evs !! i = Some s -> unique_starts evs !! j = Some s' ->
  (s < s' <-> (i < j)%nat) /\ (s <= s' <-> (i <= j)%nat).
Proof.
  intros Hi Hj.
  pose proof (unique_starts_sorted evs) as Hs.
  assert (Hlt : forall p q a b, (p < q)%nat ->
            unique_starts evs !! p = Some a ->
            unique_starts evs !! q = Some b -> a < b)
    by (intros p q a b; now apply StronglySorted_lookup).
  destruct (lt_eq_lt_dec i j) as [[Hij|Hij]|Hij].
  - pose proof (Hlt _ _ _ _ Hij Hi Hj). split; split; intros; lia.
  - subst j. rewrite Hi in Hj. injection Hj as <-. split; split; intros; lia.
  - pose proof (Hlt _ _ _ _ Hij Hj Hi). split; split; intros; lia.
Qed.

(** The cumulative loop. *)
Lemma y_extents_length (g c : Z) (hs : list Z) :
  length (y_extents g c hs) = length hs.
Proof.
  revert c. induction hs as [|h hs IH]; intros c; simpl; [reflexivity|].
  now rewrite IH.
Qed.

Lemma y_extents_lookup (g c : Z) (hs : list Z) (i : nat) (a b : Z) :
  y_extents g c hs !! i = Some (a, b) ->
  exists h, hs !! i = Some h /\ b = a + h.
Proof.
  revert c i. induction hs as [|h hs IH]; intros c [|i]; simpl;
    try discriminate.
  - intros [= <- <-]. eauto.
  - apply IH.
Qed.

Lemma y_extents_next (g c : Z) (hs : list Z) (i : nat) (a b a' b' : Z) :
  y_extents g c hs !! i = Some (a, b) ->
  y_extents g c hs !! S i = Some (a', b') ->
  a' = b + g.
Proof.
  revert c i. induction hs as [|h hs IH]; intros c [|i]; simpl;
    try discriminate.
  - intros [= <- <-]. destruct hs; simpl; [discriminate|].
    now intros [= <- _].
  - apply IH.
Qed.

Lemma y_extents_ge (g c : Z) (hs : list Z) (i : nat) (a b : Z) :
  0 <= g -> Forall (fun h => 0 <= h) hs ->
  y_extents g c hs !! i = Some (a, b) -> c <= a.
Proof.
  intros Hg Hhs. revert c i.
  induction Hhs as [|h hs Hh Hhs IH]; intros c [|i]; simpl; try discriminate.
  - intros [= <- _]. lia.
  - intros Hl. apply IH in Hl. lia.
Qed.

Lemma y_extents_mono (g c : Z) (hs : list Z) (i j : nat) (a b a' b' : Z) :
  0 <= g -> Forall (fun h => 0 <= h) hs -> (i < j)%nat ->
  y_extents g c hs !! i = Some (a, b) ->
  y_extents g c hs !! j = Some (a', b') ->
  b + g <= a'.
Proof.
  intros Hg Hhs. revert c i j.
  induction Hhs as [|h hs Hh Hhs IH]; intros c i j Hij; [discriminate|].
  destruct j as [|j]; [lia|]. destruct i as [|i]; simpl.
  - intros [= <- <-] Hl. now apply y_extents_ge in Hl.
  - apply IH. lia.
Qed.

Lemma slot_heights_length (evs : list Ev) (l : list Z) :
  length (slot_heights localeCompare cfg evs l) = length l.
Proof. unfold slot_heights. apply length_map. Qed.

Lemma slot_heights_ge (evs : list Ev) (l : list Z) :
  Forall (fun h => rowH cfg <= h) (slot_heights localeCompare cfg evs l).
Proof.
  unfold slot_heights. apply Forall_forall. intros h Hh.
  change (map ?f ?l) with (f <$> l) in Hh.
  apply list_elem_of_fmap in Hh as (s & -> & _).
  destruct (0 <? length (normal_by_start localeCompare evs s))%nat; lia.
Qed.

Lemma max_slot_ge (slotOfId : gmap Z nat) (evs : list Ev) (r : Ev) :
  (slotOfId !!! start_ms r <= max_slot slotOfId evs r)%nat.
Proof.
  unfold max_slot. generalize (slotOfId !!! start_ms r). intros m.
  revert m. induction evs as [|e evs IH]; intros m; simpl; [lia|].
  etransitivity; [|apply IH].
  destruct ((start_ms r <=? start_ms e) && (start_ms e <=? end_ms r));
    [|lia].
  destruct (Nat.ltb_spec m (slotOfId !!! start_ms e)); lia.
Qed.

Lemma max_slot_covers (slotOfId : gmap Z nat) (evs : list Ev) (r e : Ev) :
  e ∈ evs -> start_ms r <= start_ms e <= end_ms r ->
  (slotOfId !!! start_ms e <= max_slot slotOfId evs r)%nat.
Proof.
  intros He Hin. unfold max_slot.
  generalize (slotOfId !!! start_ms r). intros m. revert m.
  assert (Hge : forall l m,
    (m <= foldl (fun maxSlot e0 =>
                   if ((start_ms r <=? start_ms e0)%Z
                       && (start_ms e0 <=? end_ms r)%Z)%bool
                   then (if (maxSlot <? slotOfId !!! start_ms e0)%nat
                         then slotOfId !!! start_ms e0 else maxSlot)
                   else maxSlot) m l)%nat).
  { induction l as [|x l IH]; intros m; simpl; [lia|].
    etransitivity; [|apply IH].
    destruct ((start_ms r <=? start_ms x) && (start_ms x <=? end_ms r));
      [|lia].
    destruct (Nat.ltb_spec m (slotOfId !!! start_ms x)); lia. }
  induction evs as [|x evs IH]; intros m; [inversion He|].
  apply elem_of_cons in He as [->|He]; simpl.
  - etransitivity; [|apply Hge].
    replace ((start_ms r <=? start_ms x) && (start_ms x <=? end_ms r))
      with true by (symmetry; apply andb_true_iff; split; apply Z.leb_le; lia).
    destruct (Nat.ltb_spec m (slotOfId !!! start_ms x)); lia.
  - now apply IH.
Qed.

Lemma max_slot_cases (slotOfId : gmap Z nat) (evs : list Ev) (r : Ev) :
  max_slot slotOfId evs r = slotOfId !!! start_ms r
  \/ exists e, e ∈ evs /\ start_ms r <= start_ms e <= end_ms r
       /\ max_slot slotOfId evs r = slotOfId !!! start_ms e.
Proof.
  unfold max_slot. generalize (slotOfId !!! start_ms r). intros m.
  revert m. induction evs as [|x evs IH] using rev_ind; intros m;
    [now left|].
  rewrite foldl_app. simpl.
  destruct ((start_ms r <=? start_ms x) && (start_ms x <=? end_ms r)) eqn:Hw.
  - match goal with |- context [(?a <? ?b)%nat] =>
      destruct (Nat.ltb_spec a b) end.
    + right. exists x. split; [apply elem_of_app; right; now left|].
      apply andb_true_iff in Hw as [H1 H2].
      apply Z.leb_le in H1, H2. split; [lia|reflexivity].
    + destruct (IH m) as [Hm|(e & He & Hin & Hm)]; [now left|].
      right. exists e. split; [apply elem_of_app; now left|]. now split.
  - destruct (IH m) as [Hm|(e & He & Hin & Hm)]; [now left|].
    right. exists e. split; [apply elem_of_app; now left|]. now split.
Qed.

Lemma positioned_layout (events : list Ev) :
  positioned (layout localeCompare cfg events)
  = map (range_card cfg (sort_events localeCompare events)
           (slot_index (slotStarts localeCompare events))
           (map fst (extents localeCompare cfg events))
           (map snd (extents localeCompare cfg events))
           (wrapCols localeCompare events))
      (ranges_of localeCompare events)
    ++ omap (stack_card localeCompare cfg (sort_events localeCompare events)
               (slot_index (slotStarts localeCompare events))
               (map fst (extents localeCompare cfg events))
               (slotH localeCompare cfg events)
               (wrapArea (layout localeCompare cfg events)))
         (slotStarts localeCompare events).
Proof. reflexivity. Qed.

Lemma ranges_of_elem_of (events : list Ev) (r : Ev) :
  r ∈ ranges_of localeCompare events <-> r ∈ events /\ is_range r = true.
Proof.
  unfold ranges_of. now rewrite filter_elem_of, sort_events_Permutation.
Qed.

Lemma slotH_nonneg (events : list Ev) :
  0 <= rowH cfg -> Forall (fun h => 0 <= h) (slotH localeCompare cfg events).
Proof.
  intros Hr. eapply Forall_impl; [apply slot_heights_ge|].
  simpl. intros h Hh. lia.
Qed.

Lemma extents_length (events : list Ev) :
  length (extents localeCompare cfg events)
  = length (slotStarts localeCompare events).
Proof.
  unfold extents. rewrite y_extents_length. apply slot_heights_length.
Qed.

(** The extent of the slot [i]: its top, and its height [slotH[i]]. *)
Lemma extents_lookup (events : list Ev) (i : nat) :
  (i < length (slotStarts localeCompare events))%nat ->
  exists a h,
    extents localeCompare cfg events !! i = Some (a, a + h)
    /\ slotH localeCompare cfg events !! i = Some h
    /\ rowH cfg <= h
    /\ map fst (extents localeCompare cfg events) !!! i = a
    /\ map snd (extents localeCompare cfg events) !!! i = a + h
    /\ slotH localeCompare cfg events !!! i = h.
Proof.
  intros Hi.
  destruct (lookup_lt_is_Some_2 (extents localeCompare cfg events) i)
    as [[a b] Hab]; [now rewrite extents_length|].
  destruct (y_extents_lookup _ _ _ _ _ _ Hab) as (h & Hh & ->).
  exists a, h. split; [exact Hab|]. split; [exact Hh|]. split.
  - pose proof (slot_heights_ge (sort_events localeCompare events) (slotStarts localeCompare events))
      as Hall.
    rewrite Forall_forall in Hall. apply Hall.
    now apply list_elem_of_lookup_2 in Hh.
  - split; [|split]; apply list_lookup_total_correct;
      [| |exact Hh]; change (map ?f ?l) with (f <$> l);
      now rewrite list_lookup_fmap, Hab.
Qed.

Lemma extents_order (events : list Ev) (i j : nat) (a b a' b' : Z) :
  0 <= rowH cfg -> 0 <= rowGap cfg -> (i <= j)%nat ->
  extents localeCompare cfg events !! i = Some (a, b) ->
  extents localeCompare cfg events !! j = Some (a', b') ->
  0 <= a /\ a <= b /\ a <= a' /\ b <= b'
  /\ ((i < j)%nat -> b + rowGap cfg <= a').
Proof.
  intros Hr Hg Hij Hi Hj.
  pose proof (slotH_nonneg events Hr) as Hnn.
  assert (Hh : forall k x y, extents localeCompare cfg events !! k = Some (x, y) ->
                 0 <= x <= y).
  { intros k x y Hk. split; [now apply (y_extents_ge _ _ _ _ _ _ Hg Hnn Hk)|].
    destruct (y_extents_lookup _ _ _ _ _ _ Hk) as (h & Hh & ->).
    rewrite Forall_forall in Hnn.
    apply list_elem_of_lookup_2, Hnn in Hh. lia. }
  pose proof (Hh _ _ _ Hi). pose proof (Hh _ _ _ Hj).
  destruct (decide (i = j)) as [->|Hne].
  - rewrite Hi in Hj. injection Hj as <- <-. repeat split; lia.
  - pose proof (y_extents_mono _ _ _ i j _ _ _ _ Hg Hnn ltac:(lia) Hi Hj).
    repeat split; lia.
Qed.

Lemma slot_of_lookup (events : list Ev) (e : Ev) :
  e ∈ events ->
  slotStarts localeCompare events !! slot_of localeCompare events (start_ms e)
  = Some (start_ms e).
Proof.
  intros He. apply slot_of_event. now rewrite sort_events_Permutation.
Qed.

(** The last slot a range spans: the slot of an instant within the range
    (or of its own start), no earlier than the slot of any event that
    starts within the range. *)
Lemma maxSlot_spec (events : list Ev) (r : Ev) :
  r ∈ events ->
  (slot_of localeCompare events (start_ms r) <= maxSlot localeCompare events r)%nat
  /\ (forall e, e ∈ events -> start_ms r <= start_ms e <= end_ms r ->
        (slot_of localeCompare events (start_ms e)
         <= maxSlot localeCompare events r)%nat)
  /\ exists e, e ∈ events
       /\ (e = r \/ start_ms r <= start_ms e <= end_ms r)
       /\ maxSlot localeCompare events r
          = slot_of localeCompare events (start_ms e).
Proof.
  intros Hr. split; [apply max_slot_ge|]. split.
  - intros e He Hin. apply max_slot_covers; [|exact Hin].
    now rewrite sort_events_Permutation.
  - destruct (max_slot_cases (slot_index (slotStarts localeCompare events))
                (sort_events localeCompare events) r) as [Hm|(e & He & Hin & Hm)].
    + exists r. split; [exact Hr|]. split; [now left|exact Hm].
    + exists e. rewrite sort_events_Permutation in He.
      split; [exact He|]. split; [now right|exact Hm].
Qed.

Lemma range_card_geometry (events : list Ev) (r : Ev) (x y w h : Z) :
  0 <= rowH cfg -> 0 <= rowGap cfg ->
  PRange r x y w h ∈ positioned (layout localeCompare cfg events) ->
  r ∈ events /\ is_range r = true
  /\ x = Z.of_nat (wrap_col (wrapCols localeCompare events) r)
         * (wrapColW cfg + gapX cfg)
  /\ w = wrapColW cfg
  /\ exists b a' b',
       extents localeCompare cfg events
         !! slot_of localeCompare events (start_ms r) = Some (y, b)
       /\ extents localeCompare cfg events
            !! maxSlot localeCompare events r = Some (a', b')
       /\ y + h = b'.
Proof.
  intros Hrow Hgap Hp. rewrite positioned_layout in Hp.
  apply elem_of_app in Hp as [Hp|Hp].
  - change (map ?f ?l) with (f <$> l) in Hp.
    apply list_elem_of_fmap in Hp as (r0 & Heq & Hr0).
    unfold range_card in Heq. injection Heq as <- -> -> -> ->.
    apply ranges_of_elem_of in Hr0 as [Hr Hkind].
    split; [exact Hr|]. split; [exact Hkind|].
    split; [reflexivity|]. split; [reflexivity|].
    destruct (maxSlot_spec events r Hr) as (Hle & _ & e & He & _ & Hm).
    pose proof (slot_of_lookup events r Hr) as Hi.
    pose proof (slot_of_lookup events e He) as Hj. rewrite <- Hm in Hj.
    apply lookup_lt_Some in Hi, Hj.
    destruct (extents_lookup events _ Hi) as (a & hi & Ha & _ & Hhi & Hya & _).
    destruct (extents_lookup events _ Hj) as (a' & hj & Ha' & _ & _ & _ & Hyb & _).
    fold (slot_of localeCompare events (start_ms r)).
    fold (maxSlot localeCompare events r).
    rewrite Hya, Hyb. exists (a + hi), a', (a' + hj).
    split; [exact Ha|]. split; [exact Ha'|].
    pose proof (extents_order events _ _ _ _ _ _ Hrow Hgap Hle Ha Ha'). lia.
  - apply list_elem_of_omap in Hp as (s & _ & Hs).
    unfold stack_card in Hs.
    destruct (normal_by_start localeCompare (sort_events localeCompare events) s); discriminate.
Qed.

Lemma normal_by_start_elem_of (events : list Ev) (s : Z) (e : Ev) :
  e ∈ normal_by_start localeCompare (sort_events localeCompare events) s
  <-> e ∈ events /\ is_range e = false /\ start_ms e = s.
Proof.
  rewrite normal_by_start_Permutation. unfold points_at.
  rewrite filter_elem_of, andb_true_iff, negb_true_iff, Z.eqb_eq. tauto.
Qed.

Lemma stack_card_geometry (events : list Ev) (s : Z) (items : list Ev)
    (x y w h : Z) :
  PStack s items x y w h ∈ positioned (layout localeCompare cfg events) ->
  items = normal_by_start localeCompare (sort_events localeCompare events) s
  /\ (exists e, e ∈ events /\ is_range e = false /\ start_ms e = s)
  /\ x = wrapArea (layout localeCompare cfg events) + gapX cfg
  /\ w = subcolW cfg * maxSubcols cfg + gapX cfg * (maxSubcols cfg - 1)
  /\ extents localeCompare cfg events !! slot_of localeCompare events s
     = Some (y, y + h).
Proof.
  intros Hp. rewrite positioned_layout in Hp.
  apply elem_of_app in Hp as [Hp|Hp].
  - change (map ?f ?l) with (f <$> l) in Hp.
    apply list_elem_of_fmap in Hp as (r0 & Heq & _). discriminate.
  - apply list_elem_of_omap in Hp as (s0 & Hs0 & Hs).
    unfold stack_card in Hs.
    destruct (normal_by_start localeCompare (sort_events localeCompare events) s0) as [|e0 l] eqn:Hn;
      [discriminate|].
    injection Hs as -> <- <- <- <- <-.
    split; [now rewrite Hn|]. split.
    { exists e0. apply normal_by_start_elem_of. rewrite Hn. now left. }
    split; [reflexivity|]. split; [reflexivity|].
    apply list_elem_of_lookup in Hs0 as [i Hi].
    pose proof (slot_of_start (sort_events localeCompare events) i s Hi) as Hslot.
    fold (slotStarts localeCompare events) in Hslot.
    fold (slot_of localeCompare events s) in Hslot |- *.
    rewrite Hslot.
    destruct (extents_lookup events i (lookup_lt_Some _ _ _ Hi))
      as (a & hi & Ha & _ & _ & Hya & _ & Hh).
    now rewrite Hya, Hh.
Qed.

Lemma totalH_layout (events : list Ev) :
  totalH (layout localeCompare cfg events)
  = match last (map snd (extents localeCompare cfg events)) with
    | Some y => y + 40
    | None => 400
    end.
Proof. reflexivity. Qed.

Lemma wrapArea_layout (events : list Ev) :
  wrapArea (layout localeCompare cfg events)
  = wrap_area cfg (colEnds localeCompare events).
Proof. reflexivity. Qed.

(** X14. The slots of the vertical layout are the distinct start instants
    of the events, in increasing order, one height per slot and no height
    below the row height; without events nothing is placed and the total
    height is 400. *)
Theorem slots_are_the_distinct_starts (events : list Ev) :
  StronglySorted Z.lt (slotStarts_of (layout localeCompare cfg events))
  /\ (forall s, s ∈ slotStarts_of (layout localeCompare cfg events)
        <-> exists e, e ∈ events /\ start_ms e = s)
  /\ length (slotH_of (layout localeCompare cfg events))
     = length (slotStarts_of (layout localeCompare cfg events))
  /\ Forall (fun h => rowH cfg <= h)
       (slotH_of (layout localeCompare cfg events))
  /\ (events = [] ->
      positioned (layout localeCompare cfg events) = []
      /\ totalH (layout localeCompare cfg events) = 400).
Proof.
  split; [apply unique_starts_sorted|]. split; [|split; [|split]].
  - intros s. simpl. rewrite unique_starts_elem_of.
    split; intros (e & He & Hs); exists e; split; try exact Hs.
    + now rewrite sort_events_Permutation in He.
    + now rewrite sort_events_Permutation.
  - apply slot_heights_length.
  - apply slot_heights_ge.
  - intros ->. split; reflexivity.
Qed.

(** X15. There is at most one stacked card per instant, and the stacked
    cards follow each other down the page in order of time: the card of an
    earlier instant ends at least one row gap above the card of a later
    one. *)
Theorem stacks_follow_time (events : list Ev) (s1 s2 : Z)
    (items1 items2 : list Ev) (x1 y1 w1 h1 x2 y2 w2 h2 : Z) :
  0 <= rowH cfg -> 0 <= rowGap cfg ->
  PStack s1 items1 x1 y1 w1 h1 ∈ positioned (layout localeCompare cfg events) ->
  PStack s2 items2 x2 y2 w2 h2 ∈ positioned (layout localeCompare cfg events) ->
  (s1 = s2 -> PStack s1 items1 x1 y1 w1 h1 = PStack s2 items2 x2 y2 w2 h2)
  /\ (s1 < s2 -> y1 + h1 + rowGap cfg <= y2).
Proof.
  intros Hrow Hgap Hp1 Hp2.
  destruct (stack_card_geometry events _ _ _ _ _ _ Hp1)
    as (Hi1 & (e1 & He1 & _ & Hs1) & Hx1 & Hw1 & Hy1).
  destruct (stack_card_geometry events _ _ _ _ _ _ Hp2)
    as (Hi2 & (e2 & He2 & _ & Hs2) & Hx2 & Hw2 & Hy2).
  split.
  - intros <-. rewrite Hy1 in Hy2. injection Hy2 as <- Hh.
    assert (h2 = h1) as -> by lia. congruence.
  - intros Hlt.
    pose proof (slot_of_lookup events e1 He1) as Hl1.
    pose proof (slot_of_lookup events e2 He2) as Hl2.
    rewrite Hs1 in Hl1. rewrite Hs2 in Hl2.
    destruct (slots_follow_time _ _ _ _ _ Hl1 Hl2) as [Hslot _].
    apply Hslot in Hlt.
    destruct (extents_order events _ _ _ _ _ _ Hrow Hgap
                (Nat.lt_le_incl _ _ Hlt) Hy1 Hy2)
      as (_ & _ & _ & _ & Hsep).
    now apply Hsep.
Qed.

(** X16. The wrapper of a range brackets what happens within the range:
    every card placed at an instant of the range begins at or below the
    top of the wrapper, and ends at or above its bottom when it also ends
    within the range (a stacked card, or a nested range). *)
Theorem range_wrapper_brackets_its_events (events : list Ev) (r : Ev)
    (x y w h : Z) (p : Positioned) :
  0 <= rowH cfg -> 0 <= rowGap cfg ->
  PRange r x y w h ∈ positioned (layout localeCompare cfg events) ->
  p ∈ positioned (layout localeCompare cfg events) ->
  start_ms r <= pos_start p <= end_ms r ->
  y <= pos_y p
  /\ (pos_start p <= pos_end p <= end_ms r -> pos_y p + pos_h p <= y + h).
Proof.
  intros Hrow Hgap Hr Hp Hin.
  destruct (range_card_geometry events _ _ _ _ _ Hrow Hgap Hr)
    as (Hre & _ & _ & _ & b & a' & b' & Hy & Hm & Hbot).
  destruct (maxSlot_spec events r Hre) as (_ & Hcov & _).
  pose proof (slot_of_lookup events r Hre) as Hlr.
  destruct p as [r' x' y' w' h'|s items x' y' w' h']; simpl in *.
  - destruct (range_card_geometry events _ _ _ _ _ Hrow Hgap Hp)
      as (Hre' & _ & _ & _ & c & d' & e' & Hy' & Hm' & Hbot').
    pose proof (slot_of_lookup events r' Hre') as Hlr'.
    destruct (slots_follow_time _ _ _ _ _ Hlr Hlr') as [_ Hslot].
    destruct (extents_order events _ _ _ _ _ _ Hrow Hgap
                (proj1 Hslot (proj1 Hin)) Hy Hy') as (_ & _ & Htop & _).
    split; [exact Htop|]. intros Hend.
    destruct (maxSlot_spec events r' Hre') as (_ & _ & e & He & Hwhich & Hme).
    assert (Hine : start_ms r <= start_ms e <= end_ms r)
      by (destruct Hwhich as [->|?]; lia).
    specialize (Hcov e He Hine). rewrite <- Hme in Hcov.
    destruct (extents_order events _ _ _ _ _ _ Hrow Hgap Hcov Hm' Hm)
      as (_ & _ & _ & Hb & _).
    lia.
  - destruct (stack_card_geometry events _ _ _ _ _ _ Hp)
      as (_ & (e & He & _ & Hs) & _ & _ & Hy').
    pose proof (slot_of_lookup events e He) as Hle. rewrite Hs in Hle.
    destruct (slots_follow_time _ _ _ _ _ Hlr Hle) as [_ Hslot].
    destruct (extents_order events _ _ _ _ _ _ Hrow Hgap
                (proj1 Hslot (proj1 Hin)) Hy Hy') as (_ & _ & Htop & _).
    split; [exact Htop|]. intros _.
    assert (Hine : start_ms r <= start_ms e <= end_ms r) by lia.
    specialize (Hcov e He Hine). rewrite Hs in Hcov.
    destruct (extents_order events _ _ _ _ _ _ Hrow Hgap Hcov Hy' Hm)
      as (_ & _ & _ & Hb & _).
    lia.
Qed.

(** The colouring loop, run on the ranges of the layout. *)
Lemma assign_columns_sound (ranges : list Ev) :
  cols_sound (fst (assign_columns ranges)) (snd (assign_columns ranges))
  /\ map fst (snd (assign_columns ranges)) = ranges_sorted ranges.
Proof.
  destruct (assign_fold_sound (ranges_sorted ranges) ([], []) cols_sound_init)
    as [H1 H2].
  split; [exact H1|exact H2].
Qed.

Lemma wrapCols_elem_of (events : list Ev) (r : Ev) :
  r ∈ map fst (wrapCols localeCompare events)
  <-> r ∈ events /\ is_range r = true.
Proof.
  unfold wrapCols.
  rewrite (proj2 (assign_columns_sound (ranges_of localeCompare events))).
  unfold ranges_sorted, Py.js_sort. rewrite stable_sort_Permutation.
  apply ranges_of_elem_of.
Qed.

(** [r._wrapCol || 0] is the column of a range with the id of [r], or 0
    when no range has it. *)
Lemma wrap_col_found (wrapCol : list (Ev * nat)) (r : Ev) :
  r ∈ map fst wrapCol ->
  exists r', (r', wrap_col wrapCol r) ∈ wrapCol /\ id r' = id r.
Proof.
  intros Hr. unfold wrap_col.
  destruct (List.find (fun p => String.eqb (id (fst p)) (id r)) wrapCol)
    as [[r' c]|] eqn:Hf.
  - apply find_some in Hf as [Hin Hid]. simpl in Hid.
    apply String.eqb_eq in Hid.
    exists r'. split; [now apply list_elem_of_In|exact Hid].
  - exfalso. change (map ?f ?l) with (f <$> l) in Hr.
    apply list_elem_of_fmap in Hr as ([r0 c] & -> & Hin).
    apply list_elem_of_In in Hin.
    pose proof (find_none _ _ Hf _ Hin) as Hno. simpl in Hno.
    now rewrite String.eqb_refl in Hno.
Qed.

Lemma wrap_col_bound (ranges : list Ev) (r : Ev) :
  (wrap_col (snd (assign_columns ranges)) r
   < Nat.max 1 (length (fst (assign_columns ranges))))%nat.
Proof.
  destruct (assign_columns_sound ranges) as [(Hcap & _) _].
  unfold wrap_col.
  destruct (List.find (fun p => String.eqb (id (fst p)) (id r))
              (snd (assign_columns ranges))) as [[r' c]|] eqn:Hf; simpl; [|lia].
  apply find_some in Hf as [Hin _]. apply list_elem_of_In in Hin.
  destruct (Hcap r' c Hin) as (v & Hv & _).
  apply lookup_lt_Some in Hv. lia.
Qed.

Lemma ids_inj (events : list Ev) (a b : Ev) :
  NoDup (map id events) -> a ∈ events -> b ∈ events -> id a = id b -> a = b.
Proof.
  intros Hnd Ha Hb Hid.
  apply list_elem_of_lookup in Ha as [i Hi].
  apply list_elem_of_lookup in Hb as [j Hj].
  assert (i = j).
  { apply (NoDup_lookup (map id events) i j (id a)); [exact Hnd| |].
    - now rewrite list_lookup_fmap, Hi.
    - now rewrite list_lookup_fmap, Hj, Hid. }
  congruence.
Qed.

Lemma wrap_col_assigned (events : list Ev) (r : Ev) :
  NoDup (map id events) -> r ∈ events -> is_range r = true ->
  (r, wrap_col (wrapCols localeCompare events) r)
  ∈ wrapCols localeCompare events.
Proof.
  intros Hnd Hr Hk.
  destruct (wrap_col_found (wrapCols localeCompare events) r)
    as (r' & Hin & Hid); [now apply wrapCols_elem_of|].
  assert (Hr' : r' ∈ events).
  { apply (wrapCols_elem_of events r').
    change (map ?f ?l) with (f <$> l). apply list_elem_of_fmap.
    eexists. split; [|exact Hin]. reflexivity. }
  pose proof (ids_inj events r' r Hnd Hr' Hr Hid) as Heq.
  now subst r'.
Qed.

(** A range that has ended before another one starts lies above it. *)
Lemma wrappers_apart (events : list Ev) (r1 r2 : Ev)
    (x1 y1 w1 h1 x2 y2 w2 h2 : Z) :
  0 <= rowH cfg -> 0 <= rowGap cfg ->
  PRange r1 x1 y1 w1 h1 ∈ positioned (layout localeCompare cfg events) ->
  PRange r2 x2 y2 w2 h2 ∈ positioned (layout localeCompare cfg events) ->
  start_ms r1 <= end_ms r1 -> end_ms r1 < start_ms r2 ->
  y1 + h1 + rowGap cfg <= y2.
Proof.
  intros Hrow Hgap Hp1 Hp2 Hord Hlt.
  destruct (range_card_geometry events _ _ _ _ _ Hrow Hgap Hp1)
    as (Hr1 & _ & _ & _ & b1 & a1' & b1' & Hy1 & Hm1 & Hbot1).
  destruct (range_card_geometry events _ _ _ _ _ Hrow Hgap Hp2)
    as (Hr2 & _ & _ & _ & b2 & a2' & b2' & Hy2 & _ & _).
  destruct (maxSlot_spec events r1 Hr1) as (_ & _ & e & He & Hwhich & Hme).
  assert (Hes : start_ms e < start_ms r2)
    by (destruct Hwhich as [->|?]; lia).
  pose proof (slot_of_lookup events e He) as Hle.
  pose proof (slot_of_lookup events r2 Hr2) as Hl2.
  destruct (slots_follow_time _ _ _ _ _ Hle Hl2) as [Hslot _].
  apply Hslot in Hes. rewrite <- Hme in Hes.
  destruct (extents_order events _ _ _ _ _ _ Hrow Hgap
              (Nat.lt_le_incl _ _ Hes) Hm1 Hy2) as (_ & _ & _ & _ & Hsep).
  specialize (Hsep Hes). lia.
Qed.

(** X17. Two different ranges whose wrappers stand in the same column never
    overlap, neither in time nor on the page: one of them ends before the
    other starts, and its wrapper ends at least one row gap above the
    wrapper of the other.  Ids must be unique and no range may end before
    it starts. *)
Theorem same_column_wrappers_are_apart (events : list Ev) (r1 r2 : Ev)
    (x y1 w1 h1 y2 w2 h2 : Z) :
  0 <= rowH cfg -> 0 <= rowGap cfg -> 0 < wrapColW cfg + gapX cfg ->
  NoDup (map id events) ->
  Forall (fun e => start_ms e <= end_ms e) events ->
  PRange r1 x y1 w1 h1 ∈ positioned (layout localeCompare cfg events) ->
  PRange r2 x y2 w2 h2 ∈ positioned (layout localeCompare cfg events) ->
  r1 <> r2 ->
  (end_ms r1 < start_ms r2 /\ y1 + h1 + rowGap cfg <= y2)
  \/ (end_ms r2 < start_ms r1 /\ y2 + h2 + rowGap cfg <= y1).
Proof.
  intros Hrow Hgap Hw Hnd Hord Hp1 Hp2 Hne.
  destruct (range_card_geometry events _ _ _ _ _ Hrow Hgap Hp1)
    as (Hr1 & Hk1 & Hx1 & _).
  destruct (range_card_geometry events _ _ _ _ _ Hrow Hgap Hp2)
    as (Hr2 & Hk2 & Hx2 & _).
  rewrite Forall_forall in Hord.
  pose proof (Hord r1 Hr1) as Ho1. pose proof (Hord r2 Hr2) as Ho2.
  assert (Hcol : wrap_col (wrapCols localeCompare events) r1
                 = wrap_col (wrapCols localeCompare events) r2).
  { rewrite Hx1 in Hx2. apply Z.mul_cancel_r in Hx2; lia. }
  pose proof (wrap_col_assigned events r1 Hnd Hr1 Hk1) as Hin1.
  pose proof (wrap_col_assigned events r2 Hnd Hr2 Hk2) as Hin2.
  rewrite <- Hcol in Hin2.
  apply list_elem_of_lookup in Hin1 as [p Hp].
  apply list_elem_of_lookup in Hin2 as [q Hq].
  destruct (assign_columns_sound (ranges_of localeCompare events))
    as [(_ & Hsep & _) _].
  fold (wrapCols localeCompare events) in Hsep.
  destruct (lt_eq_lt_dec p q) as [[Hpq|Hpq]|Hpq].
  - left. pose proof (Hsep _ _ _ _ _ Hpq Hp Hq) as Hlt.
    split; [exact Hlt|].
    now apply (wrappers_apart events r1 r2 x y1 w1 h1 x y2 w2 h2).
  - subst q. rewrite Hp in Hq. congruence.
  - right. pose proof (Hsep _ _ _ _ _ Hpq Hq Hp) as Hlt.
    split; [exact Hlt|].
    now apply (wrappers_apart events r2 r1 x y2 w2 h2 x y1 w1 h1).
Qed.

(** X18. The wrappers stay left of the stacked cards: every wrapper has the
    width of a wrapper column, begins at a multiple of the column pitch
    at or after 0 and ends within the wrapper area, and every stacked card
    begins one gap right of the wrapper area. *)
Theorem wrappers_left_of_stacks (events : list Ev) (p : Positioned) :
  0 <= wrapColW cfg + gapX cfg ->
  p ∈ positioned (layout localeCompare cfg events) ->
  if is_stack p
  then pos_x p = wrapArea (layout localeCompare cfg events) + gapX cfg
  else pos_w p = wrapColW cfg
       /\ 0 <= pos_x p
       /\ pos_x p + pos_w p <= wrapArea (layout localeCompare cfg events)
       /\ exists col : nat,
            pos_x p = Z.of_nat col * (wrapColW cfg + gapX cfg)
            /\ (col < Nat.max 1 (length (colEnd_of (layout localeCompare cfg events))))%nat.
Proof.
  intros Hpitch Hp.
  destruct p as [r x y w h|s items x y w h]; cbn [is_stack pos_x pos_w].
  - rewrite positioned_layout in Hp. apply elem_of_app in Hp as [Hp|Hp].
    + change (map ?f ?l) with (f <$> l) in Hp.
      apply list_elem_of_fmap in Hp as (r0 & Heq & _).
      unfold range_card in Heq. injection Heq as <- -> _ -> _.
      pose proof (wrap_col_bound (ranges_of localeCompare events) r) as Hb.
      fold (wrapCols localeCompare events) in Hb.
      fold (colEnds localeCompare events) in Hb.
      rewrite wrapArea_layout. unfold wrap_area.
      split; [reflexivity|]. split; [nia|]. split.
      * replace (Z.max 1 (Z.of_nat (length (colEnds localeCompare events))))
          with (Z.of_nat (Nat.max 1 (length (colEnds localeCompare events))))
          by lia.
        nia.
      * eexists. split; [reflexivity|exact Hb].
    + apply list_elem_of_omap in Hp as (s & _ & Hs).
      unfold stack_card in Hs.
      destruct (normal_by_start localeCompare
                  (sort_events localeCompare events) s); discriminate.
  - now destruct (stack_card_geometry events _ _ _ _ _ _ Hp)
      as (_ & _ & -> & _).
Qed.

(** X19. Every card lies within the height of the canvas: its top is at 0
    or further down, its height is not negative, and its bottom stays 40
    units or more above the total height. *)
Theorem cards_fit_total_height (events : list Ev) (p : Positioned) :
  0 <= rowH cfg -> 0 <= rowGap cfg ->
  p ∈ positioned (layout localeCompare cfg events) ->
  0 <= pos_y p
  /\ 0 <= pos_h p
  /\ pos_y p + pos_h p + 40 <= totalH (layout localeCompare cfg events).
Proof.
  intros Hrow Hgap Hp.
  assert (Hext : exists i j a b a' b',
    (i <= j)%nat
    /\ extents localeCompare cfg events !! i = Some (a, b)
    /\ extents localeCompare cfg events !! j = Some (a', b')
    /\ pos_y p = a /\ pos_y p + pos_h p = b').
  { destruct p as [r x y w h|s items x y w h]; simpl.
    - destruct (range_card_geometry events _ _ _ _ _ Hrow Hgap Hp)
        as (Hr & _ & _ & _ & b & a' & b' & Hy & Hm & Hbot).
      destruct (maxSlot_spec events r Hr) as (Hle & _).
      exists (slot_of localeCompare events (start_ms r)),
        (maxSlot localeCompare events r), y, b, a', b'. auto.
    - destruct (stack_card_geometry events _ _ _ _ _ _ Hp)
        as (_ & _ & _ & _ & Hy).
      exists (slot_of localeCompare events s),
        (slot_of localeCompare events s), y, (y + h), y, (y + h). auto. }
  destruct Hext as (i & j & a & b & a' & b' & Hij & Hi & Hj & Hy & Hbot).
  rewrite Hy in *. rewrite Hbot.
  destruct (extents_order events _ _ _ _ _ _ Hrow Hgap Hij Hi Hj)
    as (Ha & Hab & Haa & Hbb & _).
  destruct (extents_order events _ _ _ _ _ _ Hrow Hgap (Nat.le_refl j) Hj Hj)
    as (_ & Hab' & _).
  split; [exact Ha|]. split; [lia|].
  rewrite totalH_layout, last_lookup.
  change (map ?f ?l) with (f <$> l). rewrite length_fmap, list_lookup_fmap.
  pose proof (lookup_lt_Some _ _ _ Hj) as Hlen.
  destruct (lookup_lt_is_Some_2 (extents localeCompare cfg events)
              (Init.Nat.pred (length (extents localeCompare cfg events))))
    as [[c d] Hlast]; [lia|].
  rewrite Hlast. simpl.
  assert (Hjl : (j <= Init.Nat.pred (length (extents localeCompare cfg events)))%nat)
    by lia.
  destruct (extents_order events _ _ _ _ _ _ Hrow Hgap Hjl Hj Hlast)
    as (_ & _ & _ & Hd & _).
  lia.
Qed.

End VerticalGeometry.

Lemma stacks_follow_time_witness :
  0 + 130 + Vertical.rowGap Vertical.default_cfg <= 362.
Proof.
  apply (stacks_follow_time Examples.code_compare Vertical.default_cfg
           Examples.day_plan 50 200
           [Vertical.mkEv "5" 50 50 false]
           [Vertical.mkEv "1" 200 200 false; Vertical.mkEv "6" 200 200 false]
           520 0 1420 130 520 362 1420 216).
  - simpl. lia.
  - simpl. lia.
  - in_list.
  - in_list.
  - lia.
Defined.

Lemma range_wrapper_brackets_its_events_witness :
  142 <= 362 /\ 362 + 216 <= 142 + 436.
Proof.
  destruct (range_wrapper_brackets_its_events Examples.code_compare
              Vertical.default_cfg Examples.day_plan
              (Vertical.mkEv "0" 100 300 true) 0 142 240 436
              (Vertical.PStack 200
                 [Vertical.mkEv "1" 200 200 false;
                  Vertical.mkEv "6" 200 200 false] 520 362 1420 216))
    as [Htop Hbottom].
  - simpl. lia.
  - simpl. lia.
  - in_list.
  - in_list.
  - simpl. lia.
  - split; [exact Htop|]. apply Hbottom. simpl. lia.
Defined.

Lemma same_column_wrappers_are_apart_witness :
  (300 < 400 /\ 142 + 436 + Vertical.rowGap Vertical.default_cfg <= 590)
  \/ (500 < 100 /\ 590 + 240 + Vertical.rowGap Vertical.default_cfg <= 142).
Proof.
  apply (same_column_wrappers_are_apart Examples.code_compare
           Vertical.default_cfg Examples.day_plan
           (Vertical.mkEv "0" 100 300 true) (Vertical.mkEv "3" 400 500 true)
           0 142 240 436 590 240 240).
  - simpl. lia.
  - simpl. lia.
  - simpl. lia.
  - compute_done.
  - repeat constructor; simpl; lia.
  - in_list.
  - in_list.
  - discriminate.
Defined.

Lemma wrappers_left_of_stacks_witness :
  260 + 240 <= Vertical.wrapArea Examples.day_layout.
Proof.
  pose proof (wrappers_left_of_stacks Examples.code_compare
                Vertical.default_cfg Examples.day_plan
                (Vertical.PRange (Vertical.mkEv "2" 150 250 true)
                   260 252 240 326)) as Hleft.
  cbn [Spec.is_stack Spec.pos_x Spec.pos_w] in Hleft.
  apply Hleft.
  - simpl. lia.
  - in_list.
Defined.

Lemma cards_fit_total_height_witness :
  590 + 240 + 40 <= Vertical.totalH Examples.day_layout.
Proof.
  apply (cards_fit_total_height Examples.code_compare Vertical.default_cfg
           Examples.day_plan
           (Vertical.PRange (Vertical.mkEv "3" 400 500 true) 0 590 240 240)).
  - simpl. lia.
  - simpl. lia.
  - in_list.
Defined.

(* ===================================================================== *)
(** ** White space around names and sources *)
(* ===================================================================== *)

Section Trimming.
Import Core Spec.

Lemma append_cons (x : ascii) (a b : string) :
  (String x a +:+ b)%string = String x (a +:+ b).
Proof. reflexivity. Qed.

Lemma string_append_assoc (a b c : string) :
  ((a +:+ b) +:+ c)%string = (a +:+ (b +:+ c))%string.
Proof.
  induction a as [|x a IH]; [reflexivity|].
  now rewrite !append_cons, IH.
Qed.

Lemma append_nil_r (a : string) : (a +:+ "")%string = a.
Proof.
  induction a as [|x a IH]; [reflexivity|]. now rewrite append_cons, IH.
Qed.

Lemma rev_app_acc (a c : string) :
  String.rev_app a c = (String.rev a +:+ c)%string.
Proof.
  unfold String.rev. revert c.
  induction a as [|x a IH]; intros c; [reflexivity|].
  change (String.rev_app (String x a) c) with (String.rev_app a (String x c)).
  change (String.rev_app (String x a) "")
    with (String.rev_app a (String x EmptyString)).
  rewrite (IH (String x c)), (IH (String x EmptyString)).
  now rewrite string_append_assoc.
Qed.

Lemma rev_cons (x : ascii) (a : string) :
  String.rev (String x a) = (String.rev a +:+ String x EmptyString)%string.
Proof.
  unfold String.rev at 1.
  change (String.rev_app (String x a) "")
    with (String.rev_app a (String x EmptyString)).
  apply rev_app_acc.
Qed.

Lemma rev_append (a b : string) :
  String.rev (a +:+ b) = (String.rev b +:+ String.rev a)%string.
Proof.
  induction a as [|x a IH]; [now rewrite append_nil_r|].
  now rewrite append_cons, !rev_cons, IH, string_append_assoc.
Qed.

Lemma rev_involutive (a : string) : String.rev (String.rev a) = a.
Proof.
  induction a as [|x a IH]; [reflexivity|].
  now rewrite rev_cons, rev_append, IH.
Qed.

Lemma lstrip_length (s : string) :
  (String.length (Py.lstrip s) <= String.length s)%nat.
Proof.
  induction s as [|c s IH]; simpl; [lia|].
  destruct (Py.is_space c); simpl; lia.
Qed.

Lemma lstrip_split (s : string) :
  exists w, s = (w +:+ Py.lstrip s)%string.
Proof.
  induction s as [|c s [w IH]]; [now exists EmptyString|]. simpl.
  destruct (Py.is_space c).
  - exists (String c w). now rewrite append_cons, <- IH.
  - now exists EmptyString.
Qed.

Lemma lstrip_fixed_head (c : ascii) (s : string) :
  Py.lstrip (String c s) = String c s -> Py.is_space c = false.
Proof.
  simpl. destruct (Py.is_space c); [|reflexivity]. intros Heq.
  pose proof (lstrip_length s) as Hlen. rewrite Heq in Hlen. simpl in Hlen. lia.
Qed.

Lemma lstrip_idem (s : string) : Py.lstrip (Py.lstrip s) = Py.lstrip s.
Proof.
  induction s as [|c s IH]; [reflexivity|]. simpl.
  destruct (Py.is_space c) eqn:Hc; [exact IH|]. simpl. now rewrite Hc.
Qed.

Lemma lstrip_fixed_prefix (a b : string) :
  Py.lstrip (a +:+ b) = (a +:+ b)%string -> a <> EmptyString ->
  Py.lstrip a = a.
Proof.
  destruct a as [|c a]; [congruence|]. intros Hfix _.
  apply lstrip_fixed_head in Hfix. simpl. now rewrite Hfix.
Qed.

(** [strip] leaves a stripped text unchanged. *)
Lemma strip_idem (s : string) : trimmed (Py.strip s).
Proof.
  unfold trimmed, Py.strip.
  set (t := Py.lstrip s).
  set (u := Py.lstrip (String.rev t)).
  assert (Hu : Py.lstrip u = u) by apply lstrip_idem.
  assert (Ht : Py.lstrip t = t) by apply lstrip_idem.
  assert (Ha : Py.lstrip (String.rev u) = String.rev u).
  { destruct (lstrip_split (String.rev t)) as [w Hw]. fold u in Hw.
    assert (Hsplit : t = (String.rev u +:+ String.rev w)%string)
      by (rewrite <- rev_append, <- Hw; symmetry; apply rev_involutive).
    destruct (String.rev u) as [|c v] eqn:Hru; [reflexivity|].
    apply (lstrip_fixed_prefix (String c v) (String.rev w));
      [now rewrite <- Hsplit|discriminate]. }
  now rewrite Ha, rev_involutive, Hu.
Qed.

Lemma onbekend_trimmed : Py.strip "Onbekend" = "Onbekend"%string.
Proof. reflexivity. Qed.

(** X20. The entity names of a row are never empty and carry no white
    space at either end, so names that differ by surrounding blanks only
    fall into the same lane; a missing cell, or one without any name,
    yields the single name Onbekend. *)
Theorem entity_names_are_trimmed (value : text_cell) :
  (forall name, name ∈ split_entities value ->
     name <> EmptyString /\ trimmed name)
  /\ (value = None -> split_entities value = ["Onbekend"%string])
  /\ (forall v, value = Some v ->
        (forall part, part ∈ Py.split "|"%char v -> Py.strip part = EmptyString) ->
        split_entities value = ["Onbekend"%string])
  /\ (forall v part, value = Some v -> part ∈ Py.split "|"%char v ->
        Py.strip part <> EmptyString -> Py.strip part ∈ split_entities value).
Proof.
  split; [|split; [|split]].
  - intros name Hin. destruct value as [v|]; simpl in Hin.
    + destruct (List.filter (fun item => negb (String.eqb item ""))
                  (map Py.strip (Py.split "|" v))) as [|x l] eqn:Hl.
      * apply list_elem_of_singleton in Hin as ->. split; [discriminate|].
        exact onbekend_trimmed.
      * rewrite <- Hl in Hin. apply filter_elem_of in Hin as [Hin Hne].
        apply negb_true_iff, String.eqb_neq in Hne. split; [exact Hne|].
        change (map ?f ?l) with (f <$> l) in Hin.
        apply list_elem_of_fmap in Hin as (part & -> & _). apply strip_idem.
    + apply list_elem_of_singleton in Hin as ->. split; [discriminate|].
      exact onbekend_trimmed.
  - now intros ->.
  - intros v -> Hall. simpl.
    destruct (List.filter (fun item => negb (String.eqb item ""))
                (map Py.strip (Py.split "|" v))) as [|x l] eqn:Hl;
      [reflexivity|].
    assert (Hx : x ∈ List.filter (fun item => negb (String.eqb item ""))
                       (map Py.strip (Py.split "|" v)))
      by (rewrite Hl; now left).
    apply filter_elem_of in Hx as [Hin Hne].
    apply negb_true_iff, String.eqb_neq in Hne.
    change (map ?f ?l) with (f <$> l) in Hin.
    apply list_elem_of_fmap in Hin as (part & -> & Hpart).
    now specialize (Hall part Hpart).
  - intros v part -> Hpart Hne. simpl.
    assert (Hin : Py.strip part
                  ∈ List.filter (fun item => negb (String.eqb item ""))
                      (map Py.strip (Py.split "|" v))).
    { apply filter_elem_of. split.
      - change (map ?f ?l) with (f <$> l). apply list_elem_of_fmap. eauto.
      - now apply negb_true_iff, String.eqb_neq. }
    destruct (List.filter (fun item => negb (String.eqb item ""))
                (map Py.strip (Py.split "|" v))); [inversion Hin|exact Hin].
Qed.

Section Sources.
Variable strftime : string -> Z -> string.
Variable csv_reader : string -> option (list string).

Lemma unquote_trimmed (item : string) :
  trimmed item -> trimmed (unquote item).
Proof.
  intros Hitem. unfold unquote.
  destruct ((2 <=? String.length item)%nat
            && Py.startswith (String DoubleQuote EmptyString) item
            && Py.endswith (String DoubleQuote EmptyString) item);
    [apply strip_idem|exact Hitem].
Qed.

(** X21. The sources of a row are never empty and carry no white space at
    either end, also after a pair of enclosing double quotes was removed;
    a missing or blank cell yields no source at all. *)
Theorem sources_are_trimmed (value : text_cell) :
  (forall item, item ∈ split_sources csv_reader value ->
     item <> EmptyString /\ trimmed item)
  /\ (value = None -> split_sources csv_reader value = [])
  /\ (forall v, value = Some v -> Py.strip v = EmptyString ->
        split_sources csv_reader value = []).
Proof.
  split; [|split].
  - intros item Hin. destruct value as [v|]; simpl in Hin; [|inversion Hin].
    destruct (String.eqb (Py.strip v) ""); [inversion Hin|].
    apply filter_elem_of in Hin as [Hin Hne].
    apply negb_true_iff, String.eqb_neq in Hne. split; [exact Hne|].
    change (map ?f ?l) with (f <$> l) in Hin.
    apply list_elem_of_fmap in Hin as (part & -> & _).
    apply unquote_trimmed, strip_idem.
  - now intros ->.
  - intros v -> Hblank. simpl. now rewrite Hblank.
Qed.

End Sources.
End Trimming.

Lemma entity_names_are_trimmed_witness :
  Py.strip " Bob " ∈ Core.split_entities (Some "Alice | Bob ||"%string).
Proof.
  apply (entity_names_are_trimmed (Some "Alice | Bob ||"%string))
    with (v := "Alice | Bob ||"%string).
  - reflexivity.
  - in_list.
  - vm_compute. discriminate.
Defined.

Lemma sources_are_trimmed_witness :
  "b.pdf"%string <> EmptyString /\ Spec.trimmed "b.pdf".
Proof.
  apply (sources_are_trimmed Examples.no_csv (Some " a.pdf | b.pdf "%string)).
  in_list.
Defined.

(* ===================================================================== *)
(** ** The payload and the colours of the vertical timeline *)
(* ===================================================================== *)

Section PayloadFacts.
Import Vertical Spec.
Variable strftime : string -> Z -> string.

Lemma events_payload_snoc (rows : list Core.Row) (row : Core.Row) :
  events_payload strftime (rows ++ [row])
  = events_payload strftime rows
    ++ match payload_event (base_event strftime (length rows) row) with
       | Some ev => [ev]
       | None => []
       end.
Proof.
  unfold events_payload. rewrite imap_app, omap_app. simpl.
  rewrite Nat.add_0_r.
  now destruct (payload_event (base_event strftime (length rows) row)).
Qed.

(** What one row contributes. *)
Lemma payload_of_row (idx : nat) (row : Core.Row) :
  match payload_event (base_event strftime idx row) with
  | None => dated row = false
  | Some ev =>
      dated row = true
      /\ id ev = Py.str_of_int (Z.of_nat idx)
      /\ Some (start_ms ev) = to_ms <$> parsed_start row
      /\ end_ms ev = default (start_ms ev) (to_ms <$> parsed_end row)
      /\ (is_range ev = false -> end_ms ev = start_ms ev)
  end.
Proof.
  unfold payload_event, base_event, dated, parsed_start, parsed_end.
  cbn [Core.start_dt Core.end_dt Core.event_id].
  unfold Core.parse_date_time at 1 2 3.
  destruct (Core.Datum row) as [d|] eqn:Hd; [|reflexivity].
  assert (Hs : exists s, Core.parse_date_time (Some d) (Core.Starttijd row)
                         = Some s)
    by (unfold Core.parse_date_time; destruct (Core.Starttijd row); eauto).
  destruct Hs as [s Hs].
  unfold Core.parse_date_time in Hs |- *.
  destruct (Core.Starttijd row) eqn:Hst, (Core.Eindtijd row) eqn:Hen;
    cbn [start_ms end_ms id is_range fmap option_fmap option_map default];
    unfold Core.is_range; cbn [Core.start_dt Core.end_dt];
    repeat split; try reflexivity;
    try (intros Hk; apply negb_false_iff, Z.eqb_eq in Hk; congruence).
Qed.

Lemma payload_elem_of (rows : list Core.Row) (ev : Ev) :
  ev ∈ events_payload strftime rows
  <-> exists i row, rows !! i = Some row
        /\ payload_event (base_event strftime i row) = Some ev.
Proof.
  unfold events_payload. rewrite list_elem_of_omap. split.
  - intros (e & He & Hev). apply list_elem_of_lookup in He as [i Hi].
    rewrite list_lookup_imap in Hi.
    destruct (rows !! i) as [row|] eqn:Hrow; [|discriminate].
    simpl in Hi. injection Hi as <-. eauto.
  - intros (i & row & Hrow & Hev). exists (base_event strftime i row).
    split; [|exact Hev]. apply list_elem_of_lookup. exists i.
    now rewrite list_lookup_imap, Hrow.
Qed.

(** X22. The payload of the vertical timeline holds exactly one event per
    row with a readable date and none for the other rows; its id is the
    decimal row index, so the ids are pairwise different; an event that is
    not a range ends when it starts. *)
Theorem payload_keeps_dated_rows (rows : list Core.Row) :
  length (events_payload strftime rows) = length (List.filter dated rows)
  /\ NoDup (map id (events_payload strftime rows))
  /\ (forall i row, rows !! i = Some row -> dated row = true ->
        exists ev, ev ∈ events_payload strftime rows
          /\ id ev = Py.str_of_int (Z.of_nat i))
  /\ (forall ev, ev ∈ events_payload strftime rows ->
        (exists i row, rows !! i = Some row /\ dated row = true
           /\ id ev = Py.str_of_int (Z.of_nat i))
        /\ (is_range ev = false -> end_ms ev = start_ms ev)).
Proof.
  split; [|split; [|split]].
  - induction rows as [|row rows IH] using rev_ind; [reflexivity|].
    rewrite events_payload_snoc, List.filter_app, !length_app, IH. simpl.
    pose proof (payload_of_row (length rows) row) as Hrow.
    destruct (payload_event (base_event strftime (length rows) row)).
    + destruct Hrow as [-> _]. reflexivity.
    + rewrite Hrow. reflexivity.
  - induction rows as [|row rows IH] using rev_ind; [constructor|].
    rewrite events_payload_snoc, map_app. apply NoDup_app.
    split; [exact IH|].
    pose proof (payload_of_row (length rows) row) as Hrow.
    destruct (payload_event (base_event strftime (length rows) row)) as [ev|];
      simpl; [|split; [intros x _ Hx; inversion Hx|constructor]].
    destruct Hrow as (_ & Hid & _). split; [|apply NoDup_singleton].
    intros x Hx Hx'. apply list_elem_of_singleton in Hx'. subst x.
    change (map ?f ?l) with (f <$> l) in Hx.
    apply list_elem_of_fmap in Hx as (ev' & Hid' & Hin).
    apply payload_elem_of in Hin as (i & row' & Hi & Hev').
    pose proof (payload_of_row i row') as Hrow'. rewrite Hev' in Hrow'.
    destruct Hrow' as (_ & Hidi & _).
    rewrite Hid, Hidi in Hid'. unfold Py.str_of_int in Hid'.
    apply (inj pretty) in Hid'. apply lookup_lt_Some in Hi. lia.
  - intros i row Hrow Hd.
    pose proof (payload_of_row i row) as Hev.
    destruct (payload_event (base_event strftime i row)) as [ev|] eqn:Hp;
      [|congruence].
    exists ev. split; [apply payload_elem_of; eauto|apply Hev].
  - intros ev Hin. apply payload_elem_of in Hin as (i & row & Hrow & Hev).
    pose proof (payload_of_row i row) as Hp. rewrite Hev in Hp.
    destruct Hp as (Hd & Hid & _ & _ & Hpoint).
    split; [eauto|exact Hpoint].
Qed.

(** X23. The vertical timeline stores the end as it was parsed: for clock
    times within their day, start and end of a payload event lie on the
    same day, so they differ by less than 86 400 000 ms in either
    direction, and an end may precede its start. *)
Theorem payload_end_within_a_day (rows : list Core.Row) (ev : Ev) :
  Forall row_ok rows -> ev ∈ events_payload strftime rows ->
  -86400000 < end_ms ev - start_ms ev < 86400000.
Proof.
  intros Hok Hin. apply payload_elem_of in Hin as (i & row & Hrow & Hev).
  rewrite Forall_forall in Hok.
  pose proof (Hok row (list_elem_of_lookup_2 _ _ _ Hrow)) as Hrok.
  pose proof (payload_of_row i row) as Hp. rewrite Hev in Hp.
  destruct Hp as (_ & _ & Hs & He & _).
  destruct (parsed_start row) as [s|] eqn:Hps; [|discriminate].
  simpl in Hs. injection Hs as Hs.
  destruct (parsed_end row) as [en|] eqn:Hpe; simpl in He; [|lia].
  destruct (parsed_same_day row s en Hrok Hps Hpe) as (d & _ & Hsd & Hed).
  rewrite Hs, He. unfold to_ms, EPOCH, Core.DAY in *.
  pose proof (Z.div_mod (s - 719162 * 86400000000) 1000 ltac:(lia)) as Hds.
  pose proof (Z.mod_pos_bound (s - 719162 * 86400000000) 1000 ltac:(lia)) as Hms.
  pose proof (Z.div_mod (en - 719162 * 86400000000) 1000 ltac:(lia)) as Hde.
  pose proof (Z.mod_pos_bound (en - 719162 * 86400000000) 1000 ltac:(lia)) as Hme.
  lia.
Qed.

(** X24. The hue [_entity_color] computes lies between 0 and 359 and
    depends on the name alone; it is a hash, so different names can share a
    colour, as the names ab and bC do. *)
Theorem entity_hue_is_a_hash (entity : string) :
  0 <= entity_hue entity < 360
  /\ (forall c : ascii,
        entity_hue (entity +:+ String c EmptyString)
        = (entity_hue entity * 31 + Py.code c) mod 360)
  /\ entity_color "ab" = entity_color "bC".
Proof.
  assert (Hsnoc : forall s c,
    Py.codes (s +:+ String c EmptyString) = Py.codes s ++ [Py.code c]).
  { induction s as [|x s IH]; intros c; [reflexivity|].
    change (String x s +:+ String c EmptyString)%string
      with (String x (s +:+ String c EmptyString)).
    simpl. now rewrite IH. }
  split; [|split].
  - unfold entity_hue.
    induction (Py.codes entity) as [|ch l IH] using rev_ind; [simpl; lia|].
    rewrite foldl_app. simpl. apply Z.mod_pos_bound. lia.
  - intros c. unfold entity_hue. rewrite Hsnoc, foldl_app. reflexivity.
  - vm_compute. reflexivity.
Qed.

End PayloadFacts.

Lemma payload_end_within_a_day_witness :
  -86400000 < 1600650000000 - 1600729200000 < 86400000.
Proof.
  apply (payload_end_within_a_day Examples.no_strftime
           [Examples.overnight_row] Examples.inverted_range).
  - repeat constructor; vm_compute; congruence.
  - in_list.
Defined.

(* ===================================================================== *)
(** ** First fit opens no subrow needlessly *)
(* ===================================================================== *)

Section FirstFit.
Import Core Spec Horizontal.

Lemma make_card_timed (ex ew : gmap Z Z) (e : TimelineEvent) (s : Z) :
  start_dt e = Some s -> timed_card (make_card ex ew e).
Proof.
  intros Hs. exists s. simpl. split; [exact Hs|].
  unfold or_else, effective_end_dt. rewrite Hs. now destruct (end_dt e).
Qed.

(** The guard holds only when the event overlaps the last card. *)
Lemma blocked_overlaps (c : Card) (subrow : list Card) :
  timed_card c -> Forall timed_card subrow ->
  blocked (card_event c) subrow = true ->
  exists c', c' ∈ subrow /\ overlapping_cards c c'.
Proof.
  intros (s & Hs & _) Hall Hb. unfold blocked in Hb.
  destruct (last subrow) as [lc|] eqn:Hlast; [|discriminate].
  apply last_Some in Hlast as [init ->].
  rewrite Forall_app, Forall_singleton in Hall.
  destruct Hall as [_ (ls & Hls & Hlend)].
  rewrite Hs, Hls, Hlend in Hb. simpl in Hb.
  exists lc. split; [apply elem_of_app; right; now left|].
  exists s, ls. split; [exact Hs|]. split; [exact Hls|].
  unfold effective_end_dt at 1. rewrite Hs.
  now destruct (end_dt (card_event c)).
Qed.

(** Where [place] puts a card: in the first subrow that is not blocked, or
    in a new last subrow. *)
Lemma place_spec (card : Card) (subrows : list (list Card)) :
  exists k,
    (forall j u, (j < k)%nat -> subrows !! j = Some u ->
       blocked (card_event card) u = true)
    /\ ((k = length subrows /\ place card subrows = subrows ++ [[card]])
        \/ exists sr, subrows !! k = Some sr
             /\ place card subrows = <[ k := sr ++ [card] ]> subrows).
Proof.
  induction subrows as [|sr rest (k & Hpre & Hk)]; simpl.
  - exists 0%nat. split; [intros j u Hj; lia|]. now left.
  - destruct (blocked (card_event card) sr) eqn:Hb.
    + exists (S k). split.
      * intros [|j] u Hj; simpl; [now intros [= <-]|].
        apply Hpre. lia.
      * destruct Hk as [[-> ->]|(sr' & Hsr' & ->)]; [now left|].
        right. exists sr'. split; [exact Hsr'|reflexivity].
    + exists 0%nat. split; [intros j u Hj; lia|].
      right. exists sr. split; reflexivity.
Qed.

Lemma place_timed (card : Card) (subrows : list (list Card)) :
  timed_card card -> Forall (Forall timed_card) subrows ->
  Forall (Forall timed_card) (place card subrows).
Proof.
  intros Hc. induction 1 as [|sr rest Hsr Hrest IH]; simpl.
  - repeat constructor. exact Hc.
  - destruct (blocked (card_event card) sr); constructor; try assumption.
    apply Forall_app. split; [exact Hsr|]. now constructor.
Qed.

Lemma place_tight (card : Card) (subrows : list (list Card)) :
  timed_card card -> Forall (Forall timed_card) subrows ->
  tight subrows -> tight (place card subrows).
Proof.
  intros Hc Hall Ht.
  assert (Hblock : forall j u, subrows !! j = Some u ->
            blocked (card_event card) u = true ->
            exists c', c' ∈ u /\ overlapping_cards card c').
  { intros j u Hu Hb. apply blocked_overlaps; [exact Hc| |exact Hb].
    rewrite Forall_forall in Hall. apply Hall.
    now apply list_elem_of_lookup_2 in Hu. }
  destruct (place_spec card subrows) as (k & Hpre & [[-> ->]|(sr & Hsr & ->)]).
  - intros j k' upper lower c Hjk Hu Hl Hin.
    destruct (decide (k' < length subrows)%nat) as [Hlt|Hge].
    + rewrite lookup_app_l in Hu, Hl by lia. eauto.
    + rewrite lookup_app_r in Hl by lia.
      destruct (k' - length subrows)%nat eqn:Hd; simpl in Hl; [|discriminate].
      injection Hl as <-. apply list_elem_of_singleton in Hin. subst c.
      rewrite lookup_app_l in Hu by lia.
      apply (Hblock j upper Hu). apply (Hpre j upper); [lia|exact Hu].
  - pose proof (lookup_lt_Some _ _ _ Hsr) as Hklt.
    assert (Hupper : forall j upper c,
              <[ k := sr ++ [card] ]> subrows !! j = Some upper ->
              forall old, subrows !! j = Some old ->
              (exists c', c' ∈ old /\ overlapping_cards c c') ->
              exists c', c' ∈ upper /\ overlapping_cards c c').
    { intros j upper c Hu old Hold (c' & Hc' & Hov).
      destruct (decide (j = k)) as [->|Hne].
      - rewrite list_lookup_insert_eq in Hu by exact Hklt.
        injection Hu as <-. rewrite Hsr in Hold. injection Hold as <-.
        exists c'. split; [apply elem_of_app; now left|exact Hov].
      - rewrite list_lookup_insert_ne in Hu by congruence.
        rewrite Hu in Hold. injection Hold as <-. eauto. }
    intros j k' upper lower c Hjk Hu Hl Hin.
    destruct (lookup_lt_is_Some_2 subrows j) as [old Hold].
    { apply lookup_lt_Some in Hu. now rewrite length_insert in Hu. }
    apply (Hupper j upper c Hu old Hold).
    destruct (decide (k' = k)) as [->|Hne].
    + rewrite list_lookup_insert_eq in Hl by exact Hklt. injection Hl as <-.
      apply elem_of_app in Hin as [Hin|Hin].
      * apply (Ht j k old sr c Hjk Hold Hsr Hin).
      * apply list_elem_of_singleton in Hin. subst c.
        apply (Hblock j old Hold). now apply (Hpre j old).
    + rewrite list_lookup_insert_ne in Hl by congruence.
      apply (Ht j k' old lower c Hjk Hold Hl Hin).
Qed.

Lemma stack_fold_tight (ex ew : gmap Z Z) (l : list TimelineEvent)
    (subrows : list (list Card)) :
  Forall (Forall timed_card) subrows -> tight subrows ->
  Forall (Forall timed_card) (foldl (stack_step ex ew) subrows l)
  /\ tight (foldl (stack_step ex ew) subrows l).
Proof.
  revert subrows. induction l as [|e l IH]; intros subrows Hall Ht; simpl;
    [now split|].
  apply IH; unfold stack_step; destruct (start_dt e) as [s|] eqn:Hs;
    try assumption.
  - apply place_timed; [now apply (make_card_timed ex ew e s)|exact Hall].
  - apply place_tight; [now apply (make_card_timed ex ew e s)|exact Hall|exact Ht].
Qed.

(** X25. First fit opens no subrow needlessly: in every lane, each card of
    a subrow overlaps in time some card of every subrow above it. *)
Theorem no_subrow_is_opened_needlessly (events : list TimelineEvent)
    (L : Layout) (entity : string) (subrows : list (list Card))
    (j k : nat) (upper lower : list Card) (c : Card) :
  horizontal_layout events = inr L -> (entity, subrows) ∈ layout L ->
  (j < k)%nat -> subrows !! j = Some upper -> subrows !! k = Some lower ->
  c ∈ lower ->
  exists c', c' ∈ upper /\ overlapping_cards c c'.
Proof.
  intros HL Hlane Hjk Hu Hl Hin.
  destruct (layout_lane events L entity subrows HL Hlane) as [-> _].
  unfold lane in Hu, Hl.
  change (map ?f ?l) with (f <$> l) in Hu, Hl.
  rewrite list_lookup_fmap in Hu, Hl.
  destruct (stack (event_x L) (event_w L) (entity_events_of entity events) !! j)
    as [u0|] eqn:Hu0; [|discriminate].
  destruct (stack (event_x L) (event_w L) (entity_events_of entity events) !! k)
    as [l0|] eqn:Hl0; [|discriminate].
  simpl in Hu, Hl. injection Hu as <-. injection Hl as <-.
  rewrite sorted_Permutation in Hin.
  destruct (stack_fold_tight (event_x L) (event_w L)
              (sorted_events (entity_events_of entity events)) [])
    as [_ Ht]; [constructor|intros ? ? ? ? ? ? Hnil; discriminate|].
  destruct (Ht j k u0 l0 c Hjk Hu0 Hl0 Hin) as (c' & Hc' & Hov).
  exists c'. split; [now rewrite sorted_Permutation|exact Hov].
Qed.

End FirstFit.

Lemma no_subrow_is_opened_needlessly_witness :
  exists c c',
    Examples.sheet_lane !! 1%nat = Some [c]
    /\ c' ∈ Examples.sheet_subrow /\ Spec.overlapping_cards c c'.
Proof.
  assert (Hlower : exists c, Examples.sheet_lane !! 1%nat = Some [c])
    by (vm_compute; eexists; reflexivity).
  destruct Hlower as [c Hlower].
  destruct (no_subrow_is_opened_needlessly
              (Examples.run_events Examples.sheet) Examples.sheet_layout "X"
              Examples.sheet_lane 0 1 Examples.sheet_subrow [c] c)
    as (c' & Hin & Hov).
  - vm_compute. reflexivity.
  - in_list.
  - lia.
  - vm_compute. reflexivity.
  - exact Hlower.
  - now left.
  - exists c, c'. auto.
Defined.
